(** * ServiceOrchestrator: schedule engine, node executor and stream stitcher

    A shallow embedding of [comps/cores/mega/orchestrator.py], with the
    metrics object it shares between threads, and of the LlamaGuard guardrail
    of [comps/guardrails/src/guardrails/integrations/llamaguard.py].

    - Python [str] values are lists of Unicode code points, [bytes] values
      are lists of [Byte.byte].
    - JSON payloads ([dict]) are finite maps from keys to JSON values.
    - Exceptions are explicit: a function that can raise returns a sum, or a
      state together with a status.
    - The asyncio event loop, the remote services and Python's [re] module are
      the environment: they appear as scripts, oracles and section variables. *)

From Stdlib Require Import NArith ZArith Strings.Byte Ascii String Lia.
From stdpp Require Import gmap strings list.

Set Default Proof Using "Type".
Open Scope N_scope.

(** ** Python strings and bytes *)

Module PyStr.

(** A Python [str]: the sequence of its code points. *)
Definition pystr := list N.

(** A Python [bytes] object. *)
Definition pybytes := list byte.

(** An ASCII literal as a Python [str]. *)
Definition py (s : string) : pystr :=
  (fun a => N_of_ascii a) <$> list_ascii_of_string s.

Definition LF : N := 10.
Definition TAB : N := 9.
Definition CR : N := 13.
Definition SQUOTE : N := 39.
Definition DQUOTE : N := 34.
Definition BACKSLASH : N := 92.

Definition str_eqb (a b : pystr) : bool := bool_decide (a = b).

(** [s.startswith(p)] *)
Fixpoint startswith (p s : pystr) : bool :=
  match p, s with
  | [], _ => true
  | _ :: _, [] => false
  | a :: p', b :: s' => (a =? b) && startswith p' s'
  end.

(** [s.endswith(p)] *)
Definition endswith (p s : pystr) : bool :=
  startswith (reverse p) (reverse s).

(** [sub in s] for strings: some suffix of [s] starts with [sub]. *)
Fixpoint contains (sub s : pystr) : bool :=
  startswith sub s ||
  match s with
  | [] => false
  | _ :: s' => contains sub s'
  end.

(** [s.replace(old, new)] for a non-empty [old]: non-overlapping occurrences
    are replaced from left to right.  [skip] counts the characters of a
    matched occurrence that are still to be dropped. *)
Fixpoint replace_from (old new : pystr) (skip : nat) (s : pystr) : pystr :=
  match s with
  | [] => []
  | c :: rest =>
      match skip with
      | S k => replace_from old new k rest
      | O =>
          if startswith old s
          then new ++ replace_from old new (length old - 1) rest
          else c :: replace_from old new 0 rest
      end
  end.

Definition replace (old new s : pystr) : pystr := replace_from old new 0 s.

(** *** UTF-8 *)

Definition byte_of_N (n : N) : byte :=
  default x00 (Byte.of_N (n mod 256)).

(** The UTF-8 encoding of one code point; surrogates and values above
    U+10FFFF cannot be encoded ([UnicodeEncodeError]). *)
Definition utf8_encode_char (c : N) : option pybytes :=
  if c <? 0x80 then Some [byte_of_N c]
  else if c <? 0x800 then
    Some [byte_of_N (0xC0 + c / 64); byte_of_N (0x80 + c mod 64)]
  else if c <? 0x10000 then
    if (0xD800 <=? c) && (c <=? 0xDFFF) then None
    else Some [byte_of_N (0xE0 + c / 4096);
               byte_of_N (0x80 + (c / 64) mod 64);
               byte_of_N (0x80 + c mod 64)]
  else if c <? 0x110000 then
    Some [byte_of_N (0xF0 + c / 262144);
          byte_of_N (0x80 + (c / 4096) mod 64);
          byte_of_N (0x80 + (c / 64) mod 64);
          byte_of_N (0x80 + c mod 64)]
  else None.

(** [s.encode("utf-8")] *)
Fixpoint utf8_encode (s : pystr) : option pybytes :=
  match s with
  | [] => Some []
  | c :: rest =>
      match utf8_encode_char c, utf8_encode rest with
      | Some b, Some bs => Some (b ++ bs)
      | _, _ => None
      end
  end.

Definition is_cont (b : byte) : bool :=
  (0x80 <=? Byte.to_N b) && (Byte.to_N b <=? 0xBF).

Definition cont_bits (b : byte) : N := Byte.to_N b - 0x80.

(** [b.decode("utf-8")] with the strict error handler: truncated, overlong
    and surrogate sequences are rejected ([UnicodeDecodeError]). *)
Fixpoint utf8_decode (b : pybytes) : option pystr :=
  match b with
  | [] => Some []
  | b0 :: r0 =>
      let n0 := Byte.to_N b0 in
      if n0 <? 0x80 then cons n0 <$> utf8_decode r0
      else if (0xC2 <=? n0) && (n0 <=? 0xDF) then
        match r0 with
        | b1 :: r1 =>
            if is_cont b1
            then cons ((n0 - 0xC0) * 64 + cont_bits b1) <$> utf8_decode r1
            else None
        | _ => None
        end
      else if (0xE0 <=? n0) && (n0 <=? 0xEF) then
        match r0 with
        | b1 :: b2 :: r2 =>
            let c := (n0 - 0xE0) * 4096 + cont_bits b1 * 64 + cont_bits b2 in
            if is_cont b1 && is_cont b2 && (0x800 <=? c)
               && negb ((0xD800 <=? c) && (c <=? 0xDFFF))
            then cons c <$> utf8_decode r2
            else None
        | _ => None
        end
      else if (0xF0 <=? n0) && (n0 <=? 0xF4) then
        match r0 with
        | b1 :: b2 :: b3 :: r3 =>
            let c := (n0 - 0xF0) * 262144 + cont_bits b1 * 4096
                     + cont_bits b2 * 64 + cont_bits b3 in
            if is_cont b1 && is_cont b2 && is_cont b3
               && (0x10000 <=? c) && (c <? 0x110000)
            then cons c <$> utf8_decode r3
            else None
        | _ => None
        end
      else None
  end.

(** *** [repr] of a [bytes] object *)

Definition hexdigit (n : N) : N :=
  if n <? 10 then 48 + n else 87 + n.

(** One byte inside the quotes of [repr(b)]. *)
Definition repr_byte (quote : N) (b : byte) : pystr :=
  let c := Byte.to_N b in
  if (c =? quote) || (c =? BACKSLASH) then [BACKSLASH; c]
  else if c =? TAB then [BACKSLASH; 116]
  else if c =? LF then [BACKSLASH; 110]
  else if c =? CR then [BACKSLASH; 114]
  else if (c <? 32) || (0x7f <=? c) then
    [BACKSLASH; 120; hexdigit (c / 16); hexdigit (c mod 16)]
  else [c].

(** The quote [repr] chooses: double quotes only when the bytes hold a single
    quote and no double quote. *)
Definition repr_quote (b : pybytes) : N :=
  if existsb (fun x => Byte.to_N x =? SQUOTE) b
     && negb (existsb (fun x => Byte.to_N x =? DQUOTE) b)
  then DQUOTE else SQUOTE.

(** [repr(b)] for [b : bytes] *)
Definition repr_bytes (b : pybytes) : pystr :=
  let q := repr_quote b in
  [98; q] ++ concat (repr_byte q <$> b) ++ [q].

(** *** Whitespace and the token regex *)

(** [\s] in a Unicode pattern: the characters for which [str.isspace] holds. *)
Definition is_space (c : N) : bool :=
  ((9 <=? c) && (c <=? 13)) || ((28 <=? c) && (c <=? 32))
  || (c =? 0x85) || (c =? 0xA0) || (c =? 0x1680)
  || ((0x2000 <=? c) && (c <=? 0x200A))
  || (c =? 0x2028) || (c =? 0x2029) || (c =? 0x202F)
  || (c =? 0x205F) || (c =? 0x3000).

(** [re.findall(r"\s?\S+\s?", s, re.UNICODE)]: scanning from the left, a
    token is an optional white-space character, a maximal run of
    non-white-space characters and an optional white-space character.
    [cur] is the token being read, if any. *)
Fixpoint findall_tokens (cur : option pystr) (s : pystr) : list pystr :=
  match s with
  | [] => match cur with Some t => [t] | None => [] end
  | c :: rest =>
      match cur with
      | Some t =>
          if is_space c then (t ++ [c]) :: findall_tokens None rest
          else findall_tokens (Some (t ++ [c])) rest
      | None =>
          if is_space c then
            match rest with
            | c2 :: _ =>
                if is_space c2 then findall_tokens None rest
                else findall_tokens (Some [c]) rest
            | [] => []
            end
          else findall_tokens (Some [c]) rest
      end
  end.

End PyStr.
Export PyStr.

(** ** Wire format: [extract_chunk_str] and [token_generator] *)

Module Framing.

Definition DONE_EVENT : pystr := py "data: [DONE]" ++ [LF; LF].

(** [ServiceOrchestrator.extract_chunk_str] *)
Definition extract_chunk_str (chunk_str : pystr) : pystr :=
  if str_eqb chunk_str DONE_EVENT then []
  else
    let prefix := py "data: b" ++ [SQUOTE] in
    let prefix_2 := py "data: b" ++ [DQUOTE] in
    let suffix := [SQUOTE; LF; LF] in
    let suffix_2 := [DQUOTE; LF; LF] in
    let chunk_str :=
      if startswith prefix chunk_str || startswith prefix_2 chunk_str
      then drop (length prefix) chunk_str else chunk_str in
    let chunk_str :=
      if endswith suffix chunk_str || endswith suffix_2 chunk_str
      then take (length chunk_str - length suffix) chunk_str else chunk_str in
    chunk_str.

(** The event [token_generator] yields for one token:
    [prefix + repr(token.replace("\\n", "\n").encode("utf-8")) + suffix];
    [None] when the encoding raises. *)
Definition frame (token : pystr) : option pystr :=
  b ← utf8_encode (replace [BACKSLASH; 110] [LF] token);
  Some (py "data: " ++ repr_bytes b ++ [LF; LF]).

End Framing.
Export Framing.

(** ** Data model *)

Module Data.

(** A node name. *)
Definition node := pystr.

(** JSON values carried by payloads: scalars and lists of strings. *)
Inductive value :=
| VNull
| VBool (b : bool)
| VNum (z : Z)
| VStr (s : pystr)
| VList (l : list pystr).

(** A structured payload: a Python [dict] with string keys. *)
Abbreviation payload := (gmap pystr value).

(** Python's [==] on JSON values ([True == 1] and [False == 0] hold). *)
Definition py_eq (a b : value) : bool :=
  match a, b with
  | VNull, VNull => true
  | VBool x, VBool y => bool_decide (x = y)
  | VBool x, VNum z | VNum z, VBool x => (z =? (if x then 1 else 0))%Z
  | VNum x, VNum y => (x =? y)%Z
  | VStr x, VStr y => str_eqb x y
  | VList x, VList y => bool_decide (x = y)
  | _, _ => false
  end.

Inductive exn :=
| KeyError
| TypeError
| AssertionError
| UnicodeDecodeError
| UnicodeEncodeError
| TransportError
| NotSupported.  (* Exception("Other response types not supported yet!") *)

(** The body of a streaming HTTP response: whether the response object is
    truthy (status below 400), the chunks [iter_content] delivers, and
    whether the iterator ends with [StopIteration] or raises. *)
Record upstream := {
  up_ok : bool;
  up_chunks : list pybytes;
  up_clean : bool;
}.

(** The generator wrapped by a [StreamingResponse]: the [fake_stream] of
    [schedule], or the [generate] closure of [execute] with the variables it
    captured. *)
Inductive stream :=
| FakeStream (text : value)
| Generate (up : upstream) (downstream : list node).

(** What a node's task returns. *)
Inductive response :=
| Structured (m : payload)
| AudioBytes (b : pybytes)
| StreamingResponse (s : stream).

Definition is_streaming (r : response) : bool :=
  match r with StreamingResponse _ => true | _ => false end.

(** Modelled from the spec: the [ServiceType] enumeration of
    [comps/cores/mega/constants.py], of which only [LLM] and [LVM] are
    distinguished by the orchestrator. *)
Inductive ServiceType :=
| EMBEDDING | RETRIEVER | RERANK | LLM | LVM | GUARDRAIL | ASR | TTS | OTHER.

(** Modelled from the spec: a service descriptor, with its service type and
    optional bearer credential. *)
Record service := {
  service_type : ServiceType;
  api_key_value : option pystr;
}.

(** Modelled from the spec: [LLMParams] of [comps/cores/proto/docarray.py],
    with the recognised options [stream] and [model] and the decoding
    parameters. *)
Record LLMParams := {
  stream_flag : bool;
  model : option pystr;
  decoding : list (pystr * value);
}.

(** [llm_parameters.dict()] *)
Definition llm_dict (lp : LLMParams) : list (pystr * value) :=
  (py "model", from_option VStr VNull (model lp))
    :: (py "stream", VBool (stream_flag lp))
    :: decoding lp.

(** A reference to a mutable [dict] on the heap. *)
Definition loc := nat.

(** What the orchestrator does that can be seen from outside, and the two
    bookkeeping events of the scheduling loop. *)
Inductive obs :=
| OPending (increase : bool)           (* metrics.pending_update(increase) *)
| ORequest                             (* metrics.request_update(req_start) *)
| OToken (is_first : bool)             (* metrics.token_update(_, is_first) *)
| OLogError                            (* logger.error(...) *)
| OPost (n : node) (body : payload)    (* session.post(endpoint(n), json=body) *)
| ORecord (n : node) (r : response)    (* result_dict[n] = r *)
| ODispatch (n : node) (inputs : loc). (* create_task(self.execute(.. n, inputs ..)) *)

#[global] Instance value_eq_dec : EqDecision value.
Proof. solve_decision. Defined.
#[global] Instance exn_eq_dec : EqDecision exn.
Proof. solve_decision. Defined.
#[global] Instance ServiceType_eq_dec : EqDecision ServiceType.
Proof. solve_decision. Defined.

End Data.
Export Data.

(** ** The DAG *)

Module Dag.

(** Modelled from the spec: the [DAG] class of [comps/cores/mega/dag.py].
    A graph maps each node name to the ordered set of its direct successors;
    the mapping keeps insertion order. *)
Definition dag := list (node * list node).

Definition nodes (g : dag) : list node := fst <$> g.

(** Modelled from the spec: [downstream(n)], the direct successors of [n] in
    insertion order, as a list of its own. *)
Definition downstream (g : dag) (n : node) : list node :=
  match list_find (λ kv, kv.1 = n) g with
  | Some (_, kv) => kv.2
  | None => []
  end.

(** Modelled from the spec: [predecessors(n)]. *)
Definition predecessors (g : dag) (n : node) : list node :=
  fst <$> filter (λ kv, n ∈ kv.2) g.

(** Modelled from the spec: [ind_nodes()], the nodes with zero predecessors. *)
Definition ind_nodes (g : dag) : list node :=
  filter (λ k, predecessors g k = []) (nodes g).

(** Modelled from the spec: [all_leaves()], the nodes with zero successors. *)
Definition all_leaves (g : dag) : list node :=
  filter (λ k, downstream g k = []) (nodes g).

(** [l.remove(x)]: the first occurrence of [x] is dropped. *)
Fixpoint list_remove (x : node) (l : list node) : list node :=
  match l with
  | [] => []
  | y :: l' => if decide (y = x) then l' else y :: list_remove x l'
  end.

(** Modelled from the spec: [delete_edge(u, v)]. *)
Definition delete_edge (g : dag) (u v : node) : dag :=
  (λ kv, if decide (kv.1 = u) then (kv.1, list_remove v kv.2) else kv) <$> g.

(** Modelled from the spec: [delete_node_if_exists(n)], which also removes
    the edges into [n]. *)
Definition delete_node_if_exists (g : dag) (n : node) : dag :=
  (λ kv, (kv.1, filter (λ x, x ≠ n) kv.2)) <$> filter (λ kv, kv.1 ≠ n) g.

(** Modelled from the spec: [all_downstreams(n)], the transitive successors
    of [n].  [fuel] bounds the length of a path. *)
Fixpoint reach (g : dag) (fuel : nat) (seen : list node) (todo : list node)
  : list node :=
  match fuel with
  | O => seen
  | S fuel' =>
      match todo with
      | [] => seen
      | x :: todo' =>
          let new := filter (λ y, y ∉ seen) (remove_dups (downstream g x)) in
          reach g fuel' (seen ++ new) (todo' ++ new)
      end
  end.

Definition all_downstreams (g : dag) (n : node) : list node :=
  reach g (S (length g)) [] [n].

(** The graph invariants of the data model that the engine relies on: node
    names are unique keys and each successor collection is a set. *)
Definition dag_wf (g : dag) : Prop :=
  NoDup (nodes g) ∧ Forall (λ kv, NoDup kv.2) g.

End Dag.
Export Dag.

(** ** The schedule engine and the node executor *)

Module Engine.

(** An [asyncio] task wrapping one call of [execute]: not yet started;
    suspended at [await session.post] (unary branch); past the blocking
    [requests.post] of the streaming branch, holding the downstream list it
    read; or stopped by an exception raised before any request was sent. *)
Inductive task :=
| Created (cur_node : node) (inputs : loc)
| Awaiting (cur_node : node)
| Streamed (cur_node : node) (ds : list node)
| Failed (cur_node : node) (e : exn).

Definition task_node (t : task) : node :=
  match t with
  | Created c _ | Awaiting c | Streamed c _ | Failed c _ => c
  end.

(** What the remote service answers to the request of a task. *)
Inductive reply :=
| RJson (m : payload)     (* a JSON object *)
| RAudio (b : pybytes)    (* content type audio/wav *)
| ROpen (u : upstream)    (* the response object of a streaming post *)
| RError.                 (* the call raised *)

(** One [asyncio.wait(.., FIRST_COMPLETED)]: the tasks found done, named by
    the node they were created for, in the order the loop visits them. *)
Definition batch := list (node * reply).

Inductive status :=
| Waiting            (* the loop awaits completions the script does not give *)
| Exited             (* [while pending] found no task left *)
| Returned           (* [schedule] returned *)
| Raised (e : exn)   (* an exception left [schedule] *)
| Stuck.             (* the script names a task that cannot be done *)

(** The variables of one [schedule] call. *)
Record state := {
  result_dict : gmap node response;
  runtime_graph : dag;
  pending : list task;
  heap : gmap loc payload;
  log : list obs;
}.

Definition set_result (n : node) (r : response) (st : state) : state :=
  {| result_dict := <[n := r]> (result_dict st);
     runtime_graph := runtime_graph st; pending := pending st;
     heap := heap st; log := log st |}.

Definition set_graph (g : dag) (st : state) : state :=
  {| result_dict := result_dict st; runtime_graph := g;
     pending := pending st; heap := heap st; log := log st |}.

Definition set_pending (p : list task) (st : state) : state :=
  {| result_dict := result_dict st; runtime_graph := runtime_graph st;
     pending := p; heap := heap st; log := log st |}.

Definition set_heap (h : gmap loc payload) (st : state) : state :=
  {| result_dict := result_dict st; runtime_graph := runtime_graph st;
     pending := pending st; heap := h; log := log st |}.

Definition emit (o : obs) (st : state) : state :=
  {| result_dict := result_dict st; runtime_graph := runtime_graph st;
     pending := pending st; heap := heap st; log := log st ++ [o] |}.

Section Engine.

(** [re.findall(pattern, name)]: [None] when the pattern does not compile
    ([re.error]), otherwise whether the list of matches is non-empty. *)
Variable re_findall : pystr → node → option bool.

(** [self.services] *)
Variable services : node → option service.

Variable llm_parameters : LLMParams.

(** *** [schedule]: black-list pruning *)

(** [for downstream in reversed(downstreams)] for one pattern.  The reverse
    iterator holds an index into the list that the body shortens; [k] is that
    index plus one, and the iterator stops when the index is out of range. *)
Fixpoint prune_pattern (black_node : pystr) (n : node) (k : nat)
    (st : state) (downstreams : list node) : state * list node :=
  match k with
  | O => (st, downstreams)
  | S i =>
      match downstreams !! i with
      | None => (st, downstreams)
      | Some d =>
          match re_findall black_node d with
          | Some true =>
              prune_pattern black_node n i
                (set_graph (delete_edge (runtime_graph st) n d) st)
                (list_remove d downstreams)
          | Some false => prune_pattern black_node n i st downstreams
          | None => prune_pattern black_node n i (emit OLogError st) downstreams
          end
      end
  end.

(** [for black_node in response["downstream_black_list"]]: prune with the
    pattern, then turn the response into a [fake_stream] when no downstream
    is left and the request streams. *)
Fixpoint black_list_loop (patterns : list pystr) (n : node) (m : payload)
    (st : state) (downstreams : list node) : state * list node * option exn :=
  match patterns with
  | [] => (st, downstreams, None)
  | black_node :: rest =>
      let '(st1, ds1) :=
        prune_pattern black_node n (length downstreams) st downstreams in
      if bool_decide (length ds1 = 0%nat) && stream_flag llm_parameters then
        match m !! py "text" with
        | None => (st1, ds1, Some KeyError)
        | Some text =>
            black_list_loop rest n m
              (set_result n (StreamingResponse (FakeStream text)) st1) ds1
        end
      else black_list_loop rest n m st1 ds1
  end.

(** The values a [for] loop draws from [response["downstream_black_list"]]:
    the items of a list, the characters of a string; other values are not
    iterable. *)
Definition iter_patterns (v : value) : option (list pystr) :=
  match v with
  | VList l => Some l
  | VStr s => Some ((λ c, [c]) <$> s)
  | _ => None
  end.

(** Lines 155-178: the local downstream view of the completed node and its
    pruning.  Testing a key in a [bytes] response raises. *)
Definition prune_phase (r : response) (n : node) (st : state)
  : state * list node * option exn :=
  let downstreams := downstream (runtime_graph st) n in
  match r with
  | StreamingResponse _ => (st, downstreams, None)
  | AudioBytes _ => (st, downstreams, Some TypeError)
  | Structured m =>
      match m !! py "downstream_black_list" with
      | None => (st, downstreams, None)
      | Some v =>
          match iter_patterns v with
          | None => (st, downstreams, Some TypeError)
          | Some patterns => black_list_loop patterns n m st downstreams
          end
      end
  end.

(** *** [process_outputs] *)

(** [all_outputs.update(r)]: a mapping is merged, later writers win; an empty
    [bytes] is an empty iterable; anything else raises. *)
Definition dict_update (all_outputs : payload) (r : response) : exn + payload :=
  match r with
  | Structured m => inr (m ∪ all_outputs)
  | AudioBytes [] => inr all_outputs
  | AudioBytes _ => inl TypeError
  | StreamingResponse _ => inl TypeError
  end.

Fixpoint process_outputs_from (all_outputs : payload) (prev_nodes : list node)
    (rd : gmap node response) : exn + payload :=
  match prev_nodes with
  | [] => inr all_outputs
  | prev_node :: rest =>
      match rd !! prev_node with
      | None => inl KeyError
      | Some r =>
          match dict_update all_outputs r with
          | inl e => inl e
          | inr all_outputs' => process_outputs_from all_outputs' rest rd
          end
      end
  end.

(** [ServiceOrchestrator.process_outputs] *)
Definition process_outputs (prev_nodes : list node) (rd : gmap node response)
  : exn + payload :=
  process_outputs_from ∅ prev_nodes rd.

(** *** [schedule]: the readiness scan *)

(** A fresh heap cell. *)
Definition fresh_loc (h : gmap loc payload) : loc :=
  S (max_list (elements (dom h))).

(** [pending.add(asyncio.create_task(self.execute(.., d_node, inputs, ..)))]
    with a newly built [inputs] mapping. *)
Definition dispatch (d_node : node) (inputs : payload) (st : state) : state :=
  let l := fresh_loc (heap st) in
  emit (ODispatch d_node l)
    (set_pending (pending st ++ [Created d_node l])
       (set_heap (<[l := inputs]> (heap st)) st)).

(** [all(i in result_dict for i in runtime_graph.predecessors(d_node))] *)
Definition all_finished (st : state) (d_node : node) : bool :=
  forallb (λ i, bool_decide (is_Some (result_dict st !! i)))
    (predecessors (runtime_graph st) d_node).

(** [for d_node in downstreams] (lines 180-189). *)
Fixpoint readiness_scan (downstreams : list node) (st : state)
  : state * option exn :=
  match downstreams with
  | [] => (st, None)
  | d_node :: rest =>
      if all_finished st d_node then
        match process_outputs (predecessors (runtime_graph st) d_node)
                (result_dict st) with
        | inl e => (st, Some e)
        | inr inputs => readiness_scan rest (dispatch d_node inputs st)
        end
      else readiness_scan rest st
  end.

(** The body of [for done_task in done] once the task's result is known
    (lines 152-189). *)
Definition process_done (r : response) (n : node) (st : state)
  : state * option exn :=
  let st := emit (ORecord n r) (set_result n r st) in
  match prune_phase r n st with
  | (st, _, Some e) => (st, Some e)
  | (st, downstreams, None) => readiness_scan downstreams st
  end.

(** *** [execute] *)

Definition is_llm_vlm (s : service) : bool :=
  match service_type s with LLM | LVM => true | _ => false end.

(** [if access_token] *)
Definition truthy (tok : option pystr) : bool :=
  match tok with Some (_ :: _) => true | _ => false end.

(** Lines 251-253: [if inputs.get(field) != value: inputs[field] = value]. *)
Definition overlay_field (inputs : payload) (fv : pystr * value) : payload :=
  if py_eq (default VNull (inputs !! fv.1)) fv.2 then inputs
  else <[fv.1 := fv.2]> inputs.

Definition overlay (inputs : payload) (d : list (pystr * value)) : payload :=
  foldl overlay_field inputs d.

(** The first step of a task, up to the point where [execute] waits for the
    remote service (lines 246-297 and 357-375).  The overlay is written into
    the mapping [inputs] refers to; the request body is the mapping as it is
    when the request is built. *)
Definition execute_start (cur_node : node) (inputs : loc) (st : state)
  : state * task :=
  match services cur_node, heap st !! inputs with
  | Some svc, Some m =>
      let m' := if is_llm_vlm svc then overlay m (llm_dict llm_parameters)
                else m in
      let st := set_heap (<[inputs := m']> (heap st)) st in
      if truthy (api_key_value svc) && bool_decide (m' !! py "model" = None)
      then (st, Failed cur_node KeyError)
      else if is_llm_vlm svc && stream_flag llm_parameters
      then (emit (OPost cur_node m') st,
            Streamed cur_node (downstream (runtime_graph st) cur_node))
      else (emit (OPost cur_node m') st, Awaiting cur_node)
  | _, _ => (st, Failed cur_node KeyError)
  end.

(** What a done task yields to [response, node = await done_task]:
    an exception, or the pair [execute] returned.  [None]: the task cannot
    be done with this reply. *)
Definition task_result (t : task) (rp : reply)
  : option (exn + response * node) :=
  match t, rp with
  | Created _ _, _ => None
  | Failed _ e, _ => Some (inl e)
  | Awaiting c, RJson m => Some (inr (Structured m, c))
  | Awaiting c, RAudio b => Some (inr (AudioBytes b, c))
  | Awaiting c, RError => Some (inl TransportError)
  | Awaiting c, ROpen _ => None
  | Streamed c ds, ROpen u =>
      match ds with
      | [] => Some (inr (StreamingResponse (Generate u []), c))
      | [d] => Some (inr (StreamingResponse (Generate u ds), d))
      | _ => Some (inl AssertionError)
      end
  | Streamed c ds, RError => Some (inl TransportError)
  | Streamed _ _, _ => None
  end.

(** *** The event loop *)

(** The event loop runs the first step of every task created since the last
    wait, in creation order, before [schedule] is resumed. *)
Fixpoint start_tasks (todo : list task) (st : state) : state :=
  match todo with
  | [] => st
  | Created c l :: rest =>
      let '(st1, t) := execute_start c l st in
      start_tasks rest (set_pending (pending st1 ++ [t]) st1)
  | t :: rest => start_tasks rest (set_pending (pending st ++ [t]) st)
  end.

Definition start_all (st : state) : state :=
  start_tasks (pending st) (set_pending [] st).

(** The first pending task created for [c], and the other tasks. *)
Fixpoint take_task (c : node) (p : list task) : option (task * list task) :=
  match p with
  | [] => None
  | t :: p' =>
      if decide (task_node t = c) then Some (t, p')
      else '(t', q) ← take_task c p'; Some (t', t :: q)
  end.

(** [for done_task in done]: each done task leaves the pending set and its
    result is processed; the first exception ends the call. *)
Fixpoint run_batch (b : batch) (st : state) : state * option status :=
  match b with
  | [] => (st, None)
  | (c, rp) :: b' =>
      match take_task c (pending st) with
      | None => (st, Some Stuck)
      | Some (t, p') =>
          match task_result t rp with
          | None => (st, Some Stuck)
          | Some (inl e) => (set_pending p' st, Some (Raised e))
          | Some (inr (r, n)) =>
              match process_done r n (set_pending p' st) with
              | (st', Some e) => (st', Some (Raised e))
              | (st', None) => run_batch b' st'
              end
          end
      end
  end.

(** [while pending] (lines 148-189). *)
Fixpoint event_loop (script : list batch) (st : state) : state * status :=
  match pending st with
  | [] => (st, Exited)
  | _ :: _ =>
      match script with
      | [] => (st, Waiting)
      | b :: script' =>
          match run_batch b (start_all st) with
          | (st', None) => event_loop script' st'
          | (st', Some s) => (st', s)
          end
      end
  end.

(** Lines 190-199: only the nodes reachable from the roots are kept. *)
Definition prune_unreachable (ind : list node) (g : dag) : dag :=
  let nodes_to_keep := ind ≫= (λ i, i :: all_downstreams g i) in
  foldl (λ g' x, if decide (x ∈ nodes_to_keep) then g'
                 else delete_node_if_exists g' x) g (nodes g).

(** The caller's [initial_inputs] mapping lives in this heap cell. *)
Definition INITIAL : loc := 0%nat.

(** Lines 129-146: the state when the loop is entered.  Every root task is
    created with the caller's mapping itself. *)
Definition seed (template : dag) (initial_inputs : payload) : state :=
  foldl (λ st r, emit (ODispatch r INITIAL)
                   (set_pending (pending st ++ [Created r INITIAL]) st))
    {| result_dict := ∅; runtime_graph := template; pending := [];
       heap := {[INITIAL := initial_inputs]}; log := [OPending true] |}
    (ind_nodes template).

(** [ServiceOrchestrator.schedule] on the graph [template] ([self.graph]),
    driven by a script of completions. *)
Definition schedule (template : dag) (initial_inputs : payload)
    (script : list batch) : state * status :=
  match event_loop script (seed template initial_inputs) with
  | (st, Exited) =>
      let st := set_graph (prune_unreachable (ind_nodes template)
                             (runtime_graph st)) st in
      let st := if stream_flag llm_parameters then st
                else emit (OPending false) st in
      (st, Returned)
  | other => other
  end.

End Engine.

End Engine.
Export Engine.

(** ** The stream stitcher *)

Module Stitcher.

(** What a stream yields: a chunk passed through as it came, or text. *)
Inductive event :=
| EvChunk (b : pybytes)
| EvText (s : pystr).

(** [hitted_ends = [".", "?", "!", "。", "，", "！"]] *)
Definition hitted_ends : list N := [46; 63; 33; 0x3002; 0xFF0C; 0xFF01].

Inductive outcome :=
| Finished            (* the generator is exhausted *)
| GenRaised (e : exn). (* an exception left the generator *)

(** The local variables of [generate], what it has yielded so far, the JSON
    bodies it has posted to the downstream node and the metric calls made. *)
Record gen_state := {
  buffered_chunk_str : pystr;
  is_first : bool;
  yielded : list event;
  posted : list payload;
  glog : list obs;
}.

Definition gen_init : gen_state :=
  {| buffered_chunk_str := []; is_first := true; yielded := [];
     posted := []; glog := [] |}.

Definition set_buffer (b : pystr) (gs : gen_state) : gen_state :=
  {| buffered_chunk_str := b; is_first := is_first gs;
     yielded := yielded gs; posted := posted gs; glog := glog gs |}.

Definition not_first (gs : gen_state) : gen_state :=
  {| buffered_chunk_str := buffered_chunk_str gs; is_first := false;
     yielded := yielded gs; posted := posted gs; glog := glog gs |}.

Definition yield (e : event) (gs : gen_state) : gen_state :=
  {| buffered_chunk_str := buffered_chunk_str gs; is_first := is_first gs;
     yielded := yielded gs ++ [e]; posted := posted gs; glog := glog gs |}.

Definition post (body : payload) (gs : gen_state) : gen_state :=
  {| buffered_chunk_str := buffered_chunk_str gs; is_first := is_first gs;
     yielded := yielded gs; posted := posted gs ++ [body]; glog := glog gs |}.

Definition observe (o : obs) (gs : gen_state) : gen_state :=
  {| buffered_chunk_str := buffered_chunk_str gs; is_first := is_first gs;
     yielded := yielded gs; posted := posted gs; glog := glog gs ++ [o] |}.

(** [for token in tokens] of [token_generator]. *)
Fixpoint token_events (tokens : list pystr) (first : bool) (gs : gen_state)
  : gen_state * option exn :=
  match tokens with
  | [] => (gs, None)
  | token :: rest =>
      let gs := observe (OToken first) gs in
      match frame token with
      | None => (gs, Some UnicodeEncodeError)
      | Some ev => token_events rest false (yield (EvText ev) gs)
      end
  end.

(** [ServiceOrchestrator.token_generator]; [re.findall] raises on a
    [sentence] that is not a string. *)
Definition token_generator (sentence : value) (first last : bool)
    (gs : gen_state) : gen_state * option exn :=
  match sentence with
  | VStr s =>
      match token_events (findall_tokens None s) first gs with
      | (gs, Some e) => (gs, Some e)
      | (gs, None) =>
          (if last then yield (EvText DONE_EVENT) gs else gs, None)
      end
  | _ => (gs, Some TypeError)
  end.

(** [(buffered_chunk_str and buffered_chunk_str[-1] in hitted_ends) or is_last] *)
Definition must_flush (buffered : pystr) (is_last : bool) : bool :=
  match last buffered with
  | Some c => bool_decide (c ∈ hitted_ends)
  | None => false
  end || is_last.

Section Generate.

(** The downstream service of the stitcher: the JSON object it replies to the
    [k]-th post, or [None] when the post or the parsing of the reply raises. *)
Variable reply_to : nat → payload → option payload.

(** [if downstream] in [generate]. *)
Variable forward : bool.

(** The body of [for chunk in ..] for one chunk (lines 306-347). *)
Definition generate_step (chunk : pybytes) (gs : gen_state)
  : gen_state * option exn :=
  match chunk with
  | [] => (gs, None)
  | _ :: _ =>
      if forward then
        match utf8_decode chunk with
        | None => (gs, Some UnicodeDecodeError)
        | Some chunk =>
            let gs := set_buffer (buffered_chunk_str gs
                                  ++ extract_chunk_str chunk) gs in
            let is_last := endswith (py "[DONE]" ++ [LF; LF]) chunk in
            if must_flush (buffered_chunk_str gs) is_last then
              let body : payload :=
                {[ py "text" := VStr (buffered_chunk_str gs) ]} in
              let k := length (posted gs) in
              let gs := post body gs in
              match reply_to k body with
              | None => (gs, Some TransportError)
              | Some res_json =>
                  match res_json !! py "text" with
                  | None => (gs, Some NotSupported)
                  | Some res_txt =>
                      match token_generator res_txt (is_first gs) is_last
                              (set_buffer [] gs) with
                      | (gs, Some e) => (gs, Some e)
                      | (gs, None) => (not_first gs, None)
                      end
                  end
              end
            else (gs, None)
        end
      else
        (yield (EvChunk chunk) (not_first (observe (OToken (is_first gs)) gs)),
         None)
  end.

(** [for chunk in self.wrap_iterable(response.iter_content(..))] *)
Fixpoint generate_loop (chunks : list pybytes) (gs : gen_state)
  : gen_state * option exn :=
  match chunks with
  | [] => (gs, None)
  | chunk :: rest =>
      match generate_step chunk gs with
      | (gs, Some e) => (gs, Some e)
      | (gs, None) => generate_loop rest gs
      end
  end.

(** The [generate] closure of [execute], run to its end by the consumer of
    the [StreamingResponse]. *)
Definition generate (up : upstream) : gen_state * outcome :=
  if up_ok up then
    match generate_loop (up_chunks up) gen_init with
    | (gs, Some e) => (gs, GenRaised e)
    | (gs, None) =>
        if up_clean up
        then (observe (OPending false) (observe ORequest gs), Finished)
        else (gs, GenRaised TransportError)
    end
  else (gen_init, Finished).

End Generate.

(** [fake_stream] of [schedule]: the first event is built by string
    concatenation, which raises when [text] is not a string. *)
Definition fake_stream (text : value) : gen_state * outcome :=
  match text with
  | VStr s =>
      (yield (EvText DONE_EVENT)
         (yield (EvText (py "data: b" ++ [SQUOTE] ++ s ++ [SQUOTE; LF; LF]))
            gen_init), Finished)
  | _ => (gen_init, GenRaised TypeError)
  end.

(** A [StreamingResponse] read to its end. *)
Definition consume (reply_to : nat → payload → option payload) (s : stream)
  : gen_state * outcome :=
  match s with
  | FakeStream text => fake_stream text
  | Generate up ds => generate reply_to (bool_decide (ds ≠ [])) up
  end.

End Stitcher.
Export Stitcher.

(** ** A matcher for a fragment of Python's regular expressions *)

Module MiniRe.

(** The fragment: ordinary characters, [.], postfix [*], [|] and groups.
    It stands for [re] only where the engine is run on concrete requests,
    whose patterns all lie in the fragment; the properties of the engine are
    proved for an arbitrary [re_findall].  A pattern that uses another
    operator ([+ ? [ ] { } ^ $ \]) is not in the fragment and is rejected by
    [compile], whatever Python does with it. *)
Inductive re :=
| Empty
| Eps
| Chr (c : N)
| Any
| Cat (a b : re)
| Alt (a b : re)
| Star (a : re).

Definition is_operator (c : N) : bool :=
  bool_decide (c ∈ [43; 63; 91; 93; 123; 125; 94; 36; 92]).

Fixpoint parse_alt (fuel : nat) (s : pystr) : option (re * pystr) :=
  match fuel with
  | O => None
  | S f =>
      '(a, s1) ← parse_cat f Eps s;
      match s1 with
      | 124 :: s2 => '(b, s3) ← parse_alt f s2; Some (Alt a b, s3)
      | _ => Some (a, s1)
      end
  end
with parse_cat (fuel : nat) (acc : re) (s : pystr) : option (re * pystr) :=
  match fuel with
  | O => None
  | S f =>
      match s with
      | [] => Some (acc, [])
      | 124 :: _ | 41 :: _ => Some (acc, s)
      | 42 :: _ => None
      | 40 :: s1 =>
          '(a, s2) ← parse_alt f s1;
          match s2 with
          | 41 :: s3 => parse_rep f acc a s3
          | _ => None
          end
      | 46 :: s1 => parse_rep f acc Any s1
      | c :: s1 => if is_operator c then None else parse_rep f acc (Chr c) s1
      end
  end
with parse_rep (fuel : nat) (acc a : re) (s : pystr) : option (re * pystr) :=
  match fuel with
  | O => None
  | S f =>
      match s with
      | 42 :: 42 :: _ => None
      | 42 :: s1 => parse_cat f (Cat acc (Star a)) s1
      | _ => parse_cat f (Cat acc a) s
      end
  end.

(** [re.compile]: [None] stands for [re.error] (an unbalanced parenthesis,
    nothing to repeat, a multiple repeat). *)
Definition compile (p : pystr) : option re :=
  match parse_alt (3 * length p + 3) p with
  | Some (r, []) => Some r
  | _ => None
  end.

Fixpoint nullable (r : re) : bool :=
  match r with
  | Empty | Chr _ | Any => false
  | Eps | Star _ => true
  | Cat a b => nullable a && nullable b
  | Alt a b => nullable a || nullable b
  end.

Fixpoint deriv (c : N) (r : re) : re :=
  match r with
  | Empty | Eps => Empty
  | Chr d => if c =? d then Eps else Empty
  | Any => if c =? LF then Empty else Eps
  | Cat a b =>
      Alt (Cat (deriv c a) b) (if nullable a then deriv c b else Empty)
  | Alt a b => Alt (deriv c a) (deriv c b)
  | Star a => Cat (deriv c a) (Star a)
  end.

(** Some prefix of [s] matches [r]. *)
Fixpoint match_prefix (r : re) (s : pystr) : bool :=
  nullable r ||
  match s with
  | [] => false
  | c :: s' => match_prefix (deriv c r) s'
  end.

(** [re.search]: a match starts somewhere in [s]. *)
Fixpoint search (r : re) (s : pystr) : bool :=
  match_prefix r s ||
  match s with
  | [] => false
  | _ :: s' => search r s'
  end.

(** [re.findall(p, s)] is a non-empty list exactly when [p] matches
    somewhere in [s]. *)
Definition mini_findall (p : pystr) (s : pystr) : option bool :=
  match compile p with
  | None => None
  | Some r => Some (search r s)
  end.

End MiniRe.
Export MiniRe.

(** ** Notions used to state the properties *)

Module Notions.

(** A printable ASCII character other than the backslash. *)
Definition plain (c : N) : Prop := 32 ≤ c ∧ c < 127 ∧ c ≠ BACKSLASH.

(** [g'] has no edge that [g] lacks. *)
Definition shrinks (g' g : dag) : Prop :=
  ∀ x, predecessors g' x ⊆ predecessors g x ∧ downstream g' x ⊆ downstream g x.

(** The nodes [execute] was called on, in call order. *)
Definition dispatched (lg : list obs) : list node :=
  omap (λ o, match o with ODispatch n _ => Some n | _ => None end) lg.

(** An event that is neither a recorded result nor a dispatch. *)
Definition quiet (o : obs) : Prop :=
  match o with ORecord _ _ | ODispatch _ _ => False | _ => True end.

(** The nodes of the tasks in flight. *)
Definition pnodes (st : state) : list node := task_node <$> pending st.

(** A result that [dict.update] accepts. *)
Definition dictlike (r : response) : Prop :=
  match r with Structured _ | AudioBytes [] => True | _ => False end.

(** Some pattern of the payload's black list compiles and matches [d]. *)
Definition pruned_by (re_findall : pystr → node → option bool)
    (m : payload) (d : node) : Prop :=
  ∃ v ps p, m !! py "downstream_black_list" = Some v
            ∧ iter_patterns v = Some ps ∧ p ∈ ps
            ∧ re_findall p d = Some true.

(** [k] calls of [logger.error]. *)
Definition log_errors (k : nat) (st : state) : state :=
  {| result_dict := result_dict st; runtime_graph := runtime_graph st;
     pending := pending st; heap := heap st;
     log := log st ++ replicate k OLogError |}.

(** What the pruning loops leave alone: the tasks and the heap; the log grows
    by quiet events and the graph only loses edges. *)
Definition same_but_graph (st' st : state) : Prop :=
  pending st' = pending st ∧ heap st' = heap st
  ∧ (∃ q, log st' = log st ++ q ∧ Forall quiet q)
  ∧ shrinks (runtime_graph st') (runtime_graph st)
  ∧ (dag_wf (runtime_graph st) → dag_wf (runtime_graph st')).

(** The pattern [p] does not remove the successor [d]. *)
Definition kept (re_findall : pystr → node → option bool)
    (p : pystr) (d : node) : Prop :=
  re_findall p d ≠ Some true.

#[global] Instance kept_dec re_findall p d : Decision (kept re_findall p d).
Proof. unfold kept. apply _. Defined.

(** The number of events of a log that satisfy a test. *)
Definition count_obs (f : obs → bool) (lg : list obs) : nat :=
  length (List.filter f lg).

Definition is_decrement (o : obs) : bool :=
  match o with OPending false => true | _ => false end.

Definition is_increment (o : obs) : bool :=
  match o with OPending true => true | _ => false end.

Definition is_log_error (o : obs) : bool :=
  match o with OLogError => true | _ => false end.

(** Every key of [result_dict] has its record event, and every dispatch of a
    node comes after the record events of the node's predecessors in the
    runtime graph, all of them keys of [result_dict]. *)
Definition ordered (st : state) : Prop :=
  (∀ u, is_Some (result_dict st !! u) →
        ∃ (j : nat) r, log st !! j = Some (ORecord u r))
  ∧ (∀ (k : nat) v l u,
       log st !! k = Some (ODispatch v l) →
       u ∈ predecessors (runtime_graph st) v →
       is_Some (result_dict st !! u)
       ∧ ∃ (j : nat) r, (j < k)%nat ∧ log st !! j = Some (ORecord u r)).

(** The pruning loops, whatever the graph: results keep their keys, the log
    grows by quiet events, the graph only loses edges. *)
Definition pruned_state (n : node) (st' st : state) : Prop :=
  (∀ u, u ≠ n → result_dict st' !! u = result_dict st !! u)
  ∧ (is_Some (result_dict st !! n) → is_Some (result_dict st' !! n))
  ∧ (is_Some (result_dict st' !! n) → is_Some (result_dict st !! n))
  ∧ shrinks (runtime_graph st') (runtime_graph st)
  ∧ ∃ q, log st' = log st ++ q ∧ Forall quiet q.

(** The invariant of the scheduling loop for a request on the template
    graph [T]. *)
Record Inv (re_findall : pystr → node → option bool) (T : dag) (st : state)
  : Prop := {
  inv_wf : dag_wf (runtime_graph st);
  inv_sub : shrinks (runtime_graph st) T;
  inv_nodup : NoDup (dispatched (log st));
  inv_pnodup : NoDup (pnodes st);
  inv_psub : pnodes st ⊆ dispatched (log st);
  inv_rec : ∀ n r, ORecord n r ∈ log st → is_streaming r = false →
            n ∈ dispatched (log st) ∧ n ∉ pnodes st;
  inv_rd : ∀ n r, result_dict st !! n = Some r → is_streaming r = false →
           ORecord n r ∈ log st;
  inv_ready : ∀ d i, d ∈ dispatched (log st) →
              i ∈ predecessors (runtime_graph st) d →
              i ∈ dispatched (log st) ∧ i ∉ pnodes st;
  inv_origin : ∀ d, d ∈ dispatched (log st) →
               d ∈ ind_nodes T
               ∨ ∃ n m, n ∈ predecessors T d
                        ∧ ORecord n (Structured m) ∈ log st
                        ∧ ¬ pruned_by re_findall m d;
  inv_once : ∀ n m m', ORecord n (Structured m) ∈ log st →
             ORecord n (Structured m') ∈ log st → m = m';
  inv_pruned : ∀ n m d, ORecord n (Structured m) ∈ log st →
               pruned_by re_findall m d →
               d ∉ downstream (runtime_graph st) n;
}.

End Notions.
Export Notions.

(** ** Concrete requests *)

Module Scenarios.

Definition plain_service (ty : ServiceType) : service :=
  {| service_type := ty; api_key_value := None |}.

Definition unary_params : LLMParams :=
  {| stream_flag := false; model := None; decoding := [] |}.

Definition streaming_params : LLMParams :=
  {| stream_flag := true; model := None; decoding := [] |}.

(** Fan-in: [A → C] and [B → C]. *)
Definition fan_in : dag :=
  [(py "A", [py "C"]); (py "B", [py "C"]); (py "C", [])].

Definition fan_in_services (n : node) : option service :=
  Some (plain_service EMBEDDING).

(** Both roots are found done by the same wait; [C] follows. *)
Definition fan_in_script : list batch :=
  [[(py "A", RJson {[py "a" := VNum 1]});
    (py "B", RJson {[py "b" := VNum 2]})];
   [(py "C", RJson {[py "c" := VNum 3]})]].

(** A guardrail [G] in front of [X] and [Y]. *)
Definition guarded : dag :=
  [(py "G", [py "X"; py "Y"]); (py "X", []); (py "Y", [])].

Definition guarded_services (n : node) : option service :=
  Some (plain_service (if decide (n = py "G") then GUARDRAIL else LLM)).

Definition veto (patterns : list pystr) : payload :=
  {[ py "downstream_black_list" := VList patterns;
     py "text" := VStr (py "ok") ]}.

(** A single node [N] without successors. *)
Definition single : dag := [(py "N", [])].

(** Two roots without successors: an LLM and an embedder. *)
Definition two_roots : dag :=
  [(py "LLM", []); (py "EMB", [])].

Definition two_roots_services (n : node) : option service :=
  Some (plain_service (if decide (n = py "LLM") then LLM else EMBEDDING)).

(** The bytes of an ASCII string. *)
Definition ascii_bytes (s : pystr) : pybytes := byte_of_N <$> s.

(** The upstream events of five tokens and the terminator, one per chunk. *)
Definition five_tokens : upstream :=
  {| up_ok := true;
     up_chunks :=
       ((λ t, ascii_bytes (py "data: b" ++ [SQUOTE] ++ t ++ [SQUOTE; LF; LF]))
          <$> [py "Hi"; py " there"; py "."; py " How"; py "?"])
       ++ [ascii_bytes DONE_EVENT];
     up_clean := true |}.

(** A downstream service that replies with the text it was sent. *)
Definition echo (k : nat) (body : payload) : option payload := Some body.

(** A downstream service whose reply has no [text] key. *)
Definition no_text (k : nat) (body : payload) : option payload := Some ∅.

Definition one_sentence : upstream :=
  {| up_ok := true;
     up_chunks := [ascii_bytes (py "data: b" ++ [SQUOTE] ++ py "Hi."
                                ++ [SQUOTE; LF; LF])];
     up_clean := true |}.

End Scenarios.
Export Scenarios.

(** ** The final outputs of a request *)

Module Final.

(** [for leaf in runtime_graph.all_leaves(): final_output_dict[leaf] =
    result_dict[leaf]] *)
Fixpoint final_outputs_from (final_output_dict : gmap node response)
    (leaves : list node) (result_dict : gmap node response)
  : exn + gmap node response :=
  match leaves with
  | [] => inr final_output_dict
  | leaf :: rest =>
      match result_dict !! leaf with
      | None => inl KeyError
      | Some r =>
          final_outputs_from (<[leaf := r]> final_output_dict) rest result_dict
      end
  end.

(** [ServiceOrchestrator.get_all_final_outputs] *)
Definition get_all_final_outputs (result_dict : gmap node response)
    (runtime_graph : dag) : exn + gmap node response :=
  final_outputs_from ∅ (all_leaves runtime_graph) result_dict.

End Final.
Export Final.

(** ** Building the orchestrator *)

Module Builder.

(** The orchestrator object: [self.services] and the graph it inherits from
    [DAG]. *)
Record orchestrator := {
  services : gmap node service;
  graph : dag;
}.

(** [ServiceOrchestrator.__init__] *)
Definition init : orchestrator := {| services := ∅; graph := [] |}.

(** Modelled from the spec: [add_node_if_not_exists(name)], an idempotent
    insertion that is a no-op if the node is present. *)
Definition add_node_if_not_exists (g : dag) (name : node) : dag :=
  if decide (name ∈ nodes g) then g else g ++ [(name, [])].

(** [ServiceOrchestrator.add], for a service descriptor with the given name;
    [None]: [Exception("Service ... already exists!")]. *)
Definition add (name : node) (svc : service) (o : orchestrator)
  : option orchestrator :=
  if decide (is_Some (services o !! name)) then None
  else Some {| services := <[name := svc]> (services o);
               graph := add_node_if_not_exists (graph o) name |}.

(** [self.add(s1).add(s2)...]: [add] returns the orchestrator itself. *)
Fixpoint add_all (l : list (node * service)) (o : orchestrator)
  : option orchestrator :=
  match l with
  | [] => Some o
  | (name, svc) :: rest => o' ← add name svc o; add_all rest o'
  end.

(** What [add] keeps: the registered names are the nodes of the graph, in
    order of registration, and the graph has no edge. *)
Definition registry_ok (o : orchestrator) : Prop :=
  NoDup (nodes (graph o))
  ∧ (∀ n, is_Some (services o !! n) ↔ n ∈ nodes (graph o))
  ∧ Forall (λ kv, kv.2 = []) (graph o).

End Builder.

(** ** OrchestratorMetrics *)

Module Metrics.

(** What can go wrong in the metrics object: a name registered twice with
    the Prometheus registry, a metric attribute that is still [None], an
    update attribute still bound to its [_create] method after creation. *)
Inductive merr :=
| ValueError
| AttributeError
| RecursionError.

(** The function an update attribute is bound to. *)
Inductive method := Create | Real.

Definition FIRST_TOKEN_LATENCY : pystr := py "megaservice_first_token_latency".
Definition INTER_TOKEN_LATENCY : pystr := py "megaservice_inter_token_latency".
Definition REQUEST_LATENCY : pystr := py "megaservice_request_latency".
Definition REQUEST_PENDING : pystr := py "megaservice_request_pending".

(** The [OrchestratorMetrics] object and the process-wide Prometheus
    registry.  A histogram is the list of its observations, the gauge is its
    value; clock readings are integers. *)
Record metrics := {
  first_token_latency : option (list Z);
  inter_token_latency : option (list Z);
  request_latency : option (list Z);
  request_pending : option Z;
  token_update : method;
  request_update : method;
  pending_update : method;
  registry : list pystr;
}.

(** [OrchestratorMetrics.__init__] with an empty registry. *)
Definition init : metrics :=
  {| first_token_latency := None; inter_token_latency := None;
     request_latency := None; request_pending := None;
     token_update := Create; request_update := Create;
     pending_update := Create; registry := [] |}.

(** [Histogram(name, ..)] and [Gauge(name, ..)] register the name; a name
    already registered raises. *)
Definition register (name : pystr) (m : metrics) : merr + metrics :=
  if decide (name ∈ registry m) then inl ValueError
  else inr {| first_token_latency := first_token_latency m;
              inter_token_latency := inter_token_latency m;
              request_latency := request_latency m;
              request_pending := request_pending m;
              token_update := token_update m;
              request_update := request_update m;
              pending_update := pending_update m;
              registry := registry m ++ [name] |}.

Definition set_first_token_latency (h : option (list Z)) (m : metrics) :=
  {| first_token_latency := h;
     inter_token_latency := inter_token_latency m;
     request_latency := request_latency m;
     request_pending := request_pending m;
     token_update := token_update m; request_update := request_update m;
     pending_update := pending_update m; registry := registry m |}.

Definition set_inter_token_latency (h : option (list Z)) (m : metrics) :=
  {| first_token_latency := first_token_latency m;
     inter_token_latency := h;
     request_latency := request_latency m;
     request_pending := request_pending m;
     token_update := token_update m; request_update := request_update m;
     pending_update := pending_update m; registry := registry m |}.

Definition set_request_latency (h : option (list Z)) (m : metrics) :=
  {| first_token_latency := first_token_latency m;
     inter_token_latency := inter_token_latency m;
     request_latency := h;
     request_pending := request_pending m;
     token_update := token_update m; request_update := request_update m;
     pending_update := pending_update m; registry := registry m |}.

Definition set_request_pending (v : option Z) (m : metrics) :=
  {| first_token_latency := first_token_latency m;
     inter_token_latency := inter_token_latency m;
     request_latency := request_latency m;
     request_pending := v;
     token_update := token_update m; request_update := request_update m;
     pending_update := pending_update m; registry := registry m |}.

Definition set_token_update (f : method) (m : metrics) :=
  {| first_token_latency := first_token_latency m;
     inter_token_latency := inter_token_latency m;
     request_latency := request_latency m;
     request_pending := request_pending m;
     token_update := f; request_update := request_update m;
     pending_update := pending_update m; registry := registry m |}.

Definition set_request_update (f : method) (m : metrics) :=
  {| first_token_latency := first_token_latency m;
     inter_token_latency := inter_token_latency m;
     request_latency := request_latency m;
     request_pending := request_pending m;
     token_update := token_update m; request_update := f;
     pending_update := pending_update m; registry := registry m |}.

Definition set_pending_update (f : method) (m : metrics) :=
  {| first_token_latency := first_token_latency m;
     inter_token_latency := inter_token_latency m;
     request_latency := request_latency m;
     request_pending := request_pending m;
     token_update := token_update m; request_update := request_update m;
     pending_update := f; registry := registry m |}.

(** [_token_update_real], when the clock reads [now]. *)
Definition _token_update_real (now token_start : Z) (is_first : bool)
    (m : metrics) : merr + metrics * Z :=
  if is_first then
    match first_token_latency m with
    | None => inl AttributeError
    | Some h =>
        inr (set_first_token_latency (Some (h ++ [now - token_start]%Z)) m,
             now)
    end
  else
    match inter_token_latency m with
    | None => inl AttributeError
    | Some h =>
        inr (set_inter_token_latency (Some (h ++ [now - token_start]%Z)) m,
             now)
    end.

(** [_request_update_real] *)
Definition _request_update_real (now req_start : Z) (m : metrics)
  : merr + metrics :=
  match request_latency m with
  | None => inl AttributeError
  | Some h => inr (set_request_latency (Some (h ++ [now - req_start]%Z)) m)
  end.

(** [_pending_update_real] *)
Definition _pending_update_real (increase : bool) (m : metrics)
  : merr + metrics :=
  match request_pending m with
  | None => inl AttributeError
  | Some v =>
      inr (set_request_pending
             (Some (if increase then v + 1 else v - 1)%Z) m)
  end.

(** [_token_update_create] run without interruption: the block under the
    lock, then the call through the attribute, which calls [_create] again
    only if the attribute is still bound to it. *)
Definition _token_update_create (now token_start : Z) (is_first : bool)
    (m : metrics) : merr + metrics * Z :=
  match
    (if token_update m is Create then
       match register FIRST_TOKEN_LATENCY m with
       | inl e => inl e
       | inr m =>
           let m := set_first_token_latency (Some []) m in
           match register INTER_TOKEN_LATENCY m with
           | inl e => inl e
           | inr m =>
               inr (set_token_update Real
                      (set_inter_token_latency (Some []) m))
           end
       end
     else inr m)
  with
  | inl e => inl e
  | inr m =>
      match token_update m with
      | Real => _token_update_real now token_start is_first m
      | Create => inl RecursionError
      end
  end.

Definition _request_update_create (now req_start : Z) (m : metrics)
  : merr + metrics :=
  match
    (if request_update m is Create then
       match register REQUEST_LATENCY m with
       | inl e => inl e
       | inr m =>
           inr (set_request_update Real (set_request_latency (Some []) m))
       end
     else inr m)
  with
  | inl e => inl e
  | inr m =>
      match request_update m with
      | Real => _request_update_real now req_start m
      | Create => inl RecursionError
      end
  end.

Definition _pending_update_create (increase : bool) (m : metrics)
  : merr + metrics :=
  match
    (if pending_update m is Create then
       match register REQUEST_PENDING m with
       | inl e => inl e
       | inr m =>
           inr (set_pending_update Real (set_request_pending (Some 0%Z) m))
       end
     else inr m)
  with
  | inl e => inl e
  | inr m =>
      match pending_update m with
      | Real => _pending_update_real increase m
      | Create => inl RecursionError
      end
  end.

(** A call through one of the three update attributes, with the clock
    reading at the time of the observation. *)
Inductive call :=
| TokenUpdate (now token_start : Z) (is_first : bool)
| RequestUpdate (now req_start : Z)
| PendingUpdate (increase : bool).

(** [self.metrics.token_update(..)] and the like: the call goes to the
    method the attribute is bound to. *)
Definition update (c : call) (m : metrics) : merr + metrics :=
  match c with
  | TokenUpdate now token_start is_first =>
      match
        match token_update m with
        | Create => _token_update_create now token_start is_first m
        | Real => _token_update_real now token_start is_first m
        end
      with
      | inl e => inl e
      | inr (m, _) => inr m
      end
  | RequestUpdate now req_start =>
      match request_update m with
      | Create => _request_update_create now req_start m
      | Real => _request_update_real now req_start m
      end
  | PendingUpdate increase =>
      match pending_update m with
      | Create => _pending_update_create increase m
      | Real => _pending_update_real increase m
      end
  end.

(** A sequence of calls made one after the other. *)
Fixpoint updates (cs : list call) (m : metrics) : merr + metrics :=
  match cs with
  | [] => inr m
  | c :: rest =>
      match update c m with
      | inl e => inl e
      | inr m => updates rest m
      end
  end.

(** The observations the calls [cs] make into each metric. *)
Definition first_token_observations (cs : list call) : list Z :=
  omap (λ c, match c with
             | TokenUpdate now t true => Some (now - t)%Z
             | _ => None
             end) cs.

Definition inter_token_observations (cs : list call) : list Z :=
  omap (λ c, match c with
             | TokenUpdate now t false => Some (now - t)%Z
             | _ => None
             end) cs.

Definition request_observations (cs : list call) : list Z :=
  omap (λ c, match c with
             | RequestUpdate now t => Some (now - t)%Z
             | _ => None
             end) cs.

Definition pending_value (cs : list call) : Z :=
  foldl (λ v c, match c with
                | PendingUpdate true => v + 1
                | PendingUpdate false => v - 1
                | _ => v
                end)%Z 0%Z cs.

Definition is_token (c : call) : bool :=
  match c with TokenUpdate _ _ _ => true | _ => false end.
Definition is_request (c : call) : bool :=
  match c with RequestUpdate _ _ => true | _ => false end.
Definition is_pending (c : call) : bool :=
  match c with PendingUpdate _ => true | _ => false end.

(** The metrics object reflects the calls [cs]: a metric exists, and its
    name is registered, exactly when a call to its update has been made, and
    it then holds what these calls observed. *)
Definition reflects (cs : list call) (m : metrics) : Prop :=
  let tok := existsb is_token cs in
  let req := existsb is_request cs in
  let pen := existsb is_pending cs in
  first_token_latency m
  = (if tok then Some (first_token_observations cs) else None)
  ∧ inter_token_latency m
    = (if tok then Some (inter_token_observations cs) else None)
  ∧ request_latency m = (if req then Some (request_observations cs) else None)
  ∧ request_pending m = (if pen then Some (pending_value cs) else None)
  ∧ token_update m = (if tok then Real else Create)
  ∧ request_update m = (if req then Real else Create)
  ∧ pending_update m = (if pen then Real else Create)
  ∧ NoDup (registry m)
  ∧ ∀ name, name ∈ registry m
            ↔ (tok = true ∧ (name = FIRST_TOKEN_LATENCY
                             ∨ name = INTER_TOKEN_LATENCY))
              ∨ (req = true ∧ name = REQUEST_LATENCY)
              ∨ (pen = true ∧ name = REQUEST_PENDING).

End Metrics.

(** ** Threads that share the metrics object *)

(** Python threads that call the update attributes of the one metrics
    object.  A step of a thread is one read of an update attribute, the
    taking or the release of [self._lock], one statement of the block under
    the lock, or one run of a [_real] method (an observation is atomic in the
    metrics library); the scheduler may pick any thread at any step. *)

Module Threads.

Import Metrics.

(** The three update attributes. *)
Inductive family := Token | Request | Pending.

#[global] Instance family_eq_dec : EqDecision family.
Proof. solve_decision. Defined.

Definition family_of (c : call) : family :=
  match c with
  | TokenUpdate _ _ _ => Token
  | RequestUpdate _ _ => Request
  | PendingUpdate _ => Pending
  end.

(** The method the attribute of a family is bound to. *)
Definition bound (f : family) (m : metrics) : method :=
  match f with
  | Token => token_update m
  | Request => request_update m
  | Pending => pending_update m
  end.

(** The statements of a [_create] method under [if self.x_update ==
    self._x_update_create], one step each: a metric constructor registers the
    name, the assignment stores the new metric, the last assignment rebinds
    the update attribute.  [None]: the block is finished. *)
Definition create_stmt (f : family) (k : nat) (m : metrics)
  : option (merr + metrics) :=
  match f, k with
  | Token, 0%nat => Some (register FIRST_TOKEN_LATENCY m)
  | Token, 1%nat => Some (inr (set_first_token_latency (Some []) m))
  | Token, 2%nat => Some (register INTER_TOKEN_LATENCY m)
  | Token, 3%nat => Some (inr (set_inter_token_latency (Some []) m))
  | Token, 4%nat => Some (inr (set_token_update Real m))
  | Request, 0%nat => Some (register REQUEST_LATENCY m)
  | Request, 1%nat => Some (inr (set_request_latency (Some []) m))
  | Request, 2%nat => Some (inr (set_request_update Real m))
  | Pending, 0%nat => Some (register REQUEST_PENDING m)
  | Pending, 1%nat => Some (inr (set_request_pending (Some 0%Z) m))
  | Pending, 2%nat => Some (inr (set_pending_update Real m))
  | _, _ => None
  end.

(** The [_real] method of a call. *)
Definition real (c : call) (m : metrics) : merr + metrics :=
  match c with
  | TokenUpdate now token_start is_first =>
      match _token_update_real now token_start is_first m with
      | inl e => inl e
      | inr (m, _) => inr m
      end
  | RequestUpdate now req_start => _request_update_real now req_start m
  | PendingUpdate increase => _pending_update_real increase m
  end.

(** Where a thread is in the call it is making. *)
Inductive pc :=
| Lookup      (* about to read the update attribute *)
| Enter       (* in [_create], at [with self._lock] *)
| Check       (* holds the lock, at the test of the attribute *)
| Make (k : nat) (* holds the lock, at statement [k] of the creation *)
| Release     (* holds the lock, leaving the [with] block *)
| Recall      (* at the call through the attribute that ends [_create] *)
| Run.        (* in [_real] *)

(** A thread: the call it is making and the calls it will make next, or
    finished, or stopped by an exception. *)
Inductive thread :=
| Running (c : call) (rest : list call) (at_pc : pc)
| Finished
| Crashed (e : merr).

Definition start (cs : list call) : thread :=
  match cs with
  | [] => Finished
  | c :: rest => Running c rest Lookup
  end.

(** The metrics object, the holder of [self._lock], the threads, and the
    calls whose [_real] method has run, in the order they ran. *)
Record system := {
  shared : metrics;
  lock : option nat;
  threads : list thread;
  history : list call;
}.

Definition set_thread (i : nat) (t : thread) (s : system) : system :=
  {| shared := shared s; lock := lock s;
     threads := <[i := t]> (threads s); history := history s |}.

Definition set_shared (m : metrics) (s : system) : system :=
  {| shared := m; lock := lock s; threads := threads s;
     history := history s |}.

Definition set_lock (l : option nat) (s : system) : system :=
  {| shared := shared s; lock := l; threads := threads s;
     history := history s |}.

Definition record_call (c : call) (s : system) : system :=
  {| shared := shared s; lock := lock s; threads := threads s;
     history := history s ++ [c] |}.

(** One step of thread [i]; a thread that waits for the lock, has finished
    or has stopped does not move. *)
Definition step (i : nat) (s : system) : system :=
  match threads s !! i with
  | Some (Running c rest at_pc) =>
      let f := family_of c in
      let goto p := set_thread i (Running c rest p) s in
      match at_pc with
      | Lookup =>
          goto (if bound f (shared s) is Create then Enter else Run)
      | Enter =>
          match lock s with
          | None => set_lock (Some i) (goto Check)
          | Some _ => s
          end
      | Check =>
          goto (if bound f (shared s) is Create then Make 0 else Release)
      | Make k =>
          match create_stmt f k (shared s) with
          | None => goto Release
          | Some (inl e) => set_lock None (set_thread i (Crashed e) s)
          | Some (inr m) => set_shared m (goto (Make (S k)))
          end
      | Release => set_lock None (goto Recall)
      | Recall =>
          goto (if bound f (shared s) is Create then Enter else Run)
      | Run =>
          match real c (shared s) with
          | inl e => set_thread i (Crashed e) s
          | inr m => record_call c (set_shared m (set_thread i (start rest) s))
          end
      end
  | _ => s
  end.

(** The threads run as the scheduler says. *)
Definition run (sched : list nat) (s : system) : system :=
  foldl (λ s i, step i s) s sched.

(** Threads that start together on a new metrics object, each with the
    calls it is going to make. *)
Definition boot (work : list (list call)) : system :=
  {| shared := init; lock := None; threads := start <$> work;
     history := [] |}.

(** The thread is inside the [with self._lock] block. *)
Definition in_block (t : thread) : Prop :=
  match t with
  | Running _ _ (Check | Make _ | Release) => True
  | _ => False
  end.

(** The number of creation statements of a family. *)
Definition stmts (f : family) : nat :=
  match f with Token => 5%nat | _ => 3%nat end.

(** The thread that holds the lock. *)
Definition holder (s : system) : option thread :=
  i ← lock s; threads s !! i.

(** How many creation statements of a family the thread [t] has executed
    in the block it is in. *)
Definition statements_done (f : family) (t : option thread) : nat :=
  match t with
  | Some (Running c _ (Make k)) =>
      if decide (family_of c = f) then k else 0%nat
  | _ => 0%nat
  end.

(** How many creation statements of a family have been executed. *)
Definition progress (f : family) (s : system) : nat :=
  match bound f (shared s) with
  | Real => stmts f
  | Create => statements_done f (holder s)
  end.

Definition crashed (t : thread) : Prop :=
  match t with Crashed _ => True | _ => False end.

(** The invariant of the threads. *)
Record safe (s : system) : Prop := {
  safe_lock : ∀ i t, threads s !! i = Some t → in_block t → lock s = Some i;
  safe_holder : ∀ i, lock s = Some i →
                ∃ t, threads s !! i = Some t ∧ in_block t;
  safe_make : ∀ i c rest k,
      threads s !! i = Some (Running c rest (Make k)) →
      (k ≤ stmts (family_of c))%nat
      ∧ (bound (family_of c) (shared s) = Real ↔ k = stmts (family_of c));
  safe_after : ∀ i c rest p,
      threads s !! i = Some (Running c rest p) →
      p = Release ∨ p = Recall ∨ p = Run →
      bound (family_of c) (shared s) = Real;
  safe_history : ∀ c, c ∈ history s →
      bound (family_of c) (shared s) = Real;
  safe_crash : ∀ i t, threads s !! i = Some t → ¬ crashed t;
  safe_nodup : NoDup (registry (shared s));
  safe_registry : ∀ name, name ∈ registry (shared s) ↔
      (name = FIRST_TOKEN_LATENCY ∧ (1 ≤ progress Token s)%nat)
      ∨ (name = INTER_TOKEN_LATENCY ∧ (3 ≤ progress Token s)%nat)
      ∨ (name = REQUEST_LATENCY ∧ (1 ≤ progress Request s)%nat)
      ∨ (name = REQUEST_PENDING ∧ (1 ≤ progress Pending s)%nat);
  safe_first : first_token_latency (shared s)
      = if decide (2 ≤ progress Token s)%nat
        then Some (first_token_observations (history s)) else None;
  safe_inter : inter_token_latency (shared s)
      = if decide (4 ≤ progress Token s)%nat
        then Some (inter_token_observations (history s)) else None;
  safe_request : request_latency (shared s)
      = if decide (2 ≤ progress Request s)%nat
        then Some (request_observations (history s)) else None;
  safe_pending : request_pending (shared s)
      = if decide (2 ≤ progress Pending s)%nat
        then Some (pending_value (history s)) else None;
}.

(** The calls a thread has still to complete. *)
Definition remaining (t : thread) : list call :=
  match t with
  | Running c rest _ => c :: rest
  | _ => []
  end.



End Threads.

(** ** The LlamaGuard guardrail *)

Module LlamaGuard.




(** [s.split(sep)] for a separator of one character: the pieces between the
    occurrences of the separator; [cur] is the piece being read. *)
Fixpoint split_from (sep : N) (cur : pystr) (s : pystr) : list pystr :=
  match s with
  | [] => [cur]
  | c :: rest =>
      if c =? sep then cur :: split_from sep [] rest
      else split_from sep (cur ++ [c]) rest
  end.

Definition split (sep : N) (s : pystr) : list pystr := split_from sep [] s.



(** The documents [invoke] takes and returns; [downstream_black_list] is
    [None] when the constructor is not given one. *)
Inductive input_doc :=
| GeneratedDoc (prompt text : pystr)
| TextDocIn (text : pystr).



(** A chat message: role and content. *)
Definition message := (pystr * pystr)%type.

(** The [messages] that [invoke] sends to the engine. *)
Definition messages (input : input_doc) : list message :=
  match input with
  | GeneratedDoc prompt t => [(py "user", prompt); (py "assistant", t)]
  | TextDocIn t => [(py "user", t)]
  end.


Section Guard.

(** [self.model_name] *)
Variable model_name : pystr.

(** [self.llm_engine_hf.invoke(messages).content]; [None] when the call
    raises. *)
Variable llm_engine_hf : list message → option pystr.


(** [OpeaGuardrailsLlamaGuard.check_health], for an engine that is set. *)
Definition check_health : bool :=
  match llm_engine_hf [(py "user", py "The sky is blue.")] with
  | None => false
  | Some response => contains (py "safe") response
  end.

End Guard.

End LlamaGuard.

(** ** Notions for the further properties *)

Module MoreNotions.

(** An event the scheduling loop itself can log: an error message, a request,
    a recorded result or a dispatch, but no metric call. *)
Definition loop_event (o : obs) : Prop :=
  match o with
  | OLogError | OPost _ _ | ORecord _ _ | ODispatch _ _ => True
  | _ => False
  end.

(** What the scheduling loop does to the state of a request: the runtime
    graph only loses edges, no result is dropped, and the log grows by loop
    events. *)
Definition loop_step (st' st : state) : Prop :=
  shrinks (runtime_graph st') (runtime_graph st)
  ∧ (∀ u, is_Some (result_dict st !! u) → is_Some (result_dict st' !! u))
  ∧ ∃ q, log st' = log st ++ q ∧ Forall loop_event q.

(** The mapping [dict.update] merges for a result it accepts: an empty
    [bytes] contributes nothing. *)
Definition as_dict (r : response) : payload :=
  match r with Structured m => m | _ => ∅ end.

(** [p] is the last of the nodes [prev] whose result has the key [k], and
    the result gives it the value [v]. *)
Definition last_writer (rd : gmap node response) (prev : list node)
    (k : pystr) (v : value) : Prop :=
  ∃ l1 p l2 r, prev = l1 ++ p :: l2 ∧ rd !! p = Some r
               ∧ as_dict r !! k = Some v
               ∧ ∀ q r', q ∈ l2 → rd !! q = Some r' → as_dict r' !! k = None.

(** A call of [metrics.token_update]. *)
Definition token_event (o : obs) : Prop :=
  match o with OToken _ => True | _ => False end.

(** The metric calls of a stream that yields [k] events: only the first one
    is flagged as first token. *)
Definition token_updates (first : bool) (k : nat) : list obs :=
  match k with
  | O => []
  | S k' => OToken first :: replicate k' (OToken false)
  end.

(** A server-sent event: [data: <body>] closed by an empty line. *)
Definition sse_event (e : event) : Prop :=
  ∃ body, e = EvText (py "data: " ++ body ++ [LF; LF]).

Definition is_done (e : event) : bool :=
  match e with EvText s => str_eqb s DONE_EVENT | EvChunk _ => false end.

(** The text a posted body carries. *)
Definition posted_text (p : payload) : pystr :=
  match p !! py "text" with Some (VStr s) => s | _ => [] end.

(** What an upstream chunk adds to the buffer, and whether it is the last
    one. *)
Definition chunk_text (chunk : pybytes) : pystr :=
  match utf8_decode chunk with Some c => extract_chunk_str c | None => [] end.

Definition ends_done (chunk : pybytes) : bool :=
  match utf8_decode chunk with
  | Some c => endswith (py "[DONE]" ++ [LF; LF]) c
  | None => false
  end.

(** What a part of [generate] adds to the events yielded and to the metric
    calls made. *)
Definition emits (gs' gs : gen_state) (evs : list event) (q : list obs)
  : Prop :=
  yielded gs' = yielded gs ++ evs ∧ glog gs' = glog gs ++ q.

(** A token matched by [\s?\S+\s?]: an optional white-space character, a
    non-empty run of other characters, an optional white-space character. *)
Definition token_shape (t : pystr) : Prop :=
  ∃ pre body post,
    t = pre ++ body ++ post ∧ body ≠ []
    ∧ Forall (λ c, is_space c = false) body
    ∧ (length pre ≤ 1)%nat ∧ Forall (λ c, is_space c = true) pre
    ∧ (length post ≤ 1)%nat ∧ Forall (λ c, is_space c = true) post.

(** The part of a token read so far, before the text [s] still to read. *)
Definition open_shape (t s : pystr) : Prop :=
  ∃ pre body,
    t = pre ++ body
    ∧ (length pre ≤ 1)%nat ∧ Forall (λ c, is_space c = true) pre
    ∧ Forall (λ c, is_space c = false) body
    ∧ (body = [] → ∃ c rest, s = c :: rest ∧ is_space c = false).

(** The pieces of a token of printable text: a character, a line feed, or
    the two characters of the escape [\n]. *)
Inductive piece :=
| Plain (c : N)
| Newline
| Escaped.

(** A piece as the token has it, as the encoded bytes have it, and as
    [extract_chunk_str] gives it back. *)
Definition written (p : piece) : pystr :=
  match p with
  | Plain c => [c]
  | Newline => [LF]
  | Escaped => [BACKSLASH; 110]
  end.

Definition encoded (p : piece) : pystr :=
  match p with Plain c => [c] | _ => [LF] end.

Definition read_back (p : piece) : pystr :=
  match p with Plain c => [c] | _ => [BACKSLASH; 110] end.

Definition piece_ok (p : piece) : Prop :=
  match p with Plain c => plain c | _ => True end.

(** A reply that carries no black list. *)
Definition no_black_list (rp : reply) : Prop :=
  match rp with
  | RJson m => m !! py "downstream_black_list" = None
  | _ => True
  end.

(** No completion of the script carries a black list. *)
Definition plain_script (script : list batch) : Prop :=
  Forall (Forall (λ cr : node * reply, no_black_list cr.2)) script.

(** A numbering of the nodes that grows along every edge: the graph has no
    cycle. *)
Definition topological (g : dag) (rank : node → nat) : Prop :=
  ∀ p d, p ∈ predecessors g d → (rank p < rank d)%nat.

(** The bookkeeping of a unary request whose replies carry no black list:
    the graph is still the template, a dispatched node is in flight or has
    its result, the roots and every node whose predecessors all have their
    results are dispatched, every result is a mapping, and no task holds a
    stream. *)
Record live (T : dag) (st : state) : Prop := {
  live_graph : runtime_graph st = T;
  live_done : ∀ d, d ∈ dispatched (log st) →
                d ∈ pnodes st ∨ is_Some (result_dict st !! d);
  live_roots : ∀ r, r ∈ ind_nodes T → r ∈ dispatched (log st);
  live_ready : ∀ d p, p ∈ predecessors T d →
                 (∀ q, q ∈ predecessors T d → is_Some (result_dict st !! q)) →
                 d ∈ dispatched (log st);
  live_struct : ∀ n r, result_dict st !! n = Some r → ∃ m, r = Structured m;
  live_tasks : ∀ t, t ∈ pending st →
                 match t with Streamed _ _ => False | _ => True end;
}.

End MoreNotions.
Export MoreNotions.

(** ** Further scenarios *)

Module MoreScenarios.

(** The results of two predecessors that both carry a [text]. *)
Definition two_texts : gmap node response :=
  {[ py "A" := Structured {[ py "text" := VStr (py "a") ]};
     py "B" := Structured {[ py "text" := VStr (py "b") ]} ]}.


(** A service that carries a bearer credential. *)
Definition keyed_service (ty : ServiceType) : service :=
  {| service_type := ty; api_key_value := Some (py "key") |}.

Definition keyed_services (n : node) : option service :=
  Some (keyed_service EMBEDDING).

(** An upstream of two chunks with an empty chunk between them. *)
Definition two_chunks : upstream :=
  {| up_ok := true;
     up_chunks := [ascii_bytes (py "ab"); []; ascii_bytes (py "c")];
     up_clean := true |}.

(** Two threads that touch the gauge at the same time. *)
Definition two_threads : list (list Metrics.call) :=
  [[Metrics.PendingUpdate true];
   [Metrics.PendingUpdate true; Metrics.PendingUpdate false]].


(** An engine that finds everything in category [O3]. *)
Definition strict_engine (messages : list LlamaGuard.message)
  : option pystr :=
  Some (py "unsafe" ++ [LF] ++ py "O3").

(** The rank of the fan-in graph: the roots first. *)
Definition fan_in_rank (n : node) : nat :=
  if decide (n = py "C") then 1%nat else 0%nat.

End MoreScenarios.
Export MoreScenarios.

(** * Properties *)

#[local] Set Warnings "-clear-no-such-hyp".

(** ** Strings and framing *)

Section FramingFacts.

Lemma to_N_byte_of_N (c : N) : c < 256 → Byte.to_N (byte_of_N c) = c.
Proof.
  intros Hc. unfold byte_of_N. rewrite N.mod_small by done.
  destruct (Byte.of_N c) as [b|] eqn:E.
  - simpl. by apply Byte.to_of_N.
  - apply Byte.of_N_None_iff in E. lia.
Qed.

Lemma startswith_app (p s : pystr) : startswith p (p ++ s) = true.
Proof. induction p as [|a p IH]; simpl; [done|]. by rewrite N.eqb_refl. Qed.

Lemma endswith_app (p s : pystr) : endswith p (s ++ p) = true.
Proof. unfold endswith. rewrite reverse_app. apply startswith_app. Qed.

Lemma replace_no_backslash (t : pystr) :
  Forall (λ c, c ≠ BACKSLASH) t → replace [BACKSLASH; 110] [LF] t = t.
Proof.
  unfold replace. induction 1 as [|c t Hc _ IH]; [done|].
  cbn [replace_from startswith].
  destruct (N.eqb_spec BACKSLASH c) as [E|_]; [by symmetry in E|].
  cbn [andb]. by rewrite IH.
Qed.

Lemma utf8_encode_ascii (t : pystr) :
  Forall (λ c, c < 128) t → utf8_encode t = Some (byte_of_N <$> t).
Proof.
  induction 1 as [|c t Hc _ IH]; simpl; [done|].
  unfold utf8_encode_char. destruct (N.ltb_spec c 128); [|lia].
  by rewrite IH.
Qed.

Lemma existsb_bytes (q : N) (t : pystr) :
  Forall (λ c, c < 128) t →
  existsb (λ x, Byte.to_N x =? q) (byte_of_N <$> t) = bool_decide (q ∈ t).
Proof.
  induction 1 as [|c t Hc _ IH]; cbn [fmap list_fmap existsb].
  - symmetry. apply bool_decide_eq_false_2. set_solver.
  - rewrite IH, to_N_byte_of_N by lia.
    destruct (N.eqb_spec c q) as [->|Hne]; cbn [orb].
    + symmetry. apply bool_decide_eq_true_2. set_solver.
    + apply bool_decide_ext. set_solver.
Qed.

Lemma repr_plain (q : N) (t : pystr) :
  Forall plain t → q ∉ t → concat (repr_byte q <$> (byte_of_N <$> t)) = t.
Proof.
  induction 1 as [|c t (Hlo & Hhi & Hbs) _ IH]; intros Hq; [done|].
  rewrite !fmap_cons. cbn [concat].
  rewrite IH by set_solver. unfold repr_byte.
  rewrite to_N_byte_of_N by lia.
  assert (c ≠ q) by set_solver.
  unfold BACKSLASH, TAB, LF, CR in *.
  repeat match goal with
  | |- context [?a =? ?b] => destruct (N.eqb_spec a b); [lia|]
  | |- context [?a <? ?b] => destruct (N.ltb_spec a b); [lia|]
  | |- context [?a <=? ?b] => destruct (N.leb_spec a b); [lia|]
  end. done.
Qed.

(** The event of a token made of plain characters, when the quote [repr]
    picks does not occur in it. *)
Lemma frame_plain (t : pystr) :
  Forall plain t → ¬ (SQUOTE ∈ t ∧ DQUOTE ∈ t) →
  ∃ q, (q = SQUOTE ∨ q = DQUOTE) ∧
       frame t = Some (py "data: b" ++ [q] ++ t ++ [q; LF; LF]).
Proof.
  intros Hp Hq.
  assert (Forall (λ c, c ≠ BACKSLASH) t) as Hb
    by (eapply Forall_impl; [exact Hp|]; intros c (_ & _ & ?); done).
  assert (Forall (λ c, c < 128) t) as Ha
    by (eapply Forall_impl; [exact Hp|]; intros c (_ & ? & _); simpl; lia).
  unfold frame. rewrite replace_no_backslash, utf8_encode_ascii by done.
  cbn [mbind option_bind]. unfold repr_bytes, repr_quote.
  rewrite !existsb_bytes by done.
  set (q := if bool_decide (SQUOTE ∈ t) && negb (bool_decide (DQUOTE ∈ t))
            then DQUOTE else SQUOTE).
  assert ((q ∉ t) ∧ (q = SQUOTE ∨ q = DQUOTE)) as [Hqt Hqq].
  { subst q. repeat case_bool_decide; simpl; naive_solver. }
  exists q. split; [done|]. rewrite repr_plain by done.
  f_equal. change (py "data: b") with (py "data: " ++ [98]).
  by rewrite <- !app_assoc.
Qed.

Lemma extract_framed (q : N) (t : pystr) :
  q = SQUOTE ∨ q = DQUOTE →
  extract_chunk_str (py "data: b" ++ [q] ++ t ++ [q; LF; LF]) = t.
Proof.
  intros Hq. unfold extract_chunk_str.
  set (body := t ++ [q; LF; LF]).
  assert (str_eqb (py "data: b" ++ [q] ++ body) DONE_EVENT = false) as ->.
  { apply bool_decide_eq_false_2. intros [=]. }
  assert (startswith (py "data: b" ++ [SQUOTE]) (py "data: b" ++ [q] ++ body)
          || startswith (py "data: b" ++ [DQUOTE]) (py "data: b" ++ [q] ++ body)
          = true) as ->.
  { rewrite !(assoc_L (++) (py "data: b")).
    destruct Hq as [-> | ->]; rewrite startswith_app; [done|].
    apply orb_true_r. }
  assert (drop (length (py "data: b" ++ [SQUOTE])) (py "data: b" ++ [q] ++ body)
          = body) as -> by reflexivity.
  assert (endswith [SQUOTE; LF; LF] body || endswith [DQUOTE; LF; LF] body
          = true) as ->.
  { subst body. destruct Hq as [-> | ->]; rewrite endswith_app; [done|].
    apply orb_true_r. }
  subst body. rewrite length_app. cbn [length].
  replace (length t + 3 - 3)%nat with (length t) by lia.
  apply take_app_length.
Qed.

End FramingFacts.

(** ** The DAG *)

Section DagFacts.
Implicit Types (g : dag) (n d u v x : node) (l : list node).

Lemma list_remove_subseteq x l : list_remove x l ⊆ l.
Proof.
  induction l as [|y l IH]; simpl; [done|].
  case_decide; set_solver.
Qed.

Lemma list_remove_NoDup x l : NoDup l → NoDup (list_remove x l).
Proof.
  induction 1 as [|y l Hy Hl IH]; simpl; [constructor|].
  case_decide; [done|]. constructor; [|done].
  intros Hin. apply Hy. by apply (list_remove_subseteq x).
Qed.

Lemma list_remove_lookup x l (i : nat) :
  NoDup l → l !! i = Some x → list_remove x l = take i l ++ drop (S i) l.
Proof.
  intros Hnd. revert i. induction Hnd as [|y l Hy Hl IH]; intros [|i] Hi;
    simplify_eq/=.
  - by rewrite decide_True.
  - rewrite decide_False; [by rewrite (IH i)|].
    intros ->. apply Hy. by eapply list_elem_of_lookup_2.
Qed.

Lemma downstream_cons g k l n :
  downstream ((k, l) :: g) n = if decide (k = n) then l else downstream g n.
Proof.
  unfold downstream. cbn [list_find]. simpl.
  case_decide; [done|].
  by destruct (list_find _ g) as [[i kv]|].
Qed.

Lemma downstream_delete_edge g u v x :
  downstream (delete_edge g u v) x =
  if decide (x = u) then list_remove v (downstream g u) else downstream g x.
Proof.
  induction g as [|[k l] g IH].
  - simpl. case_decide; done.
  - unfold delete_edge in *. rewrite fmap_cons. cbn [fst snd].
    destruct (decide (k = u)) as [->|Hk]; rewrite !downstream_cons, IH;
      repeat case_decide; simplify_eq; done.
Qed.

Lemma elem_of_predecessors g n d :
  n ∈ predecessors g d ↔ ∃ l, (n, l) ∈ g ∧ d ∈ l.
Proof.
  unfold predecessors. rewrite list_elem_of_fmap. split.
  - intros ([k l] & -> & Hin). apply list_elem_of_filter in Hin as [Hd Hin].
    by exists l.
  - intros (l & Hin & Hd). exists (n, l). split; [done|].
    by apply list_elem_of_filter.
Qed.

Lemma downstream_elem_of g n d :
  d ∈ downstream g n → ∃ l, (n, l) ∈ g ∧ d ∈ l.
Proof.
  unfold downstream.
  destruct (list_find _ g) as [[i [k l]]|] eqn:E; [|set_solver].
  apply list_find_Some in E as (Hl & Hk & _). simpl in *. subst k.
  intros Hd. exists l. split; [|done]. by eapply list_elem_of_lookup_2.
Qed.

(** A direct successor has the node among its predecessors. *)
Lemma downstream_predecessors g n d :
  d ∈ downstream g n → n ∈ predecessors g d.
Proof. intros H. apply elem_of_predecessors. by apply downstream_elem_of. Qed.

Lemma shrinks_refl g : shrinks g g.
Proof. done. Qed.

Lemma shrinks_trans g1 g2 g3 : shrinks g1 g2 → shrinks g2 g3 → shrinks g1 g3.
Proof. intros H1 H2 x. destruct (H1 x), (H2 x). split; set_solver. Qed.

Lemma delete_edge_shrinks g u v : shrinks (delete_edge g u v) g.
Proof.
  intros x. split.
  - intros n Hn. apply elem_of_predecessors in Hn as (l & Hin & Hx).
    apply elem_of_predecessors. unfold delete_edge in Hin.
    apply list_elem_of_fmap in Hin as ([k l'] & Heq & Hin). simpl in Heq.
    exists l'. split; [by case_decide; simplify_eq|].
    case_decide; simplify_eq; [|done]. by eapply list_remove_subseteq.
  - rewrite downstream_delete_edge. case_decide; [subst|done].
    apply list_remove_subseteq.
Qed.

Lemma nodes_delete_edge g u v : nodes (delete_edge g u v) = nodes g.
Proof.
  unfold nodes, delete_edge. rewrite <- list_fmap_compose.
  apply list_fmap_ext. intros i [k l] _. simpl. by case_decide.
Qed.

Lemma delete_edge_wf g u v : dag_wf g → dag_wf (delete_edge g u v).
Proof.
  intros [Hk Hs]. split; [by rewrite nodes_delete_edge|].
  unfold delete_edge. apply Forall_fmap. eapply Forall_impl; [exact Hs|].
  intros [k l] Hl. simpl in *. case_decide; [|done]. simpl.
  by apply list_remove_NoDup.
Qed.

Lemma downstream_NoDup g n : dag_wf g → NoDup (downstream g n).
Proof.
  intros [_ Hs]. unfold downstream.
  destruct (list_find _ g) as [[i [k l]]|] eqn:E; [|constructor].
  apply list_find_Some in E as (Hl & _). simpl.
  eapply Forall_lookup_1 in Hs; [|exact Hl]. done.
Qed.

Lemma ind_nodes_NoDup g : dag_wf g → NoDup (ind_nodes g).
Proof. intros [Hk _]. by apply NoDup_filter. Qed.

Lemma ind_nodes_predecessors g r : r ∈ ind_nodes g → predecessors g r = [].
Proof. unfold ind_nodes. intros H. by apply list_elem_of_filter in H as [? _]. Qed.

Lemma downstream_not_node g x : x ∉ nodes g → downstream g x = [].
Proof.
  induction g as [|[k l] g IH]; [done|]. unfold nodes. rewrite fmap_cons.
  intros Hx. rewrite downstream_cons. simpl in Hx.
  rewrite decide_False by set_solver. apply IH. set_solver.
Qed.

Lemma delete_node_shrinks g n : shrinks (delete_node_if_exists g n) g.
Proof.
  intros x. split.
  - intros k Hk. apply elem_of_predecessors in Hk as (l & Hin & Hx).
    apply elem_of_predecessors. unfold delete_node_if_exists in Hin.
    apply list_elem_of_fmap in Hin as ([k' l'] & Heq & Hin). simplify_eq/=.
    apply list_elem_of_filter in Hin as [_ Hin].
    apply list_elem_of_filter in Hx as [_ Hx]. by exists l'.
  - destruct (decide (x = n)) as [->|Hx].
    + rewrite downstream_not_node; [set_solver|].
      unfold delete_node_if_exists, nodes. rewrite <- list_fmap_compose.
      intros Hin. apply list_elem_of_fmap in Hin as ([k l] & Heq & Hin).
      apply list_elem_of_filter in Hin as [Hne _]. simplify_eq/=.
    + unfold delete_node_if_exists. induction g as [|[k l] g IH]; [done|].
      cbn [filter list_filter fst].
      destruct (decide (k ≠ n)) as [Hk|Hk].
      * rewrite fmap_cons, !downstream_cons. cbn [fst snd].
        case_decide; [|done]. intros y Hy.
        by apply list_elem_of_filter in Hy as [_ ?].
      * rewrite downstream_cons. rewrite decide_False; [done|].
        intros ->. by apply Hk.
Qed.

Lemma delete_node_wf g n : dag_wf g → dag_wf (delete_node_if_exists g n).
Proof.
  intros [Hk Hs]. unfold delete_node_if_exists. split.
  - induction g as [|[k l] g IH]; [constructor|].
    unfold nodes in *. rewrite fmap_cons in Hk.
    apply NoDup_cons in Hk as [Hk1 Hk2]. apply Forall_cons in Hs as [_ Hs].
    cbn [filter list_filter fst].
    destruct (decide (k ≠ n)) as [Hkn|Hkn]; [|by apply IH].
    rewrite !fmap_cons. cbn [fst]. constructor; [|by apply IH].
    intros Hin. apply Hk1.
    apply list_elem_of_fmap in Hin as ([k1 l1] & Heq & Hin).
    apply list_elem_of_fmap in Hin as ([k2 l2] & Heq2 & Hin).
    apply list_elem_of_filter in Hin as [_ Hin]. simplify_eq/=.
    apply list_elem_of_fmap. by exists (k2, l2).
  - apply Forall_fmap. apply Forall_forall. intros [k l] Hin.
    apply list_elem_of_filter in Hin as [_ Hin]. simpl.
    apply NoDup_filter. rewrite Forall_forall in Hs. by apply (Hs (k, l)).
Qed.

Lemma prune_unreachable_spec ind g :
  dag_wf g →
  dag_wf (prune_unreachable ind g) ∧ shrinks (prune_unreachable ind g) g.
Proof.
  unfold prune_unreachable. generalize (nodes g) as xs.
  generalize (ind ≫= λ i, i :: all_downstreams g i) as keep.
  intros keep xs. revert g. induction xs as [|x xs IH]; intros g Hwf; simpl.
  - split; [done|apply shrinks_refl].
  - case_decide; [by apply IH|].
    destruct (IH (delete_node_if_exists g x)) as [H1 H2];
      [by apply delete_node_wf|].
    split; [done|]. eapply shrinks_trans; [exact H2|apply delete_node_shrinks].
Qed.

End DagFacts.

(** ** The schedule engine *)

Section EngineFacts.

Variable re_findall : pystr → node → option bool.
Variable llm_parameters : LLMParams.

Implicit Types (g : dag) (n d u v x : node) (ds : list node) (st : state).

#[local] Abbreviation prune_pattern := (prune_pattern re_findall).
#[local] Abbreviation black_list_loop := (black_list_loop re_findall llm_parameters).
#[local] Abbreviation prune_phase := (prune_phase re_findall llm_parameters).
#[local] Abbreviation kept := (kept re_findall).

Lemma same_but_graph_refl st : same_but_graph st st.
Proof.
  split_and!; try done. exists []. by rewrite app_nil_r.
Qed.

Lemma same_but_graph_trans st1 st2 st3 :
  same_but_graph st1 st2 → same_but_graph st2 st3 → same_but_graph st1 st3.
Proof.
  intros (Hp1 & Hh1 & (q1 & Hl1 & Hq1) & Hs1 & Hw1)
         (Hp2 & Hh2 & (q2 & Hl2 & Hq2) & Hs2 & Hw2).
  split_and!; try congruence.
  - exists (q2 ++ q1). rewrite Hl1, Hl2, app_assoc. split; [done|].
    by apply Forall_app.
  - by eapply shrinks_trans.
  - auto.
Qed.

(** One pattern: the local view loses exactly the successors the pattern
    matches among the first [k], the edge to each of them is deleted, and
    nothing else changes but the log. *)
Lemma prune_pattern_spec p n k st ds :
  NoDup ds → (k ≤ length ds)%nat → downstream (runtime_graph st) n = ds →
  ∃ st' ds',
    prune_pattern p n k st ds = (st', ds')
    ∧ ds' = filter (kept p) (take k ds) ++ drop k ds
    ∧ downstream (runtime_graph st') n = ds'
    ∧ result_dict st' = result_dict st
    ∧ same_but_graph st' st.
Proof.
  revert st ds. induction k as [|i IH]; intros st ds Hnd Hk Hds.
  - exists st, ds. simpl. rewrite drop_0.
    split_and!; try done. apply same_but_graph_refl.
  - simpl. destruct (lookup_lt_is_Some_2 ds i) as [d Hd]; [lia|].
    rewrite Hd.
    assert (take (S i) ds = take i ds ++ [d]) as Htake
      by (by apply take_S_r).
    assert (drop i ds = d :: drop (S i) ds) as Hdrop
      by (by apply drop_S).
    destruct (re_findall p d) as [[|]|] eqn:Hre.
    + set (st1 := set_graph (delete_edge (runtime_graph st) n d) st).
      destruct (IH st1 (list_remove d ds)) as (st' & ds' & Heq & Hds' & Hg & Hrd & Hsame).
      { by apply list_remove_NoDup. }
      { rewrite (list_remove_lookup d ds i) by done.
        rewrite length_app, length_take, length_drop. lia. }
      { simpl. rewrite downstream_delete_edge, decide_True by done.
        by rewrite Hds. }
      exists st', ds'. split; [done|]. split; [|split; [done|split; [done|]]].
      * rewrite Hds', (list_remove_lookup d ds i) by done.
        rewrite take_app_le by (rewrite length_take; lia).
        rewrite take_take, Nat.min_id.
        rewrite drop_app_ge by (rewrite length_take; lia).
        rewrite length_take, Nat.min_l, Nat.sub_diag, drop_0 by lia.
        rewrite Htake, filter_app.
        assert (filter (kept p) [d] = []) as ->; [|by rewrite app_nil_r].
        cbn [filter list_filter]. rewrite decide_False; [done|].
        unfold kept. by intros ?.
      * eapply same_but_graph_trans; [exact Hsame|].
        split_and!; try done.
        -- exists []. by rewrite app_nil_r.
        -- apply delete_edge_shrinks.
        -- apply delete_edge_wf.
    + destruct (IH st ds) as (st' & ds' & Heq & Hds' & Hg & Hrd & Hsame);
        [done|lia|done|].
      exists st', ds'. split; [done|]. split; [|done].
      rewrite Hds', Htake, filter_app, Hdrop, <- app_assoc. do 2 f_equal.
      cbn [filter list_filter]. rewrite decide_True; [done|].
      unfold kept. by rewrite Hre.
    + destruct (IH (emit OLogError st) ds) as (st' & ds' & Heq & Hds' & Hg & Hrd & Hsame);
        [done|lia|done|].
      exists st', ds'. split; [done|]. split; [|split; [done|split; [done|]]].
      * rewrite Hds', Htake, filter_app, Hdrop, <- app_assoc. do 2 f_equal.
        cbn [filter list_filter]. rewrite decide_True; [done|].
        unfold kept. by rewrite Hre.
      * eapply same_but_graph_trans; [exact Hsame|].
        split_and!; try done. exists [OLogError]. split; [done|].
        by repeat constructor.
Qed.

Lemma black_list_loop_spec ps n m st ds :
  NoDup ds → downstream (runtime_graph st) n = ds →
  ∃ st' ds' e,
    black_list_loop ps n m st ds = (st', ds', e)
    ∧ downstream (runtime_graph st') n = ds'
    ∧ NoDup ds' ∧ ds' ⊆ ds
    ∧ (∀ d p, d ∈ ds' → p ∈ ps → kept p d)
    ∧ (∀ x, x ≠ n → result_dict st' !! x = result_dict st !! x)
    ∧ (result_dict st' !! n = result_dict st !! n
       ∨ ∃ t, result_dict st' !! n = Some (StreamingResponse (FakeStream t)))
    ∧ same_but_graph st' st.
Proof.
  revert st ds. induction ps as [|p ps IH]; intros st ds Hnd Hds.
  - exists st, ds, None. split_and!; try done; [set_solver|by left|].
    apply same_but_graph_refl.
  - cbn [Engine.black_list_loop].
    destruct (prune_pattern_spec p n (length ds) st ds)
      as (st1 & ds1 & Heq & Hds1 & Hg1 & Hrd1 & Hsame1); [done..|].
    rewrite Heq. rewrite firstn_all, drop_all, app_nil_r in Hds1.
    assert (NoDup ds1) as Hnd1 by (subst ds1; by apply NoDup_filter).
    assert (ds1 ⊆ ds) as Hsub1
      by (subst ds1; intros x Hx; by apply list_elem_of_filter in Hx as [_ ?]).
    assert (∀ d, d ∈ ds1 → kept p d) as Hkept1
      by (subst ds1; intros x Hx; by apply list_elem_of_filter in Hx as [? _]).
    destruct (bool_decide (length ds1 = 0%nat) && stream_flag llm_parameters)
      eqn:Hcond.
    + destruct (m !! py "text") as [text|] eqn:Htext.
      * set (st2 := set_result n (StreamingResponse (FakeStream text)) st1).
        destruct (IH st2 ds1) as (st' & ds' & e & Heq' & Hg' & Hnd' & Hsub'
                                  & Hkept' & Hrd' & Hn' & Hsame'); [done..|].
        exists st', ds', e. split_and!; try done.
        -- set_solver.
        -- intros d q Hd Hq. apply elem_of_cons in Hq as [->|Hq]; [|by eauto].
           apply Hkept1. set_solver.
        -- intros x Hx. rewrite Hrd' by done. subst st2. simpl.
           rewrite lookup_insert_ne by done. by rewrite Hrd1.
        -- right. destruct Hn' as [Hn'|Hn']; [|done].
           exists text. rewrite Hn'. subst st2. simpl. by rewrite lookup_insert_eq.
        -- eapply same_but_graph_trans; [exact Hsame'|].
           eapply same_but_graph_trans; [|exact Hsame1].
           subst st2. split_and!; try done. exists []. by rewrite app_nil_r.
      * exists st1, ds1, (Some KeyError). split_and!; try done.
        -- intros d q Hd. apply andb_true_iff in Hcond as [Hl _].
           apply bool_decide_eq_true in Hl. apply nil_length_inv in Hl.
           subst ds1. rewrite Hl in Hd. set_solver.
        -- intros x _. by rewrite Hrd1.
        -- left. by rewrite Hrd1.
    + destruct (IH st1 ds1) as (st' & ds' & e & Heq' & Hg' & Hnd' & Hsub'
                                & Hkept' & Hrd' & Hn' & Hsame'); [done..|].
      exists st', ds', e. split_and!; try done.
      * set_solver.
      * intros d q Hd Hq. apply elem_of_cons in Hq as [->|Hq]; [|by eauto].
        apply Hkept1. set_solver.
      * intros x Hx. rewrite Hrd' by done. by rewrite Hrd1.
      * rewrite <- Hrd1. done.
      * by eapply same_but_graph_trans.
Qed.

Lemma prune_phase_spec r n st :
  dag_wf (runtime_graph st) →
  ∃ st' ds' e,
    prune_phase r n st = (st', ds', e)
    ∧ downstream (runtime_graph st') n = ds'
    ∧ NoDup ds'
    ∧ (∀ m d, r = Structured m → d ∈ ds' → ¬ pruned_by re_findall m d)
    ∧ (∀ x, x ≠ n → result_dict st' !! x = result_dict st !! x)
    ∧ (result_dict st' !! n = result_dict st !! n
       ∨ ∃ t, result_dict st' !! n = Some (StreamingResponse (FakeStream t)))
    ∧ (∀ b, r = AudioBytes b → e ≠ None)
    ∧ same_but_graph st' st.
Proof.
  intros Hwf. unfold Engine.prune_phase.
  pose proof (downstream_NoDup (runtime_graph st) n Hwf) as Hnd.
  destruct r as [m|b|s].
  - destruct (m !! py "downstream_black_list") as [v|] eqn:Hv.
    + destruct (iter_patterns v) as [ps|] eqn:Hps.
      * destruct (black_list_loop_spec ps n m st _ Hnd eq_refl)
          as (st' & ds' & e & Heq' & Hg' & Hnd' & Hsub' & Hkept' & Hrd'
              & Hn' & Hsame').
        exists st', ds', e. split_and!; try done.
        intros m' d [= <-] Hd (v' & ps' & p & Hv' & Hps' & Hp & Hre).
        simplify_eq. by apply (Hkept' d p).
      * eexists st, _, _. split_and!; try done; [|by left|apply same_but_graph_refl].
        intros m' d [= <-] Hd (v' & ps' & p & Hv' & Hps' & Hp & Hre).
        simplify_eq.
    + eexists st, _, _. split_and!; try done; [|by left|apply same_but_graph_refl].
      intros m' d [= <-] Hd (v' & ps' & p & Hv' & Hps' & Hp & Hre).
      simplify_eq.
  - eexists st, _, _. split_and!; try done; [by left|apply same_but_graph_refl].
  - eexists st, _, _. split_and!; try done; [by left|apply same_but_graph_refl].
Qed.

Lemma process_outputs_from_ok (acc : payload) (prev : list node)
    (rd : gmap node response) (out : payload) :
  process_outputs_from acc prev rd = inr out →
  ∀ i, i ∈ prev → ∃ r, rd !! i = Some r ∧ dictlike r.
Proof.
  revert acc. induction prev as [|p prev IH]; intros acc Heq i Hi; [set_solver|].
  simpl in Heq. destruct (rd !! p) as [r|] eqn:Hr; [|done].
  destruct (dict_update acc r) as [e|acc'] eqn:Hu; [done|].
  apply elem_of_cons in Hi as [->|Hi]; [|by eapply IH].
  exists r. split; [done|]. by destruct r as [?|[|??]|?].
Qed.

Lemma readiness_scan_spec ds st :
  ∃ st' e (disp : list (node * loc)),
    readiness_scan ds st = (st', e)
    ∧ result_dict st' = result_dict st
    ∧ runtime_graph st' = runtime_graph st
    ∧ log st' = log st ++ ((λ dl, ODispatch dl.1 dl.2) <$> disp)
    ∧ pending st' = pending st ++ ((λ dl, Created dl.1 dl.2) <$> disp)
    ∧ disp.*1 `sublist_of` ds
    ∧ (∀ d, d ∈ disp.*1 → ∀ i, i ∈ predecessors (runtime_graph st) d →
         ∃ r, result_dict st !! i = Some r ∧ dictlike r).
Proof.
  revert st. induction ds as [|d ds IH]; intros st.
  - exists st, None, []. simpl. rewrite !app_nil_r. split_and!; try done.
    set_solver.
  - cbn [readiness_scan].
    destruct (all_finished st d) eqn:Hfin.
    + destruct (process_outputs _ _) as [e|inputs] eqn:Hout.
      * exists st, (Some e), []. simpl. rewrite !app_nil_r.
        split_and!; try done; [apply sublist_nil_l|set_solver].
      * destruct (IH (dispatch d inputs st))
          as (st' & e & disp & Heq & Hrd & Hg & Hlog & Hpend & Hsub & Hok).
        exists st', e, ((d, fresh_loc (heap st)) :: disp).
        split_and!; try done.
        -- rewrite Hlog. simpl. by rewrite <- app_assoc.
        -- rewrite Hpend. simpl. by rewrite <- app_assoc.
        -- simpl. by apply sublist_skip.
        -- intros x Hx i Hi. simpl in Hx.
           apply elem_of_cons in Hx as [->|Hx]; [|by eapply Hok].
           by eapply process_outputs_from_ok.
    + destruct (IH st)
        as (st' & e & disp & Heq & Hrd & Hg & Hlog & Hpend & Hsub & Hok).
      exists st', e, disp. split_and!; try done. by apply sublist_cons.
Qed.

End EngineFacts.

Section Invariant.

Variable re_findall : pystr → node → option bool.
Variable T : dag.

Implicit Types (g : dag) (n d u v x c : node) (ds : list node) (st : state).

Lemma dispatched_app (l1 l2 : list obs) :
  dispatched (l1 ++ l2) = dispatched l1 ++ dispatched l2.
Proof. apply omap_app. Qed.

Lemma dispatched_quiet (q : list obs) : Forall quiet q → dispatched q = [].
Proof. induction 1 as [|[] q Hq _ IH]; simpl in *; try done. Qed.

Lemma dispatched_dispatches (disp : list (node * loc)) :
  dispatched ((λ dl, ODispatch dl.1 dl.2) <$> disp) = disp.*1.
Proof. induction disp as [|[d l] disp IH]; simpl; [done|]. by f_equal. Qed.

Lemma record_not_quiet n r (q : list obs) : Forall quiet q → ORecord n r ∉ q.
Proof. intros Hq Hin. rewrite Forall_forall in Hq. by apply Hq in Hin. Qed.

Lemma record_not_dispatch n r (disp : list (node * loc)) :
  ORecord n r ∉ (λ dl, ODispatch dl.1 dl.2) <$> disp.
Proof. intros Hin. apply list_elem_of_fmap in Hin as (? & ? & _). done. Qed.

Lemma Inv_quiet st st' :
  Inv re_findall T st →
  result_dict st' = result_dict st →
  shrinks (runtime_graph st') (runtime_graph st) →
  dag_wf (runtime_graph st') →
  pnodes st' `sublist_of` pnodes st →
  (∃ q, log st' = log st ++ q ∧ Forall quiet q) →
  Inv re_findall T st'.
Proof.
  intros [] Hrd Hg Hwf Hp (q & Hlog & Hq).
  assert (dispatched (log st') = dispatched (log st)) as HD
    by (by rewrite Hlog, dispatched_app, (dispatched_quiet q), app_nil_r).
  assert (∀ n r, ORecord n r ∈ log st' ↔ ORecord n r ∈ log st) as Hrec.
  { intros n r. rewrite Hlog, elem_of_app. pose proof (record_not_quiet n r q Hq).
    tauto. }
  assert (∀ x, x ∉ pnodes st → x ∉ pnodes st') as Hnp.
  { intros x Hx Hx'. apply Hx. by eapply sublist_subseteq. }
  split; rewrite ?HD, ?Hrd.
  - done.
  - by eapply shrinks_trans.
  - done.
  - by eapply sublist_NoDup.
  - intros x Hx. apply inv_psub0. by eapply sublist_subseteq.
  - intros n r Hr Hs. apply Hrec in Hr. destruct (inv_rec0 n r Hr Hs). auto.
  - intros n r Hr Hs. apply Hrec. auto.
  - intros d i Hd Hi. apply Hg in Hi.
    destruct (inv_ready0 d i Hd Hi) as (? & ?). auto.
  - intros d Hd. destruct (inv_origin0 d Hd) as [?|(n & m & ? & ? & ?)]; [by left|].
    right. exists n, m. split_and!; try done. by apply Hrec.
  - intros n m m' H1 H2. apply Hrec in H1, H2. eauto.
  - intros n m d Hr Hpr Hd. apply Hrec in Hr. apply Hg in Hd.
    by eapply inv_pruned0.
Qed.

Lemma Inv_done st0 st2 c n r (pn' : list node) (q : list obs)
    (disp : list (node * loc)) :
  Inv re_findall T st0 →
  pnodes st0 ≡ₚ c :: pn' →
  (is_streaming r = false → n = c) →
  (∀ x, x ≠ n → result_dict st2 !! x = result_dict st0 !! x) →
  (result_dict st2 !! n = Some r
   ∨ ∃ t, result_dict st2 !! n = Some (StreamingResponse (FakeStream t))) →
  shrinks (runtime_graph st2) (runtime_graph st0) →
  dag_wf (runtime_graph st2) →
  log st2 = log st0 ++ ORecord n r :: q ++ ((λ dl, ODispatch dl.1 dl.2) <$> disp) →
  Forall quiet q →
  pnodes st2 = pn' ++ disp.*1 →
  NoDup disp.*1 →
  (∀ d, d ∈ disp.*1 → d ∈ downstream (runtime_graph st2) n) →
  (∀ d i, d ∈ disp.*1 → i ∈ predecessors (runtime_graph st2) d →
     ∃ ri, result_dict st2 !! i = Some ri ∧ dictlike ri) →
  (∀ b, r = AudioBytes b → disp = []) →
  (∀ m d, r = Structured m → d ∈ disp.*1 → ¬ pruned_by re_findall m d) →
  (∀ m d, r = Structured m → pruned_by re_findall m d →
     d ∉ downstream (runtime_graph st2) n) →
  Inv re_findall T st2.
Proof.
  intros [] Hperm Hnc Hrdx Hrdn Hg Hwf Hlog Hq Hpn Hnd Hds Hok Haud Hkept Hprune.
  set (D0 := dispatched (log st0)) in *.
  assert (dispatched (log st2) = D0 ++ disp.*1) as HD.
  { rewrite Hlog, dispatched_app.
    change (dispatched (ORecord n r :: ?l)) with (dispatched l).
    by rewrite dispatched_app, (dispatched_quiet q), dispatched_dispatches. }
  assert (∀ x rx, ORecord x rx ∈ log st2 ↔
                  ORecord x rx ∈ log st0 ∨ (x = n ∧ rx = r)) as Hrec.
  { intros x rx. rewrite Hlog, elem_of_app, elem_of_cons, elem_of_app.
    pose proof (record_not_quiet x rx q Hq).
    pose proof (record_not_dispatch x rx disp). naive_solver. }
  assert (c ∈ pnodes st0) as Hc by (rewrite Hperm; set_solver).
  assert (NoDup (c :: pn')) as Hndc by (by rewrite <- Hperm).
  apply NoDup_cons in Hndc as [Hcpn Hndpn].
  assert (pn' ⊆ pnodes st0) as Hpnsub by (rewrite Hperm; set_solver).
  assert (∀ x, x ∉ pnodes st0 → x ∉ pn') as Hnpn by set_solver.
  assert (∀ d, d ∈ disp.*1 → result_dict st2 !! n = Some r ∧ dictlike r ∧ n = c)
    as Hfire.
  { intros d Hd. destruct (Hok d n Hd) as (rn & Hrn & Hdl).
    { apply downstream_predecessors. by apply Hds. }
    destruct Hrdn as [Hrn'|(t & Hrn')]; rewrite Hrn' in Hrn; simplify_eq; [|done].
    split_and!; try done. apply Hnc. by destruct rn. }
  assert (∀ d, d ∈ disp.*1 → d ∉ D0) as Hfresh.
  { intros d Hd Hd0. destruct (Hfire d Hd) as (_ & _ & ->).
    destruct (inv_ready0 d c Hd0) as (_ & Hcp); [|done].
    apply Hg. apply downstream_predecessors. by apply Hds. }
  assert (∀ x rx, result_dict st2 !! x = Some rx → is_streaming rx = false →
                  ORecord x rx ∈ log st2 ∧ x ∈ D0 ∧ x ∉ pn') as Hdone.
  { intros x rx Hx Hs. destruct (decide (x = n)) as [->|Hxn].
    - destruct Hrdn as [Hrn'|(t & Hrn')]; rewrite Hrn' in Hx; simplify_eq.
      split; [apply Hrec; by right|]. rewrite (Hnc Hs). split; [by apply inv_psub0|done].
    - rewrite Hrdx in Hx by done. pose proof (inv_rd0 x rx Hx Hs) as Hr.
      destruct (inv_rec0 x rx Hr Hs).
      split; [apply Hrec; by left|]. auto. }
  split; rewrite ?HD, ?Hpn.
  - done.
  - by eapply shrinks_trans.
  - apply NoDup_app. split_and!; [done| |done].
    intros x Hx Hx'. by apply (Hfresh x).
  - apply NoDup_app. split_and!; [done| |done].
    intros x Hx Hx'. apply (Hfresh x Hx'). apply inv_psub0. by apply Hpnsub.
  - intros x Hx. apply elem_of_app in Hx as [Hx|Hx]; apply elem_of_app; [left|by right].
    apply inv_psub0. by apply Hpnsub.
  - intros x rx Hr Hs. apply Hrec in Hr as [Hr|[-> ->]].
    + destruct (inv_rec0 x rx Hr Hs) as [Hx1 Hx2]. split; [set_solver|].
      intros Hx. apply elem_of_app in Hx as [Hx|Hx]; [by apply (Hnpn x)|].
      by apply (Hfresh x).
    + rewrite (Hnc Hs). split; [apply elem_of_app; left; by apply inv_psub0|].
      intros Hx. apply elem_of_app in Hx as [Hx|Hx]; [done|].
      apply (Hfresh c Hx). by apply inv_psub0.
  - intros x rx Hx Hs. by destruct (Hdone x rx Hx Hs).
  - intros d i Hd Hi. apply elem_of_app in Hd as [Hd|Hd].
    + apply Hg in Hi. destruct (inv_ready0 d i Hd Hi) as (Hi1 & Hi2).
      split; [set_solver|].
      intros Hx. apply elem_of_app in Hx as [Hx|Hx]; [by apply (Hnpn i)|].
      by apply (Hfresh i).
    + destruct (Hok d i Hd Hi) as (ri & Hri & Hdl).
      assert (is_streaming ri = false) as Hs by (by destruct ri).
      destruct (Hdone i ri Hri Hs) as (_ & Hi1 & Hi2).
      split; [set_solver|].
      intros Hx. apply elem_of_app in Hx as [Hx|Hx]; [done|].
      by apply (Hfresh i).
  - intros d Hd. apply elem_of_app in Hd as [Hd|Hd].
    + destruct (inv_origin0 d Hd) as [?|(n' & m & ? & ? & ?)]; [by left|].
      right. exists n', m. split_and!; try done. apply Hrec. by left.
    + right. destruct (Hfire d Hd) as (_ & Hdl & _).
      destruct r as [m|b|s]; [| |done].
      * exists n, m. split_and!.
        -- apply inv_sub0. apply Hg. apply downstream_predecessors. by apply Hds.
        -- apply Hrec. by right.
        -- by apply Hkept.
      * rewrite (Haud b eq_refl) in Hd. set_solver.
  - intros x m m' H1 H2. apply Hrec in H1, H2.
    destruct H1 as [H1|[E1 R1]], H2 as [H2|[E2 R2]].
    + eauto.
    + subst x. destruct (inv_rec0 n (Structured m) H1 eq_refl) as [_ Hn].
      rewrite <- R2 in Hnc. rewrite (Hnc eq_refl) in Hn. done.
    + subst x. destruct (inv_rec0 n (Structured m') H2 eq_refl) as [_ Hn].
      rewrite <- R1 in Hnc. rewrite (Hnc eq_refl) in Hn. done.
    + congruence.
  - intros x m d Hr Hpr. apply Hrec in Hr as [Hr|[-> <-]].
    + intros Hd. apply Hg in Hd. by eapply inv_pruned0.
    + by eapply Hprune.
Qed.

End Invariant.

Section Run.

Variable re_findall : pystr → node → option bool.
Variable services : node → option service.
Variable llm_parameters : LLMParams.
Variable T : dag.

Implicit Types (g : dag) (n d u v x c : node) (ds : list node) (st : state)
  (p : list task) (t : task).

#[local] Abbreviation Inv := (Inv re_findall T).
#[local] Abbreviation process_done := (process_done re_findall llm_parameters).
#[local] Abbreviation run_batch := (run_batch re_findall llm_parameters).
#[local] Abbreviation start_all := (start_all services llm_parameters).
#[local] Abbreviation event_loop :=
  (event_loop re_findall services llm_parameters).
#[local] Abbreviation schedule :=
  (schedule re_findall services llm_parameters).

Lemma take_task_spec c p t p' :
  take_task c p = Some (t, p') →
  task_node t = c
  ∧ task_node <$> p ≡ₚ c :: (task_node <$> p')
  ∧ p' `sublist_of` p.
Proof.
  revert t p'. induction p as [|t0 p IH]; intros t p' Heq; [done|].
  simpl in Heq. case_decide as Hc.
  - simplify_eq. split_and!; [done|done|]. by apply sublist_cons.
  - destruct (take_task c p) as [[t1 q]|] eqn:E; simplify_eq/=.
    destruct (IH t q eq_refl) as (H1 & H2 & H3). split_and!; [done| |].
    + rewrite H2. apply Permutation_swap.
    + by apply sublist_skip.
Qed.

Lemma task_result_spec t rp r n :
  task_result t rp = Some (inr (r, n)) →
  is_streaming r = false → n = task_node t.
Proof.
  destruct t as [c l|c|c ds|c e], rp as [m|b|up|]; simpl; try done.
  - by intros [= <- <-].
  - by intros [= <- <-].
  - destruct ds as [|d [|??]]; intros [= <- <-]; done.
Qed.

(** Processing one done task keeps the invariant. *)
Lemma process_done_Inv st0 c t p' rp r n :
  Inv st0 →
  take_task c (pending st0) = Some (t, p') →
  task_result t rp = Some (inr (r, n)) →
  Inv (process_done r n (set_pending p' st0)).1.
Proof.
  intros HI Htake Hres.
  destruct (take_task_spec _ _ _ _ Htake) as (Hc & Hperm & _).
  pose proof (task_result_spec _ _ _ _ Hres) as Hnc. rewrite Hc in Hnc.
  unfold Engine.process_done.
  set (stb := emit (ORecord n r) (set_result n r (set_pending p' st0))).
  destruct (prune_phase_spec re_findall llm_parameters r n stb)
    as (st1 & ds' & e & Heq & Hds' & Hnd' & Hkept & Hrdx & Hrdn & Haud & Hsame).
  { apply HI. }
  rewrite Heq.
  destruct Hsame as (Hp1 & _ & (q & Hlog1 & Hq) & Hg1 & Hwf1).
  assert (∀ x, x ≠ n → result_dict st1 !! x = result_dict st0 !! x) as Hrdx'.
  { intros x Hx. rewrite Hrdx by done. subst stb. simpl.
    by rewrite lookup_insert_ne. }
  assert (result_dict st1 !! n = Some r
          ∨ ∃ tx : value,
              result_dict st1 !! n = Some (StreamingResponse (FakeStream tx)))
    as Hrdn'.
  { destruct Hrdn as [->|?]; [left|by right]. subst stb. simpl.
    by rewrite lookup_insert_eq. }
  assert (∀ m d, r = Structured m → pruned_by re_findall m d →
                 d ∉ downstream (runtime_graph st1) n) as Hprune.
  { intros m d -> Hpr Hd. eapply Hkept; [done| |done]. by rewrite <- Hds'. }
  assert (dag_wf (runtime_graph st1)) as Hwf by (by apply Hwf1, HI).
  destruct e as [e|].
  - simpl.
    apply (Inv_done re_findall T st0 st1 c n r (task_node <$> p') q []).
    + exact HI.
    + exact Hperm.
    + exact Hnc.
    + exact Hrdx'.
    + exact Hrdn'.
    + exact Hg1.
    + exact Hwf.
    + rewrite Hlog1. subst stb. simpl. by rewrite <- app_assoc, app_nil_r.
    + exact Hq.
    + unfold pnodes. rewrite Hp1. subst stb. simpl. by rewrite app_nil_r.
    + constructor.
    + intros d Hd. by apply elem_of_nil in Hd.
    + intros d i Hd. by apply elem_of_nil in Hd.
    + done.
    + intros m d _ Hd. by apply elem_of_nil in Hd.
    + exact Hprune.
  - destruct (readiness_scan_spec ds' st1)
      as (st2 & e & disp & Heq2 & Hrd2 & Hg2 & Hlog2 & Hp2 & Hsub & Hok).
    rewrite Heq2. simpl.
    apply (Inv_done re_findall T st0 st2 c n r (task_node <$> p') q disp).
    + exact HI.
    + exact Hperm.
    + exact Hnc.
    + intros x Hx. rewrite Hrd2. by apply Hrdx'.
    + by rewrite Hrd2.
    + by rewrite Hg2.
    + by rewrite Hg2.
    + rewrite Hlog2, Hlog1. subst stb. simpl. by rewrite <- !app_assoc.
    + exact Hq.
    + unfold pnodes. rewrite Hp2, Hp1, fmap_app. subst stb. simpl.
      f_equal. by rewrite <- list_fmap_compose.
    + by eapply sublist_NoDup.
    + intros d Hd. rewrite Hg2, Hds'. by eapply sublist_subseteq.
    + intros d i Hd Hi. rewrite Hg2 in Hi. rewrite Hrd2. by eapply Hok.
    + intros b ->. by destruct (Haud b eq_refl).
    + intros m d -> Hd. eapply Hkept; [done|]. by eapply sublist_subseteq.
    + intros m d Hr Hpr. rewrite Hg2. by eapply Hprune.
Qed.

Lemma execute_start_frame c (l : loc) st :
  ∃ st1 t,
    execute_start services llm_parameters c l st = (st1, t)
    ∧ task_node t = c
    ∧ result_dict st1 = result_dict st
    ∧ runtime_graph st1 = runtime_graph st
    ∧ pending st1 = pending st
    ∧ ∃ q, log st1 = log st ++ q ∧ Forall quiet q.
Proof.
  unfold execute_start.
  destruct (services c) as [svc|]; [destruct (heap st !! l) as [m|]|].
  - repeat case_match; eexists _, _; split_and!; try done;
      first [ by exists []; rewrite app_nil_r
            | eexists [_]; split; [done|]; by repeat constructor ].
  - eexists _, _. split_and!; try done. exists []. by rewrite app_nil_r.
  - eexists _, _. split_and!; try done. exists []. by rewrite app_nil_r.
Qed.

Lemma start_tasks_frame (todo : list task) st :
  let st' := start_tasks services llm_parameters todo st in
  result_dict st' = result_dict st
  ∧ runtime_graph st' = runtime_graph st
  ∧ pnodes st' = pnodes st ++ (task_node <$> todo)
  ∧ ∃ q, log st' = log st ++ q ∧ Forall quiet q.
Proof.
  revert st. induction todo as [|t todo IH]; intros st; simpl.
  - split_and!; try done; [by rewrite app_nil_r|].
    exists []. by rewrite app_nil_r.
  - assert (∀ st1 t1,
      result_dict st1 = result_dict st → runtime_graph st1 = runtime_graph st →
      pending st1 = pending st → task_node t1 = task_node t →
      (∃ q, log st1 = log st ++ q ∧ Forall quiet q) →
      let st' := start_tasks services llm_parameters todo
                   (set_pending (pending st1 ++ [t1]) st1) in
      result_dict st' = result_dict st
      ∧ runtime_graph st' = runtime_graph st
      ∧ pnodes st' = pnodes st ++ task_node t :: (task_node <$> todo)
      ∧ ∃ q, log st' = log st ++ q ∧ Forall quiet q) as Hstep.
    { intros st1 t1 Hrd Hg Hp Ht (q & Hlog & Hq).
      destruct (IH (set_pending (pending st1 ++ [t1]) st1))
        as (Hrd' & Hg' & Hp' & (q' & Hlog' & Hq')).
      simpl in *. split_and!; [congruence|congruence| |].
      - rewrite Hp'. unfold pnodes. simpl.
        rewrite Hp, fmap_app, <- app_assoc. simpl. by rewrite Ht.
      - exists (q ++ q'). rewrite Hlog', Hlog, app_assoc. split; [done|].
        by apply Forall_app. }
    destruct t as [c l|c|c ds|c e];
      try (apply (Hstep st); try done; exists []; by rewrite app_nil_r).
    destruct (execute_start_frame c l st)
      as (st1 & t1 & Heq & Ht & Hrd & Hg & Hp & Hq).
    rewrite Heq. by apply Hstep.
Qed.

Lemma start_all_Inv st : Inv st → Inv (start_all st).
Proof.
  intros HI. unfold Engine.start_all.
  destruct (start_tasks_frame (pending st) (set_pending [] st))
    as (Hrd & Hg & Hp & Hq).
  eapply Inv_quiet; [exact HI|done| |..].
  - rewrite Hg. apply shrinks_refl.
  - rewrite Hg. apply HI.
  - by rewrite Hp.
  - done.
Qed.

Lemma run_batch_Inv (b : batch) st : Inv st → Inv (run_batch b st).1.
Proof.
  revert st. induction b as [|[c rp] b IH]; intros st HI; [done|].
  cbn [Engine.run_batch].
  destruct (take_task c (pending st)) as [[t p']|] eqn:Htake; [|done].
  destruct (task_result t rp) as [[e|[r n]]|] eqn:Hres; [| |done].
  - simpl. destruct (take_task_spec _ _ _ _ Htake) as (_ & _ & Hsub).
    eapply Inv_quiet; [exact HI|done|apply shrinks_refl|apply HI| |].
    + by apply fmap_sublist.
    + exists []. by rewrite app_nil_r.
  - pose proof (process_done_Inv st c t p' rp r n HI Htake Hres) as HI'.
    destruct (process_done r n (set_pending p' st)) as [st' [e|]]; [done|].
    by apply IH.
Qed.

Lemma event_loop_Inv (script : list batch) st :
  Inv st → Inv (event_loop script st).1.
Proof.
  revert st. induction script as [|b script IH]; intros st HI; simpl.
  - by destruct (pending st).
  - destruct (pending st); [done|].
    pose proof (run_batch_Inv b _ (start_all_Inv st HI)) as HI'.
    destruct (run_batch b (start_all st)) as [st' [s|]]; [done|].
    by apply IH.
Qed.

Lemma seed_spec (init : payload) :
  let st := seed T init in
  result_dict st = ∅ ∧ runtime_graph st = T
  ∧ pending st = (λ r, Created r INITIAL) <$> ind_nodes T
  ∧ log st = OPending true :: ((λ r, ODispatch r INITIAL) <$> ind_nodes T)
  ∧ heap st = {[INITIAL := init]}.
Proof.
  unfold seed. generalize (ind_nodes T) as roots.
  set (f := λ st r, emit (ODispatch r INITIAL)
                      (set_pending (pending st ++ [Created r INITIAL]) st)).
  assert (∀ roots st,
    let st' := foldl f st roots in
    result_dict st' = result_dict st ∧ runtime_graph st' = runtime_graph st
    ∧ pending st' = pending st ++ ((λ r, Created r INITIAL) <$> roots)
    ∧ log st' = log st ++ ((λ r, ODispatch r INITIAL) <$> roots)
    ∧ heap st' = heap st) as Hgen.
  { induction roots as [|r roots IH]; intros st; simpl.
    - by rewrite !app_nil_r.
    - destruct (IH (f st r)) as (H1 & H2 & H3 & H4 & H5).
      rewrite H1, H2, H3, H4, H5. subst f. simpl.
      by rewrite <- !app_assoc. }
  intros roots. apply Hgen.
Qed.

Lemma dispatched_roots (l : loc) (rs : list node) :
  dispatched ((λ r, ODispatch r l) <$> rs) = rs.
Proof. induction rs as [|r rs IH]; simpl; [done|]. by f_equal. Qed.

Lemma seed_Inv (init : payload) : dag_wf T → Inv (seed T init).
Proof.
  intros Hwf. destruct (seed_spec init) as (Hrd & Hg & Hp & Hlog & _).
  assert (dispatched (log (seed T init)) = ind_nodes T) as HD.
  { rewrite Hlog. change (dispatched (OPending true :: ?l)) with (dispatched l).
    apply dispatched_roots. }
  assert (pnodes (seed T init) = ind_nodes T) as HP.
  { unfold pnodes. rewrite Hp, <- list_fmap_compose. apply list_fmap_id. }
  assert (∀ n r, ORecord n r ∉ log (seed T init)) as Hnorec.
  { intros n r Hin. rewrite Hlog in Hin.
    apply elem_of_cons in Hin as [?|Hin]; [done|].
    apply list_elem_of_fmap in Hin as (? & ? & _). done. }
  split; rewrite ?HD, ?HP, ?Hrd, ?Hg.
  - done.
  - apply shrinks_refl.
  - by apply ind_nodes_NoDup.
  - by apply ind_nodes_NoDup.
  - done.
  - intros n r Hin. by apply Hnorec in Hin.
  - intros n r Hin. by rewrite lookup_empty in Hin.
  - intros d i Hd Hi. apply ind_nodes_predecessors in Hd. rewrite Hd in Hi.
    by apply elem_of_nil in Hi.
  - intros d Hd. by left.
  - intros n m m' Hin. by apply Hnorec in Hin.
  - intros n m d Hin. by apply Hnorec in Hin.
Qed.

(** Every state a call of [schedule] reaches satisfies the invariant. *)
Lemma schedule_Inv (init : payload) (script : list batch) :
  dag_wf T → Inv (schedule T init script).1.
Proof.
  intros Hwf. unfold Engine.schedule.
  pose proof (event_loop_Inv script _ (seed_Inv init Hwf)) as HI.
  destruct (event_loop script (seed T init)) as [st s].
  destruct s; try done. simpl in *.
  destruct (prune_unreachable_spec (ind_nodes T) (runtime_graph st))
    as [Hwf' Hsh]; [apply HI|].
  eapply Inv_quiet; [exact HI| | | | |].
  - by destruct (stream_flag llm_parameters).
  - by destruct (stream_flag llm_parameters).
  - by destruct (stream_flag llm_parameters).
  - by destruct (stream_flag llm_parameters).
  - destruct (stream_flag llm_parameters); simpl.
    + exists []. by rewrite app_nil_r.
    + eexists [_]. split; [done|]. by repeat constructor.
Qed.

End Run.

Section Order.

Variable re_findall : pystr → node → option bool.
Variable services : node → option service.
Variable llm_parameters : LLMParams.

Implicit Types (g : dag) (n d u v x c : node) (ds : list node) (st : state).

Lemma prune_unreachable_shrinks (ind : list node) g :
  shrinks (prune_unreachable ind g) g.
Proof.
  unfold prune_unreachable. generalize (nodes g) as xs.
  generalize (ind ≫= λ i, i :: all_downstreams g i) as keep.
  intros keep xs. revert g. induction xs as [|x xs IH]; intros g; simpl.
  - apply shrinks_refl.
  - case_decide; [by apply IH|].
    eapply shrinks_trans; [apply IH|apply delete_node_shrinks].
Qed.

(** A step that records nothing and dispatches nothing keeps the order. *)
Lemma ordered_quiet st st' :
  ordered st →
  (∀ u, is_Some (result_dict st' !! u) ↔ is_Some (result_dict st !! u)) →
  shrinks (runtime_graph st') (runtime_graph st) →
  (∃ q, log st' = log st ++ q ∧ Forall quiet q) →
  ordered st'.
Proof.
  intros [Hrec Hord] Hrd Hg (q & Hlog & Hq). split.
  - intros u Hu. apply Hrd in Hu. destruct (Hrec u Hu) as (j & r & Hj).
    exists j, r. rewrite Hlog. by apply lookup_app_l_Some.
  - intros k v l u Hk Hu. apply Hg in Hu. rewrite Hlog in Hk.
    apply lookup_app_Some in Hk as [Hk|[_ Hk]].
    + destruct (Hord k v l u Hk Hu) as (Hs & j & r & Hj & Hjr).
      split; [by apply Hrd|]. exists j, r. split; [done|].
      rewrite Hlog. by apply lookup_app_l_Some.
    + apply list_elem_of_lookup_2 in Hk. rewrite Forall_forall in Hq.
      by apply Hq in Hk.
Qed.

Lemma ordered_record st n r :
  ordered st → ordered (emit (ORecord n r) (set_result n r st)).
Proof.
  intros [Hrec Hord]. split; simpl.
  - intros u Hu. destruct (decide (u = n)) as [->|Hne].
    + exists (length (log st)), r. by rewrite list_lookup_middle.
    + rewrite lookup_insert_ne in Hu by done.
      destruct (Hrec u Hu) as (j & r' & Hj). exists j, r'.
      by apply lookup_app_l_Some.
  - intros k v l u Hk Hu. apply lookup_app_Some in Hk as [Hk|[_ Hk]].
    + destruct (Hord k v l u Hk Hu) as (Hs & j & r' & Hj & Hjr).
      split.
      * destruct (decide (u = n)) as [->|Hne];
          [by rewrite lookup_insert_eq|by rewrite lookup_insert_ne].
      * exists j, r'. split; [done|]. by apply lookup_app_l_Some.
    + by destruct (k - length (log st))%nat.
Qed.

Lemma ordered_scan ds st : ordered st → ordered (readiness_scan ds st).1.
Proof.
  intros [Hrec Hord].
  destruct (readiness_scan_spec ds st)
    as (st' & e & disp & Heq & Hrd & Hg & Hlog & _ & _ & Hok).
  rewrite Heq. simpl. split; rewrite ?Hrd, ?Hg, Hlog.
  - intros u Hu. destruct (Hrec u Hu) as (j & r & Hj). exists j, r.
    by apply lookup_app_l_Some.
  - intros k v l u Hk Hu. apply lookup_app_Some in Hk as [Hk|[Hkl Hk]].
    + destruct (Hord k v l u Hk Hu) as (Hs & j & r & Hj & Hjr).
      split; [done|]. exists j, r. split; [done|]. by apply lookup_app_l_Some.
    + apply list_elem_of_lookup_2 in Hk.
      apply list_elem_of_fmap in Hk as ([d l'] & [= -> ->] & Hin).
      destruct (Hok d) with (i := u) as (ru & Hru & _);
        [apply list_elem_of_fmap; by exists (d, l')|done|].
      split; [by eauto|]. destruct (Hrec u) as (j & r & Hj); [by eauto|].
      exists j, r. split; [apply lookup_lt_Some in Hj; lia|].
      by apply lookup_app_l_Some.
Qed.

Lemma pruned_state_refl n st : pruned_state n st st.
Proof.
  split_and!; try done. exists []. by rewrite app_nil_r.
Qed.

Lemma pruned_state_trans n st1 st2 st3 :
  pruned_state n st1 st2 → pruned_state n st2 st3 → pruned_state n st1 st3.
Proof.
  intros (Ha1 & Hb1 & Hc1 & Hg1 & q1 & Hl1 & Hq1)
         (Ha2 & Hb2 & Hc2 & Hg2 & q2 & Hl2 & Hq2).
  split_and!.
  - intros u Hu. by rewrite Ha1, Ha2.
  - auto.
  - auto.
  - by eapply shrinks_trans.
  - exists (q2 ++ q1). rewrite Hl1, Hl2, app_assoc. split; [done|].
    by apply Forall_app.
Qed.

Lemma prune_pattern_pruned p n (k : nat) st ds :
  pruned_state n (prune_pattern re_findall p n k st ds).1 st.
Proof.
  revert st ds. induction k as [|i IH]; intros st ds; simpl;
    [apply pruned_state_refl|].
  destruct (ds !! i) as [d|]; [|apply pruned_state_refl].
  destruct (re_findall p d) as [[|]|].
  - eapply pruned_state_trans; [apply IH|].
    split_and!; try done; [apply delete_edge_shrinks|].
    exists []. by rewrite app_nil_r.
  - apply IH.
  - eapply pruned_state_trans; [apply IH|].
    split_and!; try done. exists [OLogError]. split; [done|].
    by repeat constructor.
Qed.

Lemma black_list_loop_pruned (ps : list pystr) n (m : payload) st ds :
  is_Some (result_dict st !! n) →
  pruned_state n (black_list_loop re_findall llm_parameters ps n m st ds).1.1 st.
Proof.
  revert st ds. induction ps as [|p ps IH]; intros st ds Hn;
    [apply pruned_state_refl|].
  cbn [black_list_loop].
  pose proof (prune_pattern_pruned p n (length ds) st ds) as H1.
  destruct (prune_pattern re_findall p n (length ds) st ds) as [st1 ds1].
  simpl in H1.
  assert (is_Some (result_dict st1 !! n)) as Hn1 by (by apply H1).
  destruct (bool_decide (length ds1 = 0%nat) && stream_flag llm_parameters).
  - destruct (m !! py "text") as [text|]; [|done].
    eapply pruned_state_trans; [apply IH|].
    + simpl. by rewrite lookup_insert_eq.
    + eapply pruned_state_trans; [|exact H1].
      split_and!; simpl.
      * intros u Hu. by rewrite lookup_insert_ne.
      * intros _. by rewrite lookup_insert_eq.
      * done.
      * apply shrinks_refl.
      * exists []. by rewrite app_nil_r.
  - eapply pruned_state_trans; [by apply IH|done].
Qed.

Lemma prune_phase_pruned (r : response) n st :
  is_Some (result_dict st !! n) →
  pruned_state n (prune_phase re_findall llm_parameters r n st).1.1 st.
Proof.
  intros Hn. unfold prune_phase.
  destruct r as [m|b|s]; try apply pruned_state_refl.
  destruct (m !! py "downstream_black_list") as [v|];
    [|apply pruned_state_refl].
  destruct (iter_patterns v) as [ps|]; [|apply pruned_state_refl].
  by apply black_list_loop_pruned.
Qed.

Lemma process_done_ordered (r : response) n st :
  ordered st → ordered (process_done re_findall llm_parameters r n st).1.
Proof.
  intros Ho. unfold process_done.
  set (stb := emit (ORecord n r) (set_result n r st)).
  assert (ordered stb) as Hb by (by apply ordered_record).
  assert (is_Some (result_dict stb !! n)) as Hn
    by (subst stb; simpl; by rewrite lookup_insert_eq).
  pose proof (prune_phase_pruned r n stb Hn) as Hp.
  destruct (prune_phase re_findall llm_parameters r n stb) as [[st1 ds1] e].
  simpl in Hp. destruct Hp as (Ha & Hb1 & Hc1 & Hg & Hq).
  assert (ordered st1) as H1.
  { eapply ordered_quiet; [exact Hb| |exact Hg|exact Hq].
    intros u. destruct (decide (u = n)) as [->|Hne]; [done|].
    by rewrite Ha. }
  destruct e as [e|]; [done|]. by apply ordered_scan.
Qed.

Lemma run_batch_ordered (b : batch) st :
  ordered st → ordered (run_batch re_findall llm_parameters b st).1.
Proof.
  revert st. induction b as [|[c rp] b IH]; intros st Ho; [done|].
  cbn [run_batch].
  destruct (take_task c (pending st)) as [[t p']|]; [|done].
  destruct (task_result t rp) as [[e|[r n]]|]; [done| |done].
  pose proof (process_done_ordered r n (set_pending p' st) Ho) as Ho'.
  destruct (process_done re_findall llm_parameters r n (set_pending p' st))
    as [st' [e|]]; [done|]. by apply IH.
Qed.

Lemma start_all_ordered st :
  ordered st → ordered (start_all services llm_parameters st).
Proof.
  intros Ho. unfold start_all.
  destruct (start_tasks_frame services llm_parameters (pending st)
              (set_pending [] st)) as (Hrd & Hg & _ & Hq).
  eapply ordered_quiet; [exact Ho|by rewrite Hrd| |exact Hq].
  rewrite Hg. apply shrinks_refl.
Qed.

Lemma event_loop_ordered (script : list batch) st :
  ordered st →
  ordered (event_loop re_findall services llm_parameters script st).1.
Proof.
  revert st. induction script as [|b script IH]; intros st Ho; simpl.
  - by destruct (pending st).
  - destruct (pending st); [done|].
    pose proof (run_batch_ordered b _ (start_all_ordered st Ho)) as Ho'.
    destruct (run_batch re_findall llm_parameters b
                (start_all services llm_parameters st)) as [st' [s|]];
      [done|]. by apply IH.
Qed.

Lemma seed_ordered (template : dag) (init : payload) :
  ordered (seed template init).
Proof.
  destruct (seed_spec template init) as (Hrd & Hg & _ & Hlog & _).
  split; rewrite ?Hrd, ?Hg.
  - intros u Hu. rewrite lookup_empty in Hu. by destruct Hu.
  - intros k v l u Hk Hu.
    assert (v ∈ ind_nodes template) as Hv.
    { rewrite Hlog in Hk. destruct k as [|k]; [done|]. simpl in Hk.
      apply list_elem_of_lookup_2 in Hk.
      by apply list_elem_of_fmap in Hk as (r & [= -> _] & Hin). }
    apply ind_nodes_predecessors in Hv. rewrite Hv in Hu.
    by apply elem_of_nil in Hu.
Qed.

Lemma schedule_ordered (template : dag) (init : payload)
    (script : list batch) :
  ordered (schedule re_findall services llm_parameters template init script).1.
Proof.
  unfold schedule.
  pose proof (event_loop_ordered script _ (seed_ordered template init)) as Ho.
  destruct (event_loop re_findall services llm_parameters script
              (seed template init)) as [st s].
  destruct s; try done. simpl in *.
  eapply ordered_quiet; [exact Ho| | |].
  - by destruct (stream_flag llm_parameters).
  - destruct (stream_flag llm_parameters); apply prune_unreachable_shrinks.
  - destruct (stream_flag llm_parameters); simpl.
    + exists []. by rewrite app_nil_r.
    + eexists [_]. split; [done|]. by repeat constructor.
Qed.

End Order.

(** ** The end-to-end scenarios of the engine *)

(** Fan-in: [C] is dispatched once, after both roots, with the merged
    outputs of [A] and [B]. *)
Example fan_in_run :
  let r := schedule mini_findall fan_in_services unary_params fan_in ∅
             fan_in_script in
  r.2 = Returned
  ∧ dispatched (log r.1) = [py "A"; py "B"; py "C"]
  ∧ log r.1 !! 8%nat
    = Some (OPost (py "C") {[ py "a" := VNum 1; py "b" := VNum 2 ]})
  ∧ result_dict r.1 !! py "C" = Some (Structured {[ py "c" := VNum 3 ]})
  ∧ count_obs is_increment (log r.1) = 1%nat
  ∧ count_obs is_decrement (log r.1) = 1%nat.
Proof. vm_compute. done. Qed.

(** Black-list prune: [X] is vetoed, [Y] is dispatched. *)
Example guarded_run :
  let r := schedule mini_findall guarded_services unary_params guarded ∅
             [[(py "G", RJson (veto [py "X"]))]] in
  r.2 = Waiting
  ∧ dispatched (log r.1) = [py "G"; py "Y"]
  ∧ downstream (runtime_graph r.1) (py "G") = [py "Y"].
Proof. vm_compute. done. Qed.

(** Invalid regex: two errors are logged, both edges stay. *)
Example invalid_regex_run :
  let r := schedule mini_findall guarded_services unary_params guarded ∅
             [[(py "G", RJson (veto [py "("]))]] in
  count_obs is_log_error (log r.1) = 2%nat
  ∧ dispatched (log r.1) = [py "G"; py "X"; py "Y"]
  ∧ downstream (runtime_graph r.1) (py "G") = [py "X"; py "Y"].
Proof. vm_compute. done. Qed.

(** ** Scheduling claims *)

(** C1. Topological execution: in every state a call of [schedule] reaches,
    each node [v] whose [execute] task was created has all its predecessors
    [u] in the runtime graph present in [result_dict], and the result of [u]
    was recorded before the task of [v] was created. *)
Theorem topological_execution
    (re_findall : pystr → node → option bool)
    (services : node → option service) (llm_parameters : LLMParams)
    (template : dag) (initial_inputs : payload) (script : list batch)
    (k : nat) (v u : node) (l : loc) :
  let st := (schedule re_findall services llm_parameters template
               initial_inputs script).1 in
  log st !! k = Some (ODispatch v l) →
  u ∈ predecessors (runtime_graph st) v →
  is_Some (result_dict st !! u)
  ∧ ∃ (j : nat) r, (j < k)%nat ∧ log st !! j = Some (ORecord u r).
Proof.
  intros st Hk Hu.
  by apply (proj2 (schedule_ordered re_findall services llm_parameters
                     template initial_inputs script) k v l u).
Qed.

Lemma topological_execution_witness :
  let st := (schedule mini_findall fan_in_services unary_params fan_in
               ∅ fan_in_script).1 in
  log st !! 7%nat = Some (ODispatch (py "C") 1%nat)
  ∧ py "A" ∈ predecessors (runtime_graph st) (py "C")
  ∧ is_Some (result_dict st !! py "A")
  ∧ ∃ (j : nat) r, (j < 7)%nat ∧ log st !! j = Some (ORecord (py "A") r).
Proof.
  intros st.
  assert (log st !! 7%nat = Some (ODispatch (py "C") 1%nat)) as Hk
    by (vm_compute; reflexivity).
  assert (py "A" ∈ predecessors (runtime_graph st) (py "C")) as Hu
    by (vm_compute; set_solver).
  split; [exact Hk|]. split; [exact Hu|].
  exact (topological_execution mini_findall fan_in_services unary_params
           fan_in ∅ fan_in_script 7 (py "C") (py "A") 1%nat Hk Hu).
Defined.

Lemma fan_in_wf : dag_wf fan_in.
Proof.
  split; [|repeat constructor]; vm_compute; repeat constructor; set_solver.
Qed.

Lemma guarded_wf : dag_wf guarded.
Proof.
  split; [|repeat constructor]; vm_compute; repeat constructor; set_solver.
Qed.

(** C3. Single dispatch: in one call of [schedule], whatever the order and
    grouping of the completions, no node has [execute] called on it twice. *)
Theorem single_dispatch
    (re_findall : pystr → node → option bool)
    (services : node → option service) (llm_parameters : LLMParams)
    (template : dag) (initial_inputs : payload) (script : list batch) :
  dag_wf template →
  NoDup (dispatched (log (schedule re_findall services llm_parameters
                            template initial_inputs script).1)).
Proof.
  intros Hwf.
  apply (inv_nodup _ _ _ (schedule_Inv re_findall services llm_parameters
                            template initial_inputs script Hwf)).
Qed.

Lemma single_dispatch_witness :
  dag_wf fan_in
  ∧ dispatched (log (schedule mini_findall fan_in_services unary_params
                       fan_in ∅ fan_in_script).1) = [py "A"; py "B"; py "C"]
  ∧ NoDup (dispatched (log (schedule mini_findall fan_in_services
                              unary_params fan_in ∅ fan_in_script).1)).
Proof.
  split; [exact fan_in_wf|]. split; [vm_compute; reflexivity|].
  exact (single_dispatch mini_findall fan_in_services unary_params fan_in ∅
           fan_in_script fan_in_wf).
Defined.

Lemma readiness_scan_dispatches (ds : list node) (st : state) (d : node) (l : loc) :
  ODispatch d l ∈ log (readiness_scan ds st).1 →
  ODispatch d l ∈ log st ∨ d ∈ ds.
Proof.
  destruct (readiness_scan_spec ds st)
    as (st' & e & disp & Heq & _ & _ & Hlog & _ & Hsub & _).
  rewrite Heq. simpl. rewrite Hlog, elem_of_app. intros [?|Hin]; [by left|].
  right. apply list_elem_of_fmap in Hin as ([d' l'] & [= -> ->] & Hin).
  eapply sublist_subseteq; [exact Hsub|].
  apply list_elem_of_fmap. by exists (d', l').
Qed.

(** C2. Black-list pruning: when the structured payload [m] of a completed
    node [n] holds a black-list pattern that matches the successor [d], the
    pruning deletes the edge [(n, d)] and drops [d] from the local downstream
    view, so the readiness scan that follows does not dispatch [d]; in the
    whole call the edge stays deleted, and a [d] whose only predecessor is
    [n] never has [execute] called on it. *)
Theorem black_list_pruning
    (re_findall : pystr → node → option bool)
    (services : node → option service) (llm_parameters : LLMParams)
    (template : dag) (initial_inputs : payload) (script : list batch)
    (n d : node) (m : payload) :
  dag_wf template →
  pruned_by re_findall m d →
  (∀ st st' ds' e,
     dag_wf (runtime_graph st) →
     prune_phase re_findall llm_parameters (Structured m) n st = (st', ds', e) →
     (d ∉ ds') ∧ (d ∉ downstream (runtime_graph st') n)
     ∧ ∀ l, ODispatch d l ∈ log (readiness_scan ds' st').1 →
            ODispatch d l ∈ log st')
  ∧ (let st := (schedule re_findall services llm_parameters template
                  initial_inputs script).1 in
     ORecord n (Structured m) ∈ log st →
     (d ∉ downstream (runtime_graph st) n)
     ∧ (predecessors template d = [n] → d ∉ dispatched (log st))).
Proof.
  intros Hwf Hpr. split.
  - intros st st' ds' e Hwfst Heq.
    destruct (prune_phase_spec re_findall llm_parameters (Structured m) n st Hwfst)
      as (st1 & ds1 & e1 & Heq1 & Hds & _ & Hkept & _).
    rewrite Heq in Heq1. simplify_eq.
    assert (d ∉ downstream (runtime_graph st1) n) as Hd
      by (intros Hd; by eapply Hkept).
    split_and!; [done..|].
    intros l Hin. by apply readiness_scan_dispatches in Hin as [?|?].
  - intros st Hrec.
    pose proof (schedule_Inv re_findall services llm_parameters template
                  initial_inputs script Hwf) as HI. fold st in HI.
    split; [by eapply (inv_pruned _ _ _ HI)|].
    intros Hpred Hd.
    destruct (inv_origin _ _ _ HI d Hd) as [Hroot|(n' & m' & Hn' & Hrec' & Hnp)].
    + apply ind_nodes_predecessors in Hroot. by rewrite Hroot in Hpred.
    + rewrite Hpred in Hn'. apply list_elem_of_singleton in Hn' as ->.
      by rewrite (inv_once _ _ _ HI n m m' Hrec Hrec') in Hpr.
Qed.

Lemma black_list_pruning_witness :
  dag_wf guarded
  ∧ pruned_by mini_findall (veto [py "X"]) (py "X")
  ∧ (let st := (schedule mini_findall guarded_services unary_params guarded
                  ∅ [[(py "G", RJson (veto [py "X"]))]]).1 in
     ORecord (py "G") (Structured (veto [py "X"])) ∈ log st
     ∧ predecessors guarded (py "X") = [py "G"]
     ∧ (py "X" ∉ downstream (runtime_graph st) (py "G"))
     ∧ (py "X" ∉ dispatched (log st))).
Proof.
  assert (pruned_by mini_findall (veto [py "X"]) (py "X")) as Hpr.
  { exists (VList [py "X"]), [py "X"], (py "X").
    split_and!; [vm_compute; reflexivity|reflexivity|set_solver
                |vm_compute; reflexivity]. }
  assert (ORecord (py "G") (Structured (veto [py "X"]))
            ∈ log (schedule mini_findall guarded_services unary_params guarded
                     ∅ [[(py "G", RJson (veto [py "X"]))]]).1) as Hrec.
  { apply (list_elem_of_lookup_2 _ 3%nat). vm_compute. reflexivity. }
  assert (predecessors guarded (py "X") = [py "G"]) as Hpred
    by (vm_compute; reflexivity).
  destruct (black_list_pruning mini_findall guarded_services unary_params
              guarded ∅ [[(py "G", RJson (veto [py "X"]))]]
              (py "G") (py "X") (veto [py "X"]) guarded_wf Hpr) as [_ Hrun].
  destruct (Hrun Hrec) as [H1 H2].
  exact (conj guarded_wf (conj Hpr (conj Hrec (conj Hpred
           (conj H1 (H2 Hpred)))))).
Defined.

(** ** Black-list patterns and the stream fallback *)

Section Patterns.

Variable re_findall : pystr → node → option bool.
Variable llm_parameters : LLMParams.

Lemma log_errors_emit (k : nat) (st : state) :
  log_errors k (emit OLogError st) = log_errors (S k) st.
Proof. unfold log_errors, emit. simpl. by rewrite <- app_assoc. Qed.

Lemma log_errors_0 (st : state) : log_errors 0 st = st.
Proof. destruct st. unfold log_errors. simpl. by rewrite app_nil_r. Qed.

(** A pattern that does not compile leaves graph and view as they are and
    logs one error for each successor it is tried on. *)
Lemma prune_pattern_invalid (p : pystr) (n : node) (k : nat) (st : state)
    (ds : list node) :
  (∀ d, re_findall p d = None) → (k ≤ length ds)%nat →
  prune_pattern re_findall p n k st ds = (log_errors k st, ds).
Proof.
  intros Hinv. revert st. induction k as [|i IH]; intros st Hk; simpl.
  - by rewrite log_errors_0.
  - destruct (lookup_lt_is_Some_2 ds i) as [d Hd]; [lia|].
    rewrite Hd, Hinv, IH by lia. by rewrite log_errors_emit.
Qed.

Lemma prune_pattern_result_dict (p : pystr) (n : node) (k : nat) (st : state)
    (ds : list node) :
  result_dict (prune_pattern re_findall p n k st ds).1 = result_dict st.
Proof.
  revert st ds. induction k as [|i IH]; intros st ds; simpl; [done|].
  destruct (ds !! i) as [d|]; [|done].
  destruct (re_findall p d) as [[|]|]; by rewrite IH.
Qed.

(** With a [text] field in a streaming request the loop over the patterns
    raises nothing, and when it ends with an empty view after at least one
    pattern the result of [n] is the synthesized stream. *)
Lemma black_list_loop_fallback (n : node) (m : payload) (text : value) :
  stream_flag llm_parameters = true → m !! py "text" = Some text →
  ∀ ps st ds st' ds' e,
    black_list_loop re_findall llm_parameters ps n m st ds = (st', ds', e) →
    e = None
    ∧ (ds' = [] →
       ps ≠ [] ∨ result_dict st !! n
                 = Some (StreamingResponse (FakeStream text)) →
       result_dict st' !! n = Some (StreamingResponse (FakeStream text))).
Proof.
  intros Hstream Htext ps. induction ps as [|p ps IH];
    intros st ds st' ds' e Heq.
  - simpl in Heq. simplify_eq. split; [done|]. by intros _ [?|?].
  - cbn [black_list_loop] in Heq.
    pose proof (prune_pattern_result_dict p n (length ds) st ds) as Hrd.
    destruct (prune_pattern re_findall p n (length ds) st ds) as [st1 ds1].
    simpl in Hrd. rewrite Hstream, Htext, andb_true_r in Heq.
    case_bool_decide as Hlen.
    + apply IH in Heq as [He Hfb]. split; [done|].
      intros Hnil _. apply Hfb; [done|]. right. simpl.
      by rewrite lookup_insert_eq.
    + destruct ps as [|q ps].
      * simpl in Heq. simplify_eq. split; [done|]. intros ->. done.
      * apply IH in Heq as [He Hfb]. split; [done|].
        intros Hnil _. apply Hfb; [done|]. by left.
Qed.

End Patterns.

(** C6 (amended). A black-list pattern that is not a valid regular
    expression, met while the completed node still has a downstream node in
    its local view: one error is logged for each such node, the pattern is
    skipped (the loop goes on with the next pattern), the runtime graph and
    the local view are unchanged, and no exception is raised. *)
Theorem invalid_pattern_skipped
    (re_findall : pystr → node → option bool) (llm_parameters : LLMParams)
    (p : pystr) (rest : list pystr) (n : node) (m : payload) (st : state)
    (ds : list node) :
  (∀ d, re_findall p d = None) → ds ≠ [] →
  prune_pattern re_findall p n (length ds) st ds
    = (log_errors (length ds) st, ds)
  ∧ black_list_loop re_findall llm_parameters (p :: rest) n m st ds
    = black_list_loop re_findall llm_parameters rest n m
        (log_errors (length ds) st) ds
  ∧ black_list_loop re_findall llm_parameters [p] n m st ds
    = (log_errors (length ds) st, ds, None)
  ∧ runtime_graph (log_errors (length ds) st) = runtime_graph st
  ∧ count_obs is_log_error (log (log_errors (length ds) st))
    = (count_obs is_log_error (log st) + length ds)%nat.
Proof.
  intros Hinv Hds.
  pose proof (prune_pattern_invalid re_findall p n (length ds) st ds Hinv
                (le_n _)) as Hp.
  assert (bool_decide (length ds = 0%nat) = false) as Hlen.
  { apply bool_decide_eq_false_2. by destruct ds. }
  split_and!; [done| | |done|].
  - cbn [black_list_loop]. by rewrite Hp, Hlen.
  - cbn [black_list_loop]. by rewrite Hp, Hlen.
  - unfold count_obs, log_errors. simpl.
    rewrite List.filter_app, length_app. f_equal.
    generalize (length ds) as k.
    induction k as [|k IH]; simpl; [done|]. by f_equal.
Qed.

Lemma invalid_pattern_skipped_witness :
  (∀ d, mini_findall (py "(") d = None)
  ∧ [py "X"; py "Y"] ≠ []
  ∧ (let st := seed guarded ∅ in
     black_list_loop mini_findall streaming_params [py "("] (py "G")
       (veto [py "("]) st [py "X"; py "Y"]
     = (log_errors 2 st, [py "X"; py "Y"], None)).
Proof.
  assert (∀ d, mini_findall (py "(") d = None) as Hinv by (intros d; reflexivity).
  assert ([py "X"; py "Y"] ≠ []) as Hne by done.
  split; [exact Hinv|]. split; [exact Hne|].
  exact (proj1 (proj2 (proj2
    (invalid_pattern_skipped mini_findall streaming_params (py "(") []
       (py "G") (veto [py "("]) (seed guarded ∅) [py "X"; py "Y"] Hinv Hne)))).
Defined.

(** C6 as stated fails: for a completed node without downstream nodes the
    invalid pattern is never compiled, and no error is logged. *)
Lemma invalid_pattern_on_leaf_not_logged :
  (∀ d, mini_findall (py "(") d = None)
  ∧ (let r := schedule mini_findall fan_in_services unary_params single ∅
                [[(py "N", RJson (veto [py "("]))]] in
     r.2 = Returned ∧ count_obs is_log_error (log r.1) = 0%nat).
Proof. split; [intros d; reflexivity|]. vm_compute. done. Qed.

(** C7 (amended). When the payload of the completed node carries a black list
    with at least one pattern and a string [text], the request streams and
    no downstream node is left after the pruning, the result of the node is
    replaced by a synthesized stream that yields exactly the two events
    [data: b'<text>'] and [data: [DONE]]. *)
Theorem stream_conformance_fallback
    (re_findall : pystr → node → option bool) (llm_parameters : LLMParams)
    (n : node) (m : payload) (v : value) (p : pystr) (ps : list pystr)
    (t : pystr) (st st' : state) (e : option exn) :
  stream_flag llm_parameters = true →
  m !! py "downstream_black_list" = Some v →
  iter_patterns v = Some (p :: ps) →
  m !! py "text" = Some (VStr t) →
  prune_phase re_findall llm_parameters (Structured m) n st = (st', [], e) →
  e = None
  ∧ result_dict st' !! n = Some (StreamingResponse (FakeStream (VStr t)))
  ∧ yielded (fake_stream (VStr t)).1
    = [EvText (py "data: b" ++ [SQUOTE] ++ t ++ [SQUOTE; LF; LF]);
       EvText (py "data: [DONE]" ++ [LF; LF])]
  ∧ (fake_stream (VStr t)).2 = Finished.
Proof.
  intros Hstream Hbl Hps Htext Heq. unfold prune_phase in Heq.
  rewrite Hbl, Hps in Heq.
  destruct (black_list_loop_fallback re_findall llm_parameters n m (VStr t)
              Hstream Htext _ _ _ _ _ _ Heq) as [He Hfb].
  split_and!; [done| |done..]. apply Hfb; [done|]. by left.
Qed.

Lemma stream_conformance_fallback_witness :
  let st := emit (ORecord (py "G") (Structured (veto [py ".*"])))
              (set_result (py "G") (Structured (veto [py ".*"]))
                 (seed guarded ∅)) in
  ∃ st',
    prune_phase mini_findall streaming_params (Structured (veto [py ".*"]))
      (py "G") st = (st', [], None)
    ∧ result_dict st' !! py "G"
      = Some (StreamingResponse (FakeStream (VStr (py "ok")))).
Proof.
  intros st.
  destruct (prune_phase mini_findall streaming_params
              (Structured (veto [py ".*"])) (py "G") st)
    as [[st' ds'] e] eqn:Heq.
  assert (ds' = []) as -> by (vm_compute in Heq; by simplify_eq).
  destruct (stream_conformance_fallback mini_findall streaming_params (py "G")
              (veto [py ".*"]) (VList [py ".*"]) (py ".*") [] (py "ok") st st' e
              eq_refl eq_refl eq_refl eq_refl Heq) as (-> & Hrd & _).
  by exists st'.
Defined.

(** C7 as stated fails: a leaf whose payload has a [text] field but no black
    list keeps its structured result in a streaming request. *)
Lemma no_fallback_without_black_list :
  let m : payload := {[ py "text" := VStr (py "ok") ]} in
  let r := schedule mini_findall fan_in_services streaming_params single ∅
             [[(py "N", RJson m)]] in
  r.2 = Returned
  ∧ downstream (runtime_graph r.1) (py "N") = []
  ∧ result_dict r.1 !! py "N" = Some (Structured m).
Proof. vm_compute. done. Qed.

(** ** Framing, the stitcher and the pending gauge *)

(** C5 (amended). Round-trip framing for plain tokens: for a token made of
    printable ASCII characters other than the backslash that does not hold
    both kinds of quote, [extract_chunk_str] gives the token back from the
    event [token_generator] yields for it. *)
Theorem frame_roundtrip_plain (t : pystr) :
  Forall plain t → ¬ (SQUOTE ∈ t ∧ DQUOTE ∈ t) →
  ∃ f, frame t = Some f ∧ extract_chunk_str f = t.
Proof.
  intros Hp Hq. destruct (frame_plain t Hp Hq) as (q & Hqq & Hf).
  eexists. split; [exact Hf|]. by apply extract_framed.
Qed.

Lemma frame_roundtrip_plain_witness :
  Forall plain (py "it's") ∧ ¬ (SQUOTE ∈ py "it's" ∧ DQUOTE ∈ py "it's")
  ∧ ∃ f, frame (py "it's") = Some f ∧ extract_chunk_str f = py "it's".
Proof.
  assert (Forall plain (py "it's")) as Hp.
  { change (py "it's") with [105; 116; 39; 115].
    repeat constructor; unfold BACKSLASH; lia. }
  assert (¬ (SQUOTE ∈ py "it's" ∧ DQUOTE ∈ py "it's")) as Hq.
  { intros [_ H]. change (py "it's") with [105; 116; 39; 115] in H.
    unfold DQUOTE in H. set_solver. }
  exact (conj Hp (conj Hq (frame_roundtrip_plain (py "it's") Hp Hq))).
Defined.

(** C5 as stated fails: the token "é" does not contain [[DONE]], and its
    event carries the escaped bytes of its UTF-8 encoding, which
    [extract_chunk_str] returns as they are. *)
Lemma frame_roundtrip_fails_non_ascii :
  contains (py "[DONE]") [0xE9] = false
  ∧ ∃ f, frame [0xE9] = Some f
         ∧ extract_chunk_str f = py "\xc3\xa9"
         ∧ extract_chunk_str f ≠ [0xE9].
Proof.
  split; [reflexivity|]. eexists. split; [reflexivity|].
  split; [reflexivity|]. vm_compute. discriminate.
Qed.

Section StitcherFacts.

Variable reply_to : nat → payload → option payload.

Lemma token_events_ok (tokens : list pystr) (evs : list pystr) (first : bool)
    (gs : gen_state) :
  mapM frame tokens = Some evs →
  ∃ gs', token_events tokens first gs = (gs', None)
         ∧ yielded gs' = yielded gs ++ (EvText <$> evs)
         ∧ posted gs' = posted gs
         ∧ buffered_chunk_str gs' = buffered_chunk_str gs.
Proof.
  revert evs first gs. induction tokens as [|tk tokens IH];
    intros evs first gs Hm.
  - injection Hm as <-. exists gs. simpl. by rewrite app_nil_r.
  - simpl in Hm. destruct (frame tk) as [ev|] eqn:Hf; [|done]. simpl in Hm.
    destruct (mapM frame tokens) as [evs'|] eqn:Hm'; [|done].
    injection Hm as <-. cbn [token_events]. rewrite Hf.
    destruct (IH evs' false (yield (EvText ev) (observe (OToken first) gs))
                eq_refl) as (gs' & Heq & Hy & Hp & Hb).
    exists gs'. split_and!; [done| |done..].
    rewrite Hy. simpl. by rewrite <- app_assoc.
Qed.

(** C9 (amended). In forward-through-downstream mode a non-empty chunk that
    decodes leads to a flush, the post of the buffer as [{"text": B}],
    exactly when the buffer ends with a terminator or the chunk ends with
    [[DONE]\n\n]; otherwise the chunk is only buffered.  On a flush whose
    reply has a string [text], its tokens are re-emitted as framed events,
    followed by [data: [DONE]] when the chunk is the last.  For the five
    tokens "Hi", " there", ".", " How", "?" followed by the [[DONE]] event,
    three flushes occur, posting "Hi there.", " How?" and the empty buffer,
    and the final event is [data: [DONE]]. *)
Theorem stitcher_flush_discipline (chunk : pybytes) (c : pystr)
    (gs : gen_state) :
  chunk ≠ [] → utf8_decode chunk = Some c →
  let B := buffered_chunk_str gs ++ extract_chunk_str c in
  let is_last := endswith (py "[DONE]" ++ [LF; LF]) c in
  let flush := (∃ x, last B = Some x ∧ x ∈ hitted_ends) ∨ is_last = true in
  let body : payload := {[ py "text" := VStr B ]} in
  let r := generate_step reply_to true chunk gs in
  (flush → posted r.1 = posted gs ++ [body])
  ∧ (¬ flush → r = (set_buffer B gs, None))
  ∧ (flush → ∀ res s evs,
       reply_to (length (posted gs)) body = Some res →
       res !! py "text" = Some (VStr s) →
       mapM frame (findall_tokens None s) = Some evs →
       r.2 = None
       ∧ buffered_chunk_str r.1 = []
       ∧ yielded r.1 = yielded gs ++ (EvText <$> evs)
                       ++ (if is_last then [EvText DONE_EVENT] else []))
  ∧ (let s := generate echo true five_tokens in
     posted s.1 = [ {[ py "text" := VStr (py "Hi there.") ]};
                    {[ py "text" := VStr (py " How?") ]};
                    {[ py "text" := VStr [] ]} ]
     ∧ last (yielded s.1) = Some (EvText DONE_EVENT)
     ∧ s.2 = Finished).
Proof.
  intros Hne Hdec B is_last flush body r.
  assert (must_flush B is_last = true ↔ flush) as Hflush.
  { unfold must_flush, flush. rewrite orb_true_iff.
    destruct (last B) as [x|]; [rewrite bool_decide_eq_true|]; naive_solver. }
  assert (∀ gs1 o, generate_step reply_to true chunk gs = (gs1, o) →
            r = (gs1, o)) as Hr by (intros ?? H; exact H).
  unfold generate_step in Hr. destruct chunk as [|b0 chunk]; [done|].
  rewrite Hdec in Hr. cbn [buffered_chunk_str set_buffer] in Hr.
  fold B is_last in Hr.
  split_and!.
  - intros Hf. apply Hflush in Hf. rewrite Hf in Hr. fold body in Hr.
    destruct (reply_to _ _) as [res|]; [|by rewrite (Hr _ _ eq_refl)].
    destruct (res !! py "text") as [txt|]; [|by rewrite (Hr _ _ eq_refl)].
    destruct (token_generator _ _ _ _) as [gs1 o] eqn:Htg.
    assert (posted gs1 = posted gs ++ [body]) as Hp.
    { unfold token_generator in Htg. destruct txt as [| | |s|]; simplify_eq; try done.
      assert (∀ tokens first g0 g1 o1,
                token_events tokens first g0 = (g1, o1) →
                posted g1 = posted g0) as Hte.
      { induction tokens as [|tk tokens IH]; intros first g0 g1 o1 Hte;
          simpl in Hte; [by simplify_eq|].
        destruct (frame tk); [|by simplify_eq].
        by apply IH in Hte. }
      destruct (token_events _ _ _) as [g1 [e1|]] eqn:Hev; simplify_eq;
        apply Hte in Hev; [done|]. by destruct is_last. }
    destruct o; rewrite (Hr _ _ eq_refl); done.
  - intros Hf. destruct (must_flush B is_last) eqn:Hm.
    + destruct Hf. by apply Hflush.
    + by apply Hr.
  - intros Hf res s evs Hres Htxt Hevs. apply Hflush in Hf.
    rewrite Hf in Hr. fold body in Hr.
    replace (length (posted (set_buffer B gs))) with (length (posted gs))
      in Hr by done.
    rewrite Hres, Htxt in Hr. unfold token_generator in Hr.
    destruct (token_events_ok _ _ (is_first (post body (set_buffer B gs)))
                (set_buffer [] (post body (set_buffer B gs))) Hevs)
      as (gs' & Heq & Hy & Hp & Hb).
    rewrite Heq in Hr. rewrite (Hr _ _ eq_refl). simpl.
    destruct is_last; simpl; rewrite ?Hy, ?Hb; simpl;
      by rewrite ?app_nil_r, <- ?app_assoc.
  - vm_compute. done.
Qed.

End StitcherFacts.

Lemma stitcher_flush_discipline_witness :
  let chunk := ascii_bytes (py "data: b" ++ [SQUOTE] ++ py "Hi."
                            ++ [SQUOTE; LF; LF]) in
  let c := py "data: b" ++ [SQUOTE] ++ py "Hi." ++ [SQUOTE; LF; LF] in
  chunk ≠ [] ∧ utf8_decode chunk = Some c
  ∧ posted (generate_step echo true chunk gen_init).1
    = [ {[ py "text" := VStr (py "Hi.") ]} ].
Proof.
  intros chunk c.
  assert (chunk ≠ []) as Hne by done.
  assert (utf8_decode chunk = Some c) as Hdec by (vm_compute; reflexivity).
  split; [exact Hne|]. split; [exact Hdec|].
  refine (proj1 (stitcher_flush_discipline echo chunk c gen_init Hne Hdec) _).
  left. exists 46. split; [vm_compute; reflexivity|].
  unfold hitted_ends. set_solver.
Defined.

(** C9 as stated fails: the [[DONE]] chunk triggers a third flush. *)
Lemma five_tokens_flush_three_times :
  length (posted (generate echo true five_tokens).1) = 3%nat
  ∧ (generate echo true five_tokens).2 = Finished.
Proof. vm_compute. done. Qed.

(** C8. A reply without [text] stops the stream with an exception before
    anything is yielded, and the lines that update the request and pending
    metrics are not reached. *)
Theorem missing_text_reply_skips_pending_update :
  let r := generate no_text true one_sentence in
  r.2 = GenRaised NotSupported
  ∧ yielded r.1 = []
  ∧ posted r.1 = [ {[ py "text" := VStr (py "Hi.") ]} ]
  ∧ count_obs is_decrement (glog r.1) = 0%nat.
Proof. vm_compute. done. Qed.

(** C4. A streaming request answered by the stream-conformance fallback:
    [schedule] returns with the gauge incremented once and never
    decremented, and reading the synthesized stream to its end makes no
    metric call. *)
Theorem fake_stream_leaves_gauge_unbalanced :
  let r := schedule mini_findall guarded_services streaming_params guarded ∅
             [[(py "G", RJson (veto [py ".*"]))]] in
  r.2 = Returned
  ∧ count_obs is_increment (log r.1) = 1%nat
  ∧ count_obs is_decrement (log r.1) = 0%nat
  ∧ map_to_list (result_dict r.1)
    = [(py "G", StreamingResponse (FakeStream (VStr (py "ok"))))]
  ∧ (fake_stream (VStr (py "ok"))).2 = Finished
  ∧ glog (fake_stream (VStr (py "ok"))).1 = [].
Proof. vm_compute. done. Qed.

(** ** The inputs mapping *)

(** C10. [execute] on an LLM or LVM node writes the overlay of
    [llm_parameters] into the very mapping its [inputs] argument refers to
    and touches no other mapping; [schedule] hands the caller's
    [initial_inputs] mapping itself to every root task; hence, once such a
    root has started, the caller's mapping is the overlaid one, and a root of
    another kind that starts after it sends the overlaid mapping as its
    request body. *)
Theorem execute_overlays_in_place
    (services : node → option service) (llm_parameters : LLMParams)
    (cur_node : node) (svc : service) (inputs : loc) (m : payload)
    (st : state) :
  services cur_node = Some svc → is_llm_vlm svc = true →
  heap st !! inputs = Some m →
  let st' := (execute_start services llm_parameters cur_node inputs st).1 in
  heap st' !! inputs = Some (overlay m (llm_dict llm_parameters))
  ∧ (∀ l, l ≠ inputs → heap st' !! l = heap st !! l)
  ∧ (∀ template initial_inputs,
       heap (seed template initial_inputs) !! INITIAL = Some initial_inputs
       ∧ pending (seed template initial_inputs)
         = (λ r, Created r INITIAL) <$> ind_nodes template)
  ∧ (∀ other svc',
       services other = Some svc' → is_llm_vlm svc' = false →
       truthy (api_key_value svc') = false →
       ∃ st'',
         execute_start services llm_parameters other inputs st'
         = (emit (OPost other (overlay m (llm_dict llm_parameters))) st'',
            Awaiting other)
         ∧ heap st'' = heap st').
Proof.
  intros Hsvc Hllm Hm st'.
  assert (heap st' = <[inputs := overlay m (llm_dict llm_parameters)]> (heap st))
    as Hheap.
  { subst st'. unfold execute_start. rewrite Hsvc, Hm, Hllm.
    by repeat case_match. }
  clearbody st'. split_and!.
  - by rewrite Hheap, lookup_insert_eq.
  - intros l Hl. by rewrite Hheap, lookup_insert_ne.
  - intros template initial_inputs.
    destruct (seed_spec template initial_inputs) as (_ & _ & Hp & _ & Hh).
    split; [|done]. by rewrite Hh, lookup_singleton_eq.
  - intros other svc' Hsvc' Hllm' Hkey.
    assert (heap st' !! inputs = Some (overlay m (llm_dict llm_parameters)))
      as Hl by (by rewrite Hheap, lookup_insert_eq).
    unfold execute_start. rewrite Hsvc', Hl, Hllm', Hkey. simpl.
    eexists. split; [done|]. simpl. by apply insert_id.
Qed.

Lemma execute_overlays_in_place_witness :
  let st := seed two_roots {[ py "query" := VStr (py "hi") ]} in
  let st' := (execute_start two_roots_services streaming_params (py "LLM")
                INITIAL st).1 in
  two_roots_services (py "LLM") = Some (plain_service LLM)
  ∧ is_llm_vlm (plain_service LLM) = true
  ∧ heap st !! INITIAL = Some {[ py "query" := VStr (py "hi") ]}
  ∧ heap st' !! INITIAL
    = Some (overlay {[ py "query" := VStr (py "hi") ]}
              (llm_dict streaming_params))
  ∧ overlay {[ py "query" := VStr (py "hi") ]} (llm_dict streaming_params)
    = {[ py "query" := VStr (py "hi"); py "stream" := VBool true ]}.
Proof.
  intros st st'.
  assert (two_roots_services (py "LLM") = Some (plain_service LLM)) as H1
    by reflexivity.
  assert (is_llm_vlm (plain_service LLM) = true) as H2 by reflexivity.
  assert (heap st !! INITIAL = Some {[ py "query" := VStr (py "hi") ]}) as H3
    by (vm_compute; reflexivity).
  refine (conj H1 (conj H2 (conj H3 (conj
    (proj1 (execute_overlays_in_place two_roots_services streaming_params
              (py "LLM") (plain_service LLM) INITIAL _ st H1 H2 H3)) _)))).
  vm_compute. reflexivity.
Defined.

(** The second root of the same request, an embedder started after the LLM
    root, sends the caller's mapping with the LLM parameters written into
    it. *)
Example other_root_posts_overlaid_inputs :
  log (start_all two_roots_services streaming_params
         (seed two_roots {[ py "query" := VStr (py "hi") ]})) !! 4%nat
  = Some (OPost (py "EMB")
            {[ py "query" := VStr (py "hi"); py "stream" := VBool true ]}).
Proof. vm_compute. reflexivity. Qed.

(** * Further properties *)

(** ** What a request does to the gauge, the graph and the results *)

Section LoopSteps.

Variable re_findall : pystr → node → option bool.
Variable services : node → option service.
Variable llm_parameters : LLMParams.

Implicit Types (n d u c : node) (ds : list node) (st : state).

Lemma loop_step_refl st : loop_step st st.
Proof.
  split_and!; [apply shrinks_refl|done|]. exists []. by rewrite app_nil_r.
Qed.

Lemma loop_step_trans st1 st2 st3 :
  loop_step st1 st2 → loop_step st2 st3 → loop_step st1 st3.
Proof.
  intros (Hg1 & Hr1 & q1 & Hl1 & Hq1) (Hg2 & Hr2 & q2 & Hl2 & Hq2).
  split_and!; [by eapply shrinks_trans|auto|].
  exists (q2 ++ q1). rewrite Hl1, Hl2, app_assoc. split; [done|].
  by apply Forall_app.
Qed.

Lemma loop_step_emit (o : obs) st : loop_event o → loop_step (emit o st) st.
Proof.
  intros Ho. split_and!; [apply shrinks_refl|done|].
  exists [o]. split; [done|]. by constructor.
Qed.

Lemma prune_pattern_loop_step (p : pystr) n (k : nat) st ds :
  loop_step (prune_pattern re_findall p n k st ds).1 st.
Proof.
  revert st ds. induction k as [|i IH]; intros st ds; simpl;
    [apply loop_step_refl|].
  destruct (ds !! i) as [d|]; [|apply loop_step_refl].
  destruct (re_findall p d) as [[|]|].
  - eapply loop_step_trans; [apply IH|].
    split_and!; [apply delete_edge_shrinks|done|].
    exists []. by rewrite app_nil_r.
  - apply IH.
  - eapply loop_step_trans; [apply IH|]. by apply loop_step_emit.
Qed.

Lemma set_result_loop_step n (r : response) st :
  loop_step (set_result n r st) st.
Proof.
  split_and!; [apply shrinks_refl| |exists []; by rewrite app_nil_r].
  intros u Hu. simpl. destruct (decide (u = n)) as [->|Hne];
    [by rewrite lookup_insert_eq|by rewrite lookup_insert_ne].
Qed.

Lemma black_list_loop_loop_step (ps : list pystr) n (m : payload) st ds :
  loop_step (black_list_loop re_findall llm_parameters ps n m st ds).1.1 st.
Proof.
  revert st ds. induction ps as [|p ps IH]; intros st ds;
    [apply loop_step_refl|].
  cbn [black_list_loop].
  pose proof (prune_pattern_loop_step p n (length ds) st ds) as H1.
  destruct (prune_pattern re_findall p n (length ds) st ds) as [st1 ds1].
  simpl in H1.
  destruct (bool_decide (length ds1 = 0%nat) && stream_flag llm_parameters).
  - destruct (m !! py "text") as [text|]; [|done].
    eapply loop_step_trans; [apply IH|].
    eapply loop_step_trans; [apply set_result_loop_step|done].
  - eapply loop_step_trans; [apply IH|done].
Qed.

Lemma prune_phase_loop_step (r : response) n st :
  loop_step (prune_phase re_findall llm_parameters r n st).1.1 st.
Proof.
  unfold prune_phase. destruct r as [m|b|s]; try apply loop_step_refl.
  destruct (m !! py "downstream_black_list") as [v|];
    [|apply loop_step_refl].
  destruct (iter_patterns v) as [ps|]; [|apply loop_step_refl].
  apply black_list_loop_loop_step.
Qed.

Lemma readiness_scan_loop_step ds st : loop_step (readiness_scan ds st).1 st.
Proof.
  destruct (readiness_scan_spec ds st)
    as (st' & e & disp & Heq & Hrd & Hg & Hlog & _).
  rewrite Heq. simpl. split_and!.
  - rewrite Hg. apply shrinks_refl.
  - by rewrite Hrd.
  - eexists. split; [exact Hlog|]. apply Forall_fmap, Forall_forall.
    by intros [??] _.
Qed.

Lemma process_done_loop_step (r : response) n st :
  loop_step (process_done re_findall llm_parameters r n st).1 st.
Proof.
  unfold process_done.
  set (stb := emit (ORecord n r) (set_result n r st)).
  assert (loop_step stb st) as Hb.
  { eapply loop_step_trans; [by apply loop_step_emit|].
    apply set_result_loop_step. }
  pose proof (prune_phase_loop_step r n stb) as Hp.
  destruct (prune_phase re_findall llm_parameters r n stb) as [[st1 ds1] e].
  simpl in Hp. destruct e as [e|]; simpl.
  - by eapply loop_step_trans.
  - eapply loop_step_trans; [apply readiness_scan_loop_step|].
    by eapply loop_step_trans.
Qed.

Lemma execute_start_loop_step c (l : loc) st :
  loop_step (execute_start services llm_parameters c l st).1 st.
Proof.
  unfold execute_start.
  destruct (services c) as [svc|]; [|apply loop_step_refl].
  destruct (heap st !! l) as [m|]; [|apply loop_step_refl].
  repeat case_match; simpl;
    first [apply loop_step_refl
          | split_and!; [apply shrinks_refl|done|];
            first [ by exists []; rewrite app_nil_r
                  | eexists [_]; split; [done|]; by repeat constructor ]].
Qed.

Lemma set_pending_loop_step (p : list task) st st0 :
  loop_step st st0 → loop_step (set_pending p st) st0.
Proof. done. Qed.

Lemma start_tasks_loop_step (todo : list task) st :
  loop_step (start_tasks services llm_parameters todo st) st.
Proof.
  revert st. induction todo as [|t todo IH]; intros st;
    [apply loop_step_refl|].
  destruct t as [c l|c|c ds|c e]; simpl;
    try (eapply loop_step_trans; [apply IH|];
         apply set_pending_loop_step, loop_step_refl).
  pose proof (execute_start_loop_step c l st) as Hx.
  destruct (execute_start services llm_parameters c l st) as [st1 t].
  eapply loop_step_trans; [apply IH|]. by apply set_pending_loop_step.
Qed.

Lemma start_all_loop_step st :
  loop_step (start_all services llm_parameters st) st.
Proof.
  unfold start_all. eapply loop_step_trans; [apply start_tasks_loop_step|].
  apply set_pending_loop_step, loop_step_refl.
Qed.

Lemma run_batch_loop_step (b : batch) st :
  loop_step (run_batch re_findall llm_parameters b st).1 st.
Proof.
  revert st. induction b as [|[c rp] b IH]; intros st; simpl;
    [apply loop_step_refl|].
  destruct (take_task c (pending st)) as [[t p']|]; [|apply loop_step_refl].
  destruct (task_result t rp) as [[e|[r n]]|]; simpl;
    [apply set_pending_loop_step, loop_step_refl| |apply loop_step_refl].
  pose proof (process_done_loop_step r n (set_pending p' st)) as Hd.
  destruct (process_done re_findall llm_parameters r n (set_pending p' st))
    as [st' [e|]]; simpl in *; [done|].
  eapply loop_step_trans; [apply IH|done].
Qed.

Lemma event_loop_loop_step (script : list batch) st :
  loop_step (event_loop re_findall services llm_parameters script st).1 st.
Proof.
  revert st. induction script as [|b script IH]; intros st; simpl.
  { destruct (pending st); apply loop_step_refl. }
  destruct (pending st) as [|t p]; [apply loop_step_refl|].
  pose proof (run_batch_loop_step b (start_all services llm_parameters st))
    as Hb.
  destruct (run_batch re_findall llm_parameters b
              (start_all services llm_parameters st)) as [st' [s|]];
    simpl in *.
  - eapply loop_step_trans; [done|apply start_all_loop_step].
  - eapply loop_step_trans; [apply IH|].
    eapply loop_step_trans; [done|apply start_all_loop_step].
Qed.

(** The loop never answers [Returned]: only [schedule] does. *)
Lemma run_batch_status (b : batch) st s :
  (run_batch re_findall llm_parameters b st).2 = Some s → s ≠ Returned.
Proof.
  revert st. induction b as [|[c rp] b IH]; intros st; simpl; [done|].
  destruct (take_task c (pending st)) as [[t p']|]; [|by intros [= <-]].
  destruct (task_result t rp) as [[e|[r n]]|]; simpl;
    try by intros [= <-].
  destruct (process_done re_findall llm_parameters r n (set_pending p' st))
    as [st' [e|]]; simpl; [by intros [= <-]|]. apply IH.
Qed.

Lemma event_loop_status (script : list batch) st :
  (event_loop re_findall services llm_parameters script st).2 ≠ Returned.
Proof.
  revert st. induction script as [|b script IH]; intros st; simpl.
  { by destruct (pending st). }
  destruct (pending st) as [|t p]; [done|].
  pose proof (run_batch_status b (start_all services llm_parameters st))
    as Hb.
  destruct (run_batch re_findall llm_parameters b
              (start_all services llm_parameters st)) as [st' [s|]];
    simpl in *; [by apply Hb|apply IH].
Qed.

Lemma seed_log (T : dag) (m : payload) :
  runtime_graph (seed T m) = T ∧ result_dict (seed T m) = ∅
  ∧ ∃ q, log (seed T m) = OPending true :: q ∧ Forall loop_event q.
Proof.
  unfold seed. generalize (ind_nodes T) as rs.
  intros rs. induction rs as [|r rs IH] using rev_ind; simpl.
  { split_and!; [done..|]. by exists []. }
  rewrite foldl_app. simpl. destruct IH as (Hg & Hr & q & Hl & Hq).
  split_and!; [done..|]. exists (q ++ [ODispatch r INITIAL]).
  rewrite Hl. split; [done|]. apply Forall_app. split; [done|].
  by repeat constructor.
Qed.

Lemma count_obs_app (f : obs → bool) (l1 l2 : list obs) :
  count_obs f (l1 ++ l2) = (count_obs f l1 + count_obs f l2)%nat.
Proof. unfold count_obs. by rewrite List.filter_app, length_app. Qed.

Lemma count_obs_loop_events (f : obs → bool) (q : list obs) :
  (∀ o, loop_event o → f o = false) → Forall loop_event q → count_obs f q = 0%nat.
Proof.
  intros Hf. unfold count_obs. induction 1 as [|o q Ho _ IH]; [done|].
  simpl. by rewrite Hf.
Qed.

End LoopSteps.

Section RequestFacts.

Variable re_findall : pystr → node → option bool.
Variable services : node → option service.
Variable llm_parameters : LLMParams.

#[local] Abbreviation schedule := (schedule re_findall services llm_parameters).

(** X1 ([schedule], lines 128-204).  Whatever the graph, the inputs and the
    completions, a call of [schedule] increments the pending-requests gauge
    exactly once, and decrements it at most once: exactly when the call
    returns and the request does not stream.  A call that raises, or that is
    still waiting, has not decremented the gauge. *)
Theorem schedule_gauge_accounting (T : dag) (init : payload)
    (script : list batch) :
  let r := schedule T init script in
  count_obs is_increment (log r.1) = 1%nat
  ∧ count_obs is_decrement (log r.1)
    = match r.2 with
      | Returned => if stream_flag llm_parameters then 0%nat else 1%nat
      | _ => 0%nat
      end.
Proof.
  intros r. subst r. unfold Engine.schedule.
  pose proof (event_loop_loop_step re_findall services llm_parameters script
                (seed T init)) as (_ & _ & q & Hl & Hq).
  pose proof (event_loop_status re_findall services llm_parameters script
                (seed T init)) as Hs.
  destruct (seed_log T init) as (_ & _ & q0 & Hl0 & Hq0).
  destruct (event_loop re_findall services llm_parameters script (seed T init))
    as [st s]. simpl in Hl, Hs.
  assert (count_obs is_increment (log st) = 1%nat
          ∧ count_obs is_decrement (log st) = 0%nat) as [Hi Hd].
  { rewrite Hl, Hl0. change (OPending true :: q0) with ([OPending true] ++ q0).
    rewrite !count_obs_app.
    rewrite (count_obs_loop_events is_increment q),
      (count_obs_loop_events is_increment q0),
      (count_obs_loop_events is_decrement q),
      (count_obs_loop_events is_decrement q0); try done;
      by intros []. }
  destruct s; simpl; try done.
  destruct (stream_flag llm_parameters); simpl; [done|].
  rewrite !count_obs_app, Hi, Hd. done.
Qed.

(** X2 ([schedule], lines 128-204).  The runtime graph a call of [schedule]
    ends with, whether it returns, raises or waits, has no edge that the
    orchestrator's graph lacks: pruning only removes. *)
Theorem schedule_graph_only_shrinks (T : dag) (init : payload)
    (script : list batch) :
  shrinks (runtime_graph (schedule T init script).1) T.
Proof.
  unfold Engine.schedule.
  pose proof (event_loop_loop_step re_findall services llm_parameters script
                (seed T init)) as (Hg & _).
  destruct (seed_log T init) as (Hg0 & _). rewrite Hg0 in Hg.
  destruct (event_loop re_findall services llm_parameters script (seed T init))
    as [st s]. simpl in Hg.
  assert (shrinks (prune_unreachable (ind_nodes T) (runtime_graph st)) T).
  { eapply shrinks_trans; [apply prune_unreachable_shrinks|done]. }
  destruct s; simpl; try done.
  by destruct (stream_flag llm_parameters).
Qed.

End RequestFacts.

(** ** A stream as the result of a node *)

Section DoneFacts.

Variable re_findall : pystr → node → option bool.
Variable llm_parameters : LLMParams.

Implicit Types (n d u c : node) (ds : list node) (st : state).

(** [process_outputs] raises a [KeyError] only for a missing result. *)
Lemma process_outputs_from_error (acc : payload) (prev : list node)
    (rd : gmap node response) (e : exn) :
  process_outputs_from acc prev rd = inl e →
  e = TypeError ∨ (e = KeyError ∧ ∃ i, i ∈ prev ∧ rd !! i = None).
Proof.
  revert acc. induction prev as [|p prev IH]; intros acc; simpl; [done|].
  destruct (rd !! p) as [r|] eqn:Hp.
  - destruct r as [m|[|b bs]|s]; simpl; try (intros [= <-]; by left).
    + intros H. destruct (IH _ H) as [?|[? (i & ? & ?)]]; [by left|].
      right. split; [done|]. exists i. split; [by right|done].
    + intros H. destruct (IH _ H) as [?|[? (i & ? & ?)]]; [by left|].
      right. split; [done|]. exists i. split; [by right|done].
  - intros [= <-]. right. split; [done|]. exists p. split; [by left|done].
Qed.

Lemma all_finished_spec st d :
  all_finished st d = true
  ↔ ∀ i, i ∈ predecessors (runtime_graph st) d → is_Some (result_dict st !! i).
Proof.
  unfold all_finished. rewrite forallb_forall. split.
  - intros H i Hi. eapply bool_decide_eq_true_1, H.
    by apply list_elem_of_In.
  - intros H i Hi. apply bool_decide_eq_true_2, H. by apply list_elem_of_In.
Qed.

(** The scan over successors that all have a stream among the results of
    their predecessors. *)
Lemma readiness_scan_blocked ds st :
  (∀ d, d ∈ ds → ∃ i s, i ∈ predecessors (runtime_graph st) d
                        ∧ result_dict st !! i = Some (StreamingResponse s)) →
  ∃ e, readiness_scan ds st = (st, e)
       ∧ (e = None ∨ e = Some TypeError)
       ∧ (e = Some TypeError ↔ ∃ d, d ∈ ds ∧ all_finished st d = true).
Proof.
  induction ds as [|d ds IH]; intros Hds; simpl.
  { exists None. split_and!; [done|by left|].
    split; [done|]. intros (d & Hd & _). by apply elem_of_nil in Hd. }
  destruct (all_finished st d) eqn:Hfin.
  - destruct (Hds d) as (i & s & Hi & Hs); [by left|].
    destruct (process_outputs _ _) as [e|out] eqn:Hpo.
    + exists (Some e). apply process_outputs_from_error in Hpo.
      destruct Hpo as [->|[-> (j & Hj & Hnone)]].
      * split_and!; [done|by right|]. split; [|done].
        intros _. exists d. split; [by left|done].
      * destruct (proj1 (all_finished_spec st d) Hfin j Hj) as [? Hsome].
        congruence.
    + eapply process_outputs_from_ok in Hpo as (r & Hr & Hdict); [|exact Hi].
      rewrite Hs in Hr. by injection Hr as <-.
  - destruct IH as (e & Heq & He & Hiff).
    { intros d' Hd'. apply Hds. by right. }
    exists e. split_and!; [done..|]. rewrite Hiff. split.
    + intros (d' & Hd' & Hf). exists d'. split; [by right|done].
    + intros (d' & Hd' & Hf). apply elem_of_cons in Hd' as [->|Hd'];
        [congruence|]. by exists d'.
Qed.

(** X3 ([schedule], lines 152-189; [process_outputs], lines 206-212).  When
    the result recorded for a node is a stream, no successor of the node is
    dispatched: the pending set and the heap stay as they are, and the only
    exception the step can raise is a [TypeError], raised exactly when some
    successor has all its predecessors finished (its inputs would have to be
    merged from the stream). *)
Theorem stream_result_is_not_forwarded (s : stream) n st :
  let r := process_done re_findall llm_parameters (StreamingResponse s) n st in
  let recorded := set_result n (StreamingResponse s) st in
  pending r.1 = pending st ∧ heap r.1 = heap st
  ∧ log r.1 = log st ++ [ORecord n (StreamingResponse s)]
  ∧ result_dict r.1 = <[n := StreamingResponse s]> (result_dict st)
  ∧ (r.2 = None ∨ r.2 = Some TypeError)
  ∧ (r.2 = Some TypeError
     ↔ ∃ d, d ∈ downstream (runtime_graph st) n
            ∧ all_finished recorded d = true).
Proof.
  intros r recorded. subst r. unfold process_done. simpl.
  set (stb := emit _ _).
  destruct (readiness_scan_blocked (downstream (runtime_graph st) n) stb)
    as (e & Heq & He & Hiff).
  { intros d Hd. exists n, s. split.
    - by apply downstream_predecessors.
    - simpl. by rewrite lookup_insert_eq. }
  change (runtime_graph stb) with (runtime_graph st).
  rewrite Heq. simpl. split_and!; done.
Qed.

End DoneFacts.

(** ** [process_outputs] *)

Section OutputFacts.

Implicit Types (rd : gmap node response) (prev : list node).

Lemma dict_update_lookup (acc out : payload) (r : response) (k : pystr) :
  dict_update acc r = inr out →
  out !! k = match as_dict r !! k with Some v => Some v | None => acc !! k end.
Proof.
  destruct r as [m|[|b bs]|s]; simpl; intros [= <-]; [|done].
  rewrite lookup_union. destruct (m !! k), (acc !! k); done.
Qed.

Lemma process_outputs_from_lookup (acc out : payload) prev rd k v :
  process_outputs_from acc prev rd = inr out →
  out !! k = Some v
  ↔ last_writer rd prev k v
    ∨ (acc !! k = Some v
       ∧ ∀ q r', q ∈ prev → rd !! q = Some r' → as_dict r' !! k = None).
Proof.
  revert acc. induction prev as [|p prev IH]; intros acc; simpl.
  { intros [= <-]. split.
    - intros H. right. split; [done|]. intros q r' Hq. by apply elem_of_nil in Hq.
    - intros [(l1 & p & l2 & r & Heq & _)|[H _]]; [|done].
      by destruct l1. }
  destruct (rd !! p) as [r|] eqn:Hp; [|done].
  destruct (dict_update acc r) as [e|acc'] eqn:Hu; [done|].
  intros Hout. rewrite (IH _ Hout).
  pose proof (dict_update_lookup _ _ _ k Hu) as Hk. split.
  - intros [(l1 & p' & l2 & r' & -> & Hr' & Hv & Hlast)|[Hacc Hnone]].
    + left. exists (p :: l1), p', l2, r'. done.
    + rewrite Hk in Hacc. destruct (as_dict r !! k) as [v'|] eqn:Hv.
      * left. exists [], p, prev, r. by simplify_eq.
      * right. split; [done|]. intros q r' [->|Hq]%elem_of_cons Hq'.
        -- by simplify_eq.
        -- by eapply Hnone.
  - intros [(l1 & p' & l2 & r' & Heq & Hr' & Hv & Hlast)|[Hacc Hnone]].
    + destruct l1 as [|x l1]; simplify_eq/=.
      * right. split.
        -- by rewrite Hk, Hv.
        -- done.
      * left. by exists l1, p', l2, r'.
    + right. split.
      * rewrite Hk. rewrite (Hnone p r); [done|by left|done].
      * intros q r' Hq. apply Hnone. by right.
Qed.


(** X5 ([process_outputs], lines 206-212).  In the merged inputs of a node a
    key has the value given by the last predecessor, in the order of
    [predecessors], whose result has that key; a key no predecessor has is
    absent. *)
Theorem process_outputs_last_writer_wins prev rd (out : payload) k v :
  process_outputs prev rd = inr out →
  out !! k = Some v ↔ last_writer rd prev k v.
Proof.
  intros H. rewrite (process_outputs_from_lookup _ _ _ _ k v H).
  rewrite lookup_empty. naive_solver.
Qed.

End OutputFacts.

(** ** [execute]: the overlay of the parameters and the request *)

Section OverlayFacts.

Implicit Types (m : payload) (d : list (pystr * value)) (f : pystr) (v : value).



Lemma overlay_field_ne m (fv : pystr * value) f :
  f ≠ fv.1 → overlay_field m fv !! f = m !! f.
Proof.
  intros Hne. unfold overlay_field. destruct (py_eq _ _); [done|].
  by rewrite lookup_insert_ne.
Qed.



Lemma overlay_other m d f : f ∉ d.*1 → overlay m d !! f = m !! f.
Proof.
  unfold overlay. revert m. induction d as [|fv d IH]; intros m Hf; [done|].
  simpl. apply not_elem_of_cons in Hf as [Hne Hf].
  rewrite IH by done. by apply overlay_field_ne.
Qed.




Lemma overlay_model_absent (llm_parameters : LLMParams) (m : payload) :
  NoDup (llm_dict llm_parameters).*1 →
  overlay m (llm_dict llm_parameters) !! py "model" = None
  ↔ m !! py "model" = None ∧ model llm_parameters = None.
Proof.
  intros Hnd. unfold llm_dict in Hnd |- *. rewrite fmap_cons in Hnd.
  apply NoDup_cons in Hnd as [Hnotin _].
  set (rest := _ :: decoding llm_parameters) in Hnotin |- *.
  change (overlay m (?a :: rest)) with (overlay (overlay_field m a) rest).
  rewrite overlay_other by exact Hnotin.
  unfold overlay_field. cbn [fst snd].
  destruct (m !! py "model") as [v|] eqn:Hm; cbn [default].
  - destruct (py_eq _ _); [rewrite Hm|rewrite lookup_insert_eq]; naive_solver.
  - destruct (model llm_parameters) as [s|]; simpl.
    + rewrite lookup_insert_eq. naive_solver.
    + rewrite Hm. naive_solver.
Qed.

End OverlayFacts.

Section ExecuteFacts.

Variable services : node → option service.
Variable llm_parameters : LLMParams.

#[local] Abbreviation execute_start :=
  (execute_start services llm_parameters).

(** X7 ([execute], lines 246-260 and 357-375).  [execute] raises a
    [KeyError], before any request is sent, exactly when the node's service
    carries a bearer credential, the inputs have no ["model"] key and the
    node is not an LLM or LVM node of a request that names a model.  In every
    other case it sends exactly one request, whose body is the inputs mapping
    as it then is. *)
Theorem execute_key_error_iff (cur_node : node) (svc : service)
    (inputs : loc) (m : payload) (st : state) :
  services cur_node = Some svc → heap st !! inputs = Some m →
  NoDup (llm_dict llm_parameters).*1 →
  let r := execute_start cur_node inputs st in
  (r.2 = Failed cur_node KeyError
   ↔ truthy (api_key_value svc) = true ∧ m !! py "model" = None
     ∧ (is_llm_vlm svc = true → model llm_parameters = None))
  ∧ (r.2 = Failed cur_node KeyError → log r.1 = log st)
  ∧ (r.2 ≠ Failed cur_node KeyError →
     ∃ body, log r.1 = log st ++ [OPost cur_node body]
             ∧ heap r.1 !! inputs = Some body).
Proof.
  intros Hsvc Hm Hnd r. subst r. unfold Engine.execute_start.
  rewrite Hsvc, Hm.
  set (m' := if is_llm_vlm svc then _ else _).
  assert (m' !! py "model" = None
          ↔ m !! py "model" = None
            ∧ (is_llm_vlm svc = true → model llm_parameters = None)) as Hiff.
  { subst m'. destruct (is_llm_vlm svc).
    - rewrite overlay_model_absent by done. naive_solver.
    - naive_solver. }
  destruct (truthy (api_key_value svc)); simpl.
  - case_bool_decide as Hmodel; simpl.
    + split_and!; [|done|done]. rewrite <-Hiff. done.
    + split_and!.
      * split; [by destruct (_ && _)|]. rewrite <-Hiff. naive_solver.
      * by destruct (_ && _).
      * intros _. exists m'. destruct (_ && _); simpl;
          by rewrite lookup_insert_eq.
  - split_and!.
    + split; [by destruct (_ && _)|]. naive_solver.
    + by destruct (_ && _).
    + intros _. exists m'. destruct (_ && _); simpl;
        by rewrite lookup_insert_eq.
Qed.

End ExecuteFacts.

(** ** The inputs mappings of a request *)

Section HeapFacts.

Variable re_findall : pystr → node → option bool.
Variable services : node → option service.
Variable llm_parameters : LLMParams.

Implicit Types (n d u c : node) (ds : list node) (st : state).

Lemma fresh_loc_fresh (h : gmap loc payload) : h !! fresh_loc h = None.
Proof.
  apply not_elem_of_dom. intros Hin. apply elem_of_elements in Hin.
  apply max_list_elem_of_le in Hin. unfold fresh_loc in Hin.
  by apply Nat.nle_succ_diag_l in Hin.
Qed.

Lemma prune_pattern_heap (p : pystr) n (k : nat) st ds :
  heap (prune_pattern re_findall p n k st ds).1 = heap st.
Proof.
  revert st ds. induction k as [|i IH]; intros st ds; simpl; [done|].
  destruct (ds !! i) as [d|]; [|done].
  destruct (re_findall p d) as [[|]|]; by rewrite IH.
Qed.

Lemma black_list_loop_heap (ps : list pystr) n (m : payload) st ds :
  heap (black_list_loop re_findall llm_parameters ps n m st ds).1.1 = heap st.
Proof.
  revert st ds. induction ps as [|p ps IH]; intros st ds; [done|].
  cbn [black_list_loop].
  pose proof (prune_pattern_heap p n (length ds) st ds) as H1.
  destruct (prune_pattern re_findall p n (length ds) st ds) as [st1 ds1].
  simpl in H1.
  destruct (bool_decide (length ds1 = 0%nat) && stream_flag llm_parameters).
  - destruct (m !! py "text") as [text|]; [|done]. by rewrite IH.
  - by rewrite IH.
Qed.

Lemma prune_phase_heap (r : response) n st :
  heap (prune_phase re_findall llm_parameters r n st).1.1 = heap st.
Proof.
  unfold prune_phase. destruct r as [m|b|s]; try done.
  destruct (m !! py "downstream_black_list") as [v|]; [|done].
  destruct (iter_patterns v) as [ps|]; [|done].
  apply black_list_loop_heap.
Qed.

Lemma readiness_scan_heap ds st : heap st ⊆ heap (readiness_scan ds st).1.
Proof.
  revert st. induction ds as [|d ds IH]; intros st; simpl; [done|].
  destruct (all_finished st d); [|apply IH].
  destruct (process_outputs _ _) as [e|inputs]; [done|].
  etrans; [|apply IH]. simpl. apply insert_subseteq, fresh_loc_fresh.
Qed.

Lemma process_done_heap (r : response) n st :
  heap st ⊆ heap (process_done re_findall llm_parameters r n st).1.
Proof.
  unfold process_done.
  set (stb := emit (ORecord n r) (set_result n r st)).
  pose proof (prune_phase_heap r n stb) as Hp.
  destruct (prune_phase re_findall llm_parameters r n stb) as [[st1 ds1] e].
  simpl in Hp. destruct e as [e|]; simpl.
  - by rewrite Hp.
  - etrans; [|apply readiness_scan_heap]. by rewrite Hp.
Qed.

Lemma run_batch_heap (b : batch) st :
  heap st ⊆ heap (run_batch re_findall llm_parameters b st).1.
Proof.
  revert st. induction b as [|[c rp] b IH]; intros st; simpl; [done|].
  destruct (take_task c (pending st)) as [[t p']|]; [|done].
  destruct (task_result t rp) as [[e|[r n]]|]; simpl; [done| |done].
  pose proof (process_done_heap r n (set_pending p' st)) as Hd.
  destruct (process_done re_findall llm_parameters r n (set_pending p' st))
    as [st' [e|]]; simpl in *; [done|].
  etrans; [exact Hd|apply IH].
Qed.

Section NoLLM.

Hypothesis no_llm : ∀ n svc, services n = Some svc → is_llm_vlm svc = false.

Lemma execute_start_heap c (l : loc) st :
  heap (execute_start services llm_parameters c l st).1 = heap st.
Proof using no_llm.
  unfold execute_start.
  destruct (services c) as [svc|] eqn:Hsvc; [|done].
  destruct (heap st !! l) as [m|] eqn:Hm; [|done].
  rewrite (no_llm _ _ Hsvc). simpl.
  destruct (_ && _); simpl; by rewrite insert_id.
Qed.

Lemma start_tasks_heap (todo : list task) st :
  heap (start_tasks services llm_parameters todo st) = heap st.
Proof using no_llm.
  revert st. induction todo as [|t todo IH]; intros st; [done|].
  destruct t as [c l|c|c ds|c e]; simpl; try by rewrite IH.
  pose proof (execute_start_heap c l st) as Hx.
  destruct (execute_start services llm_parameters c l st) as [st1 t].
  by rewrite IH.
Qed.

Lemma event_loop_heap (script : list batch) st :
  heap st
  ⊆ heap (event_loop re_findall services llm_parameters script st).1.
Proof using no_llm.
  revert st. induction script as [|b script IH]; intros st; simpl.
  { by destruct (pending st). }
  destruct (pending st) as [|t p] eqn:Hp; [done|].
  pose proof (run_batch_heap b (start_all services llm_parameters st)) as Hb.
  unfold start_all in Hb at 1. rewrite start_tasks_heap in Hb. simpl in Hb.
  destruct (run_batch re_findall llm_parameters b
              (start_all services llm_parameters st)) as [st' [s|]];
    simpl in *; [done|]. etrans; [exact Hb|apply IH].
Qed.

End NoLLM.

(** X8 ([schedule], lines 128-204; [execute], lines 246-253).  When no
    service of the orchestrator is an LLM or LVM service, a call of
    [schedule] never writes to the caller's [initial_inputs] mapping: at
    every exit it holds what the caller passed in. *)
Theorem schedule_leaves_inputs_alone (T : dag) (init : payload)
    (script : list batch) :
  (∀ n svc, services n = Some svc → is_llm_vlm svc = false) →
  heap (schedule re_findall services llm_parameters T init script).1
    !! INITIAL = Some init.
Proof.
  intros Hno. unfold schedule.
  pose proof (event_loop_heap Hno script (seed T init)) as Hh.
  destruct (seed_spec T init) as (_ & _ & _ & _ & Hs).
  destruct (event_loop re_findall services llm_parameters script (seed T init))
    as [st s]. simpl in Hh.
  assert (heap st !! INITIAL = Some init) as Hi.
  { eapply lookup_weaken; [|exact Hh]. rewrite Hs.
    apply lookup_singleton_eq. }
  destruct s; simpl; try done. by destruct (stream_flag llm_parameters).
Qed.

End HeapFacts.

(** ** The stream of a streaming request *)

Section StreamFacts.

Variable reply_to : nat → payload → option payload.

Implicit Types (gs : gen_state) (chunk : pybytes) (chunks : list pybytes).

Lemma frame_sse (t ev : pystr) : frame t = Some ev → sse_event (EvText ev).
Proof.
  unfold frame. destruct (utf8_encode _) as [b|]; [|done].
  cbv beta iota delta [mbind option_bind]. intros H.
  assert (ev = py "data: " ++ repr_bytes b ++ [LF; LF]) as -> by congruence.
  by eexists.
Qed.

Lemma frame_not_done (t ev : pystr) :
  frame t = Some ev → is_done (EvText ev) = false.
Proof.
  unfold frame. destruct (utf8_encode _) as [b|]; [|done].
  cbv beta iota delta [mbind option_bind]. intros H.
  assert (ev = py "data: " ++ repr_bytes b ++ [LF; LF]) as -> by congruence.
  clear H. unfold is_done, str_eqb. apply bool_decide_eq_false_2.
  unfold repr_bytes. intros H. apply (f_equal (take 7)) in H.
  vm_compute in H. done.
Qed.

Lemma done_sse : sse_event (EvText DONE_EVENT).
Proof. by exists (py "[DONE]"). Qed.

Lemma count_done_app (l1 l2 : list event) :
  length (List.filter is_done (l1 ++ l2))
  = (length (List.filter is_done l1) + length (List.filter is_done l2))%nat.
Proof. by rewrite List.filter_app, length_app. Qed.

Lemma token_events_spec (tokens : list pystr) (first : bool) gs :
  ∃ gs' e evs q,
    token_events tokens first gs = (gs', e)
    ∧ emits gs' gs evs q
    ∧ posted gs' = posted gs
    ∧ buffered_chunk_str gs' = buffered_chunk_str gs
    ∧ is_first gs' = is_first gs
    ∧ Forall sse_event evs ∧ Forall token_event q
    ∧ length (List.filter is_done evs) = 0%nat.
Proof.
  revert first gs. induction tokens as [|tk tokens IH]; intros first gs.
  { exists gs, None, [], []. unfold emits.
    rewrite !app_nil_r. split_and!; done. }
  cbn [token_events]. destruct (frame tk) as [ev|] eqn:Hf.
  - destruct (IH false (yield (EvText ev) (observe (OToken first) gs)))
      as (gs' & e & evs & q & Heq & [Hy Hl] & Hp & Hb & Hi & Hsse & Hq & Hc).
    exists gs', e, (EvText ev :: evs), (OToken first :: q).
    split_and!; try done.
    + split; [rewrite Hy|rewrite Hl]; simpl; by rewrite <-app_assoc.
    + constructor; [by eapply frame_sse|done].
    + by constructor.
    + change (EvText ev :: evs) with ([EvText ev] ++ evs).
      rewrite count_done_app, Hc. cbn [List.filter].
      by rewrite (frame_not_done _ _ Hf).
  - exists (observe (OToken first) gs), (Some UnicodeEncodeError), [],
      [OToken first].
    split_and!; try done.
    + split; [by rewrite app_nil_r|done].
    + by repeat constructor.
Qed.

Lemma token_generator_spec (sentence : value) (first last : bool) gs :
  ∃ gs' e evs q,
    token_generator sentence first last gs = (gs', e)
    ∧ emits gs' gs evs q
    ∧ posted gs' = posted gs
    ∧ buffered_chunk_str gs' = buffered_chunk_str gs
    ∧ is_first gs' = is_first gs
    ∧ Forall sse_event evs ∧ Forall token_event q
    ∧ (e = None →
       length (List.filter is_done evs) = if last then 1%nat else 0%nat).
Proof.
  unfold token_generator.
  destruct sentence as [|b|z|s|l];
    try (exists gs, (Some TypeError), [], []; unfold emits;
         rewrite !app_nil_r; by split_and!).
  destruct (token_events_spec (findall_tokens None s) first gs)
    as (gs' & e & evs & q & Heq & [Hy Hl] & Hp & Hb & Hi & Hsse & Hq & Hc).
  rewrite Heq. destruct e as [e|].
  { exists gs', (Some e), evs, q. by split_and!. }
  destruct last.
  - exists (yield (EvText DONE_EVENT) gs'), None, (evs ++ [EvText DONE_EVENT]),
      q.
    split_and!; try done.
    + split; simpl; [by rewrite Hy, app_assoc|done].
    + apply Forall_app. split; [done|]. repeat constructor. apply done_sse.
    + intros _. by rewrite count_done_app, Hc.
  - exists gs', None, evs, q. by split_and!.
Qed.

(** One chunk in forward mode. *)
Lemma generate_step_forward chunk gs :
  ∃ gs' e evs q,
    generate_step reply_to true chunk gs = (gs', e)
    ∧ emits gs' gs evs q
    ∧ Forall sse_event evs ∧ Forall token_event q
    ∧ Forall (λ p, ∃ s, p = {[ py "text" := VStr s ]})
        (drop (length (posted gs)) (posted gs'))
    ∧ take (length (posted gs)) (posted gs') = posted gs
    ∧ (e = None →
       length (List.filter is_done evs)
       = (if ends_done chunk then 1%nat else 0%nat)
       ∧ concat (posted_text <$> posted gs') ++ buffered_chunk_str gs'
         = concat (posted_text <$> posted gs) ++ buffered_chunk_str gs
             ++ chunk_text chunk
       ∧ (ends_done chunk = true → buffered_chunk_str gs' = [])).
Proof.
  assert (∀ gs0 : gen_state,
            take (length (posted gs0)) (posted gs0) = posted gs0) as Htake.
  { intros gs0. by rewrite firstn_all. }
  assert (∀ gs0 : gen_state, drop (length (posted gs0)) (posted gs0) = [])
    as Hdrop.
  { intros gs0. by rewrite drop_all. }
  destruct chunk as [|b0 chunk0].
  { exists gs, None, [], []. unfold emits. rewrite !app_nil_r, Htake, Hdrop.
    by split_and!. }
  unfold generate_step, chunk_text, ends_done.
  set (chunk := b0 :: chunk0).
  destruct (utf8_decode chunk) as [c|].
  2:{ exists gs, (Some UnicodeDecodeError), [], []. unfold emits.
      rewrite !app_nil_r, Htake, Hdrop. by split_and!. }
  set (B := buffered_chunk_str gs ++ extract_chunk_str c).
  set (is_last := endswith _ c).
  cbn [buffered_chunk_str set_buffer].
  destruct (must_flush B is_last) eqn:Hflush.
  2:{ exists (set_buffer B gs), None, [], []. unfold emits. simpl.
      rewrite !app_nil_r, Htake, Hdrop. split_and!; try done.
      intros _. unfold must_flush in Hflush.
      apply orb_false_iff in Hflush as [_ ->]. split_and!; [done| |done].
      subst B. by rewrite !app_assoc. }
  set (body := ({[ py "text" := VStr B ]} : payload)).
  set (gs1 := post body (set_buffer B gs)).
  assert (take (length (posted gs)) (posted gs1) = posted gs) as Ht1.
  { simpl. by rewrite take_app_length. }
  assert (Forall (λ p : payload, ∃ s, p = {[ py "text" := VStr s ]})
            (drop (length (posted gs)) (posted gs1))) as Hd1.
  { simpl. rewrite drop_app_length. repeat constructor. by exists B. }
  cbn [posted set_buffer].
  destruct (reply_to (length (posted gs)) body) as [res|].
  2:{ exists gs1, (Some TransportError), [], []. unfold emits.
      rewrite !app_nil_r. by split_and!. }
  destruct (res !! py "text") as [res_txt|].
  2:{ exists gs1, (Some NotSupported), [], []. unfold emits.
      rewrite !app_nil_r. by split_and!. }
  destruct (token_generator_spec res_txt (is_first gs1) is_last
              (set_buffer [] gs1))
    as (gs' & e & evs & q & Heq & [Hy Hl] & Hp & Hb & Hi & Hsse & Hq & Hc).
  change (is_first (post body (set_buffer B gs))) with (is_first gs1).
  change (post body (set_buffer B gs)) with gs1.
  rewrite Heq. destruct e as [e|].
  { exists gs', (Some e), evs, q. rewrite Hp. by split_and!. }
  exists (not_first gs'), None, evs, q. cbn [posted not_first].
  rewrite Hp. split_and!; try done.
  intros _. split_and!; [by apply Hc| |done].
  cbn [buffered_chunk_str not_first]. rewrite Hb. simpl.
  rewrite fmap_app, concat_app. simpl.
  unfold posted_text at 2. unfold body. rewrite lookup_singleton_eq.
  rewrite !app_nil_r. subst B. by rewrite !app_assoc.
Qed.

Lemma generate_loop_forward chunks gs :
  ∃ gs' e evs q ps,
    generate_loop reply_to true chunks gs = (gs', e)
    ∧ emits gs' gs evs q
    ∧ Forall sse_event evs ∧ Forall token_event q
    ∧ posted gs' = posted gs ++ ps
    ∧ Forall (λ p, ∃ s, p = {[ py "text" := VStr s ]}) ps
    ∧ (e = None →
       length (List.filter is_done evs)
       = length (List.filter ends_done chunks)
       ∧ concat (posted_text <$> posted gs') ++ buffered_chunk_str gs'
         = concat (posted_text <$> posted gs) ++ buffered_chunk_str gs
             ++ concat (chunk_text <$> chunks)
       ∧ (∀ ch, last chunks = Some ch → ends_done ch = true →
                buffered_chunk_str gs' = [])).
Proof.
  revert gs. induction chunks as [|chunk chunks IH]; intros gs.
  { exists gs, None, [], [], []. unfold emits. rewrite !app_nil_r.
    by split_and!. }
  cbn [generate_loop].
  destruct (generate_step_forward chunk gs)
    as (gs1 & e1 & evs1 & q1 & Heq1 & [Hy1 Hl1] & Hsse1 & Hq1 & Hd1 & Ht1
        & Hok1).
  assert (posted gs1 = posted gs ++ drop (length (posted gs)) (posted gs1))
    as Hp1.
  { rewrite <-Ht1 at 1. by rewrite take_drop. }
  rewrite Heq1. destruct e1 as [e1|].
  { exists gs1, (Some e1), evs1, q1, (drop (length (posted gs)) (posted gs1)).
    by split_and!. }
  destruct (IH gs1)
    as (gs' & e & evs & q & ps & Heq & [Hy Hl] & Hsse & Hq & Hp & Hps & Hok).
  rewrite Heq.
  exists gs', e, (evs1 ++ evs), (q1 ++ q),
    (drop (length (posted gs)) (posted gs1) ++ ps).
  split_and!; try done.
  - split; [rewrite Hy, Hy1|rewrite Hl, Hl1]; by rewrite app_assoc.
  - by apply Forall_app.
  - by apply Forall_app.
  - rewrite Hp, Hp1 at 1. by rewrite app_assoc.
  - by apply Forall_app.
  - intros ->. destruct (Hok1 eq_refl) as (Hc1 & Hcons1 & Hb1).
    destruct (Hok eq_refl) as (Hc & Hcons & Hb). split_and!.
    + rewrite count_done_app, Hc, Hc1. cbn [List.filter].
      by destruct (ends_done chunk).
    + rewrite Hcons, (app_assoc _ (buffered_chunk_str gs1)), Hcons1.
      cbn [fmap list_fmap concat]. by rewrite <-!app_assoc.
    + intros ch Hlast Hdone. destruct chunks as [|chunk' chunks'].
      * simpl in Hlast. injection Hlast as <-.
        simpl in Heq. injection Heq as <-. by apply Hb1.
      * apply (Hb ch); [|done]. by rewrite last_cons_cons in Hlast.
Qed.

Lemma generate_loop_direct chunks gs :
  let sent := filter (λ c, c ≠ []) chunks in
  ∃ gs', generate_loop reply_to false chunks gs = (gs', None)
         ∧ yielded gs' = yielded gs ++ (EvChunk <$> sent)
         ∧ glog gs' = glog gs ++ token_updates (is_first gs) (length sent)
         ∧ posted gs' = posted gs.
Proof.
  revert gs. induction chunks as [|chunk chunks IH]; intros gs sent.
  { exists gs. simpl. by rewrite !app_nil_r. }
  subst sent. cbn [generate_loop filter list_filter].
  destruct (decide (chunk ≠ [])) as [Hne|Hempty].
  2:{ apply dec_stable in Hempty as ->. apply IH. }
  destruct chunk as [|b chunk]; [done|]. cbn [generate_step].
  destruct (IH (yield (EvChunk (b :: chunk))
                  (not_first (observe (OToken (is_first gs)) gs))))
    as (gs' & Heq & Hy & Hl & Hp).
  exists gs'. split_and!; [done| | |done].
  - rewrite Hy. simpl. by rewrite <-app_assoc.
  - rewrite Hl. simpl. rewrite <-app_assoc. simpl. f_equal. f_equal.
    by destruct (length _).
Qed.

(** X9 ([generate], lines 299-350).  The stream of a streaming request calls
    [request_update] and decrements the pending gauge exactly once, as its
    last two metric calls, when the upstream response is truthy and the
    generator runs to its end; a generator that raises, or whose response is
    falsy, makes neither call.  All other metric calls are token updates. *)
Theorem generate_gauge_law (forward : bool) (up : upstream) :
  let r := generate reply_to forward up in
  ∃ q, Forall token_event q
       ∧ glog r.1
         = q ++ match r.2 with
                | Finished =>
                    if up_ok up then [ORequest; OPending false] else []
                | GenRaised _ => []
                end.
Proof.
  intros r. subst r. unfold generate. destruct (up_ok up).
  2:{ by exists []. }
  assert (∃ gs e q, generate_loop reply_to forward (up_chunks up) gen_init
                    = (gs, e) ∧ glog gs = q ∧ Forall token_event q)
    as (gs & e & q & Heq & Hl & Hq).
  { destruct forward.
    - destruct (generate_loop_forward (up_chunks up) gen_init)
        as (gs & e & evs & q & ps & Heq & [_ Hl] & _ & Hq & _).
      by exists gs, e, q.
    - destruct (generate_loop_direct (up_chunks up) gen_init)
        as (gs & Heq & _ & Hl & _).
      eexists gs, None, _. split_and!; [done..|]. simpl.
      destruct (length _); repeat constructor.
      by apply Forall_replicate. }
  rewrite Heq. destruct e as [e|]; simpl.
  { exists q. by rewrite app_nil_r. }
  destruct (up_clean up); simpl.
  - exists q. rewrite Hl. by rewrite <-app_assoc.
  - exists q. by rewrite app_nil_r.
Qed.

(** X10 ([generate], lines 343-346).  Without a downstream node the stream
    passes the upstream chunks through: it yields exactly the non-empty
    chunks, in order and unchanged, posts nothing, and makes one token update
    per chunk yielded, of which only the first is flagged as first token. *)
Theorem generate_pass_through (up : upstream) :
  up_ok up = true →
  let r := generate reply_to false up in
  let sent := filter (λ c, c ≠ []) (up_chunks up) in
  yielded r.1 = EvChunk <$> sent
  ∧ posted r.1 = []
  ∧ r.2 = (if up_clean up then Finished else GenRaised TransportError)
  ∧ glog r.1 = token_updates true (length sent)
               ++ (if up_clean up then [ORequest; OPending false] else []).
Proof.
  intros Hok r sent. subst r. unfold generate. rewrite Hok.
  destruct (generate_loop_direct (up_chunks up) gen_init)
    as (gs & Heq & Hy & Hl & Hp).
  rewrite Heq. destruct (up_clean up); simpl.
  - rewrite Hy, Hl, Hp. simpl. by rewrite <-app_assoc.
  - rewrite Hy, Hl, Hp. simpl. by rewrite app_nil_r.
Qed.

(** X11 ([generate], lines 299-350; [token_generator], lines 419-428).  With
    a downstream node, every event the stream yields is a server-sent event
    [data: ...] closed by an empty line; and when the generator runs to its
    end it has yielded as many [data: [DONE]] events as the upstream sent
    chunks ending in [[DONE]\n\n]. *)
Theorem generate_forward_stream (up : upstream) :
  let r := generate reply_to true up in
  Forall sse_event (yielded r.1)
  ∧ (up_ok up = true ∧ r.2 = Finished →
     length (List.filter is_done (yielded r.1))
     = length (List.filter ends_done (up_chunks up))).
Proof.
  intros r. subst r. unfold generate. destruct (up_ok up).
  2:{ split; [done|]. by intros [? _]. }
  destruct (generate_loop_forward (up_chunks up) gen_init)
    as (gs & e & evs & q & ps & Heq & [Hy _] & Hsse & _ & _ & _ & Hok).
  rewrite Heq. simpl in Hy. destruct e as [e|]; simpl.
  { rewrite Hy. split; [done|]. by intros [_ ?]. }
  destruct (Hok eq_refl) as (Hc & _).
  destruct (up_clean up); simpl; rewrite Hy; (split; [done|]).
  - done.
  - by intros [_ ?].
Qed.

(** X12 ([generate], lines 306-341).  With a downstream node, when the
    generator runs to its end, the texts it posted to the downstream node,
    followed by what is left in the buffer, are the texts extracted from the
    upstream chunks, in order, nothing lost and nothing repeated; every
    posted body is [{"text": ...}]; and nothing is left in the buffer when
    the last chunk ends in [[DONE]\n\n]. *)
Theorem generate_forwards_all_text (up : upstream) :
  up_ok up = true → (generate reply_to true up).2 = Finished →
  let gs := (generate reply_to true up).1 in
  Forall (λ p, ∃ s, p = {[ py "text" := VStr s ]}) (posted gs)
  ∧ concat (posted_text <$> posted gs) ++ buffered_chunk_str gs
    = concat (chunk_text <$> up_chunks up)
  ∧ (∀ ch, last (up_chunks up) = Some ch → ends_done ch = true →
           buffered_chunk_str gs = []).
Proof.
  unfold generate. intros ->.
  destruct (generate_loop_forward (up_chunks up) gen_init)
    as (gs & e & evs & q & ps & Heq & _ & _ & _ & Hp & Hps & Hok).
  rewrite Heq. destruct e as [e|]; [done|].
  destruct (Hok eq_refl) as (_ & Hcons & Hb). simpl in Hp, Hcons.
  destruct (up_clean up); [|done]. intros _. simpl.
  split_and!; [by rewrite Hp|done|done].
Qed.

End StreamFacts.

(** ** Tokens and line feeds *)

Section TokenFacts.

Implicit Types (s t : pystr) (cur : option pystr).

#[local] Abbreviation nonspace := (λ c : N, is_space c = false).

Lemma filter_nonspace_space (c : N) s :
  is_space c = true → filter nonspace (c :: s) = filter nonspace s.
Proof.
  intros Hc. cbn [filter list_filter].
  destruct (decide (nonspace c)) as [Hn|_]; [congruence|done].
Qed.

Lemma findall_tokens_spec s cur :
  (∀ t, cur = Some t → open_shape t s) →
  Forall token_shape (findall_tokens cur s)
  ∧ filter nonspace (concat (findall_tokens cur s))
    = filter nonspace (default [] cur ++ s)
  ∧ concat (findall_tokens cur s) `sublist_of` default [] cur ++ s.
Proof.
  revert cur. induction s as [|c rest IH]; intros cur Hcur.
  - destruct cur as [t|]; simpl; [|done].
    destruct (Hcur t eq_refl) as (pre & body & -> & Hlen & Hpre & Hbody & Hne).
    rewrite !app_nil_r. split_and!; [|done..].
    repeat constructor. exists pre, body, []. rewrite app_nil_r.
    split_and!; try done; [|simpl; lia].
    intros ->. by destruct Hne as (? & ? & ? & _).
  - destruct cur as [t|]; cbn [findall_tokens from_option]; unfold id.
    + destruct (Hcur t eq_refl)
        as (pre & body & -> & Hlen & Hpre & Hbody & Hne).
      destruct (is_space c) eqn:Hc.
      * destruct (IH None) as (Hsh & Hf & Hsub); [done|].
        cbn [concat]. cbn [from_option app] in Hf, Hsub. split_and!.
        -- constructor; [|done]. exists pre, body, [c].
           rewrite <-app_assoc. split_and!; try done;
             [|by repeat constructor].
           intros ->. destruct Hne as (? & ? & [= <- _] & ?); congruence.
        -- rewrite <-!app_assoc. rewrite !filter_app. f_equal. f_equal.
           rewrite <-filter_app. change ([c] ++ ?x) with (c :: x).
           rewrite !(filter_nonspace_space c _ Hc). exact Hf.
        -- rewrite <-!app_assoc.
           apply sublist_app; [reflexivity|].
           apply sublist_app; [reflexivity|]. by apply sublist_skip.
      * destruct (IH (Some ((pre ++ body) ++ [c])))
          as (Hsh & Hf & Hsub).
        { intros ? [= <-]. exists pre, (body ++ [c]).
          rewrite app_assoc. split_and!; try done.
          - apply Forall_app. by repeat constructor.
          - intros Hnil. by apply app_eq_nil in Hnil as [_ ?]. }
        cbn [from_option] in Hf, Hsub. unfold id in Hf, Hsub.
        replace ((pre ++ body) ++ c :: rest)
          with (((pre ++ body) ++ [c]) ++ rest)
          by (by rewrite <-(app_assoc _ [c] rest)).
        done.
    + simpl. destruct (is_space c) eqn:Hc.
      * destruct rest as [|c2 rest'].
        { split_and!; [done| |by apply sublist_nil_l].
          by rewrite filter_nonspace_space. }
        destruct (is_space c2) eqn:Hc2.
        -- destruct (IH None) as (Hsh & Hf & Hsub); [done|].
           cbn [from_option app] in Hf, Hsub. split_and!; [done| |by apply sublist_cons].
           by rewrite filter_nonspace_space.
        -- destruct (IH (Some [c])) as (Hsh & Hf & Hsub); [|done].
           intros ? [= <-]. exists [c], []. split_and!; try done.
           ++ by repeat constructor.
           ++ intros _. by exists c2, rest'.
      * destruct (IH (Some [c])) as (Hsh & Hf & Hsub); [|done].
        intros ? [= <-]. exists [], [c]. split_and!; try done.
        ++ simpl; lia.
        ++ by repeat constructor.
Qed.

(** X13 ([token_generator], line 422).  The tokens the pattern
    [\s?\S+\s?] cuts from a sentence: each is a run of non-white-space
    characters with at most one white-space character before and after it;
    together they keep every non-white-space character of the sentence, in
    order; and they only drop characters, never add or reorder any. *)
Theorem findall_tokens_keeps_text s :
  let tokens := findall_tokens None s in
  Forall token_shape tokens
  ∧ filter (λ c, is_space c = false) (concat tokens)
    = filter (λ c, is_space c = false) s
  ∧ concat tokens `sublist_of` s.
Proof. intros tokens. by apply (findall_tokens_spec s None). Qed.

End TokenFacts.

Section NewlineFacts.

Implicit Types (ps : list piece) (p : piece).

Lemma replace_written ps :
  Forall piece_ok ps →
  replace [BACKSLASH; 110] [LF] (ps ≫= written) = ps ≫= encoded.
Proof.
  unfold replace. induction 1 as [|p ps Hp _ IH]; [done|].
  rewrite !bind_cons. destruct p as [c| |];
    cbn [written encoded app replace_from startswith].
  - destruct Hp as (_ & _ & Hbs).
    destruct (N.eqb_spec BACKSLASH c) as [E|_]; [by symmetry in E|].
    cbn [andb]. by rewrite IH.
  - change (BACKSLASH =? LF) with false. cbn [andb]. by rewrite IH.
  - change (BACKSLASH =? BACKSLASH) with true.
    change (110 =? 110) with true.
    cbn [andb length Nat.sub replace_from app]. by rewrite IH.
Qed.

Lemma encoded_ascii ps :
  Forall piece_ok ps → Forall (λ c, c < 128) (ps ≫= encoded).
Proof.
  induction 1 as [|p ps Hp _ IH]; [done|]. rewrite bind_cons.
  apply Forall_app. split; [|done].
  destruct p as [c| |]; simpl in *; repeat constructor; try done.
  destruct Hp as (_ & ? & _). lia.
Qed.

Lemma repr_encoded (q : N) ps :
  Forall piece_ok ps → q = SQUOTE ∨ q = DQUOTE → q ∉ ps ≫= encoded →
  concat (repr_byte q <$> (byte_of_N <$> (ps ≫= encoded))) = ps ≫= read_back.
Proof.
  intros Hps Hq. induction Hps as [|p ps Hp _ IH]; intros Hnotin; [done|].
  rewrite !bind_cons in *. rewrite !fmap_app, concat_app.
  apply not_elem_of_app in Hnotin as [Hq1 Hq2].
  rewrite IH by done. f_equal.
  destruct p as [c| |].
  - apply (repr_plain q [c]); [|done]. constructor; [exact Hp|constructor].
  - destruct Hq as [-> | ->]; reflexivity.
  - destruct Hq as [-> | ->]; reflexivity.
Qed.

(** X14 ([token_generator], lines 419-428; [extract_chunk_str], lines
    406-417).  For a token of printable ASCII characters, line feeds and
    [\n] escapes that does not hold both kinds of quote, the framed event is
    read back by [extract_chunk_str] as the token with every line feed
    turned into the two characters [\n]: the token comes back unchanged
    exactly when it holds no line feed. *)
Theorem frame_roundtrip_newlines ps :
  Forall piece_ok ps →
  ¬ (SQUOTE ∈ ps ≫= written ∧ DQUOTE ∈ ps ≫= written) →
  ∃ ev, frame (ps ≫= written) = Some ev
        ∧ extract_chunk_str ev = ps ≫= read_back
        ∧ (ps ≫= read_back = ps ≫= written ↔ Newline ∉ ps).
Proof.
  intros Hps Hquotes.
  assert (∀ q, q = SQUOTE ∨ q = DQUOTE →
               q ∈ ps ≫= encoded ↔ q ∈ ps ≫= written) as Hsame.
  { intros q Hq. rewrite !list_elem_of_bind.
    split; intros (p & Hin & Hp); exists p; (split; [|done]);
      destruct p as [c| |]; simpl in *; try done;
      destruct Hq as [-> | ->]; set_solver. }
  pose proof (encoded_ascii ps Hps) as Ha.
  unfold frame. rewrite replace_written, utf8_encode_ascii by done.
  cbn [mbind option_bind]. unfold repr_bytes, repr_quote.
  rewrite !existsb_bytes by done.
  set (q := if bool_decide (SQUOTE ∈ ps ≫= encoded)
               && negb (bool_decide (DQUOTE ∈ ps ≫= encoded))
            then DQUOTE else SQUOTE).
  assert ((q ∉ ps ≫= encoded) ∧ (q = SQUOTE ∨ q = DQUOTE)) as [Hqt Hqq].
  { rewrite <-!Hsame in Hquotes by auto.
    subst q. repeat case_bool_decide; simpl; naive_solver. }
  rewrite repr_encoded by done.
  eexists. split; [done|]. split.
  - change (py "data: ") with (take 6 (py "data: b")).
    rewrite <-(extract_framed q (ps ≫= read_back) Hqq) at 2.
    f_equal. by rewrite <-!app_assoc.
  - clear. induction ps as [|p ps IH]; [set_solver|].
    rewrite !bind_cons, not_elem_of_cons.
    destruct p as [c| |]; simpl.
    + rewrite <-IH. split; [intros [= ?]|intros [_ ->]]; naive_solver.
    + split; [intros [=]|naive_solver].
    + rewrite <-IH. split; [intros [= ?]|intros [_ ->]]; naive_solver.
Qed.

End NewlineFacts.

(** ** Final outputs and the returned graph *)

Section FinalFacts.

Implicit Types (rd acc out : gmap node response) (leaves : list node)
  (g : dag) (n x : node).

Lemma final_outputs_from_spec acc leaves rd :
  match final_outputs_from acc leaves rd with
  | inr out =>
      (∀ leaf, leaf ∈ leaves → is_Some (rd !! leaf))
      ∧ ∀ n, out !! n = if decide (n ∈ leaves) then rd !! n else acc !! n
  | inl e =>
      e = KeyError ∧ ∃ leaf, leaf ∈ leaves ∧ rd !! leaf = None
  end.
Proof.
  revert acc. induction leaves as [|leaf leaves IH]; intros acc;
    cbn [final_outputs_from].
  { split; [by intros ? ?%elem_of_nil|]. intros n.
    destruct (decide (n ∈ [])) as [Hn|_]; [by apply elem_of_nil in Hn|done]. }
  destruct (rd !! leaf) as [r|] eqn:Hr.
  2:{ split; [done|]. exists leaf. split; [by left|done]. }
  specialize (IH (<[leaf := r]> acc)).
  destruct (final_outputs_from _ leaves rd) as [e|out].
  - destruct IH as (-> & leaf' & Hin & Hnone). split; [done|].
    exists leaf'. split; [by right|done].
  - destruct IH as [Hall Hout]. split.
    + intros leaf' [->|Hin]%elem_of_cons; [by eexists|by apply Hall].
    + intros n. rewrite Hout.
      destruct (decide (n = leaf)) as [->|Hne].
      * rewrite lookup_insert_eq. repeat case_decide; set_solver.
      * rewrite lookup_insert_ne by done. repeat case_decide; set_solver.
Qed.

(** X15 ([get_all_final_outputs], lines 400-404).  The final outputs of a
    request are the results of the leaves of the runtime graph and nothing
    else; the call raises a [KeyError] exactly when some leaf has no
    result. *)
Theorem get_all_final_outputs_spec rd g :
  match get_all_final_outputs rd g with
  | inr out =>
      (∀ leaf, leaf ∈ all_leaves g → is_Some (rd !! leaf))
      ∧ ∀ n, out !! n = if decide (n ∈ all_leaves g) then rd !! n else None
  | inl e =>
      e = KeyError ∧ ∃ leaf, leaf ∈ all_leaves g ∧ rd !! leaf = None
  end.
Proof.
  unfold get_all_final_outputs.
  pose proof (final_outputs_from_spec ∅ (all_leaves g) rd) as H.
  destruct (final_outputs_from ∅ (all_leaves g) rd) as [e|out]; [done|].
  destruct H as [Hall Hout]. split; [done|]. intros n. rewrite Hout.
  by rewrite lookup_empty.
Qed.

Lemma nodes_delete_node g n :
  nodes (delete_node_if_exists g n) = filter (λ x, x ≠ n) (nodes g).
Proof.
  unfold nodes, delete_node_if_exists. induction g as [|[k l] g IH]; [done|].
  rewrite fmap_cons. cbn [filter list_filter fst].
  destruct (decide (k ≠ n)).
  - rewrite !fmap_cons. cbn [fst]. f_equal. exact IH.
  - exact IH.
Qed.

Lemma downstream_delete_node g n x :
  x ≠ n →
  downstream (delete_node_if_exists g n) x
  = filter (λ y, y ≠ n) (downstream g x).
Proof.
  intros Hx. unfold delete_node_if_exists.
  induction g as [|[k l] g IH]; [done|].
  cbn [filter list_filter fst]. rewrite downstream_cons.
  destruct (decide (k ≠ n)) as [Hk|Hk].
  - rewrite fmap_cons. cbn [fst snd]. rewrite downstream_cons.
    destruct (decide (k = x)); [done|exact IH].
  - apply dec_stable in Hk as ->. rewrite decide_False by done. exact IH.
Qed.

Lemma filter_iff_in {A} (P Q : A → Prop) `{!∀ a, Decision (P a)}
    `{!∀ a, Decision (Q a)} (l : list A) :
  (∀ a, a ∈ l → P a ↔ Q a) → filter P l = filter Q l.
Proof.
  induction l as [|a l IH]; intros Hiff; [done|].
  assert (P a ↔ Q a) as Ha by (apply Hiff; by left).
  assert (filter P l = filter Q l) as Hl
    by (apply IH; intros; apply Hiff; by right).
  destruct (decide (P a)) as [Hp|Hp].
  - rewrite (filter_cons_True P), (filter_cons_True Q) by naive_solver.
    by f_equal.
  - by rewrite (filter_cons_False P), (filter_cons_False Q) by naive_solver.
Qed.

Lemma filter_all {A} (P : A → Prop) `{!∀ a, Decision (P a)} (l : list A) :
  (∀ a, a ∈ l → P a) → filter P l = l.
Proof.
  induction l as [|a l IH]; intros Hall; [done|].
  rewrite filter_cons_True by (apply Hall; by left).
  f_equal. apply IH. intros; apply Hall; by right.
Qed.

Lemma prune_fold_spec (keep xs : list node) g :
  let g' := foldl (λ g' x, if decide (x ∈ keep) then g'
                           else delete_node_if_exists g' x) g xs in
  nodes g' = filter (λ x, x ∈ keep ∨ x ∉ xs) (nodes g)
  ∧ ∀ x, x ∈ keep ∨ x ∉ xs →
         downstream g' x = filter (λ y, y ∈ keep ∨ y ∉ xs) (downstream g x).
Proof.
  revert g. induction xs as [|a xs IH]; intros g; simpl.
  { split.
    - symmetry. apply filter_all. intros ? _. right. apply not_elem_of_nil.
    - intros x _. symmetry. apply filter_all. intros ? _. right.
      apply not_elem_of_nil. }
  assert (∀ y, a ∈ keep → y ∈ keep ∨ y ∉ xs ↔ y ∈ keep ∨ y ∉ a :: xs)
    as Hin.
  { intros y Ha. rewrite not_elem_of_cons.
    destruct (decide (y = a)) as [->|]; naive_solver. }
  assert (∀ y, a ∉ keep →
               (y ∈ keep ∨ y ∉ xs) ∧ y ≠ a ↔ y ∈ keep ∨ y ∉ a :: xs)
    as Hout.
  { intros y Ha. rewrite not_elem_of_cons. naive_solver. }
  destruct (decide (a ∈ keep)) as [Ha|Ha].
  - destruct (IH g) as [Hn Hd]. split.
    + rewrite Hn. apply list_filter_iff. intros x. by apply Hin.
    + intros x Hx. rewrite Hd by by apply Hin.
      apply list_filter_iff. intros y. by apply Hin.
  - destruct (IH (delete_node_if_exists g a)) as [Hn Hd]. split.
    + rewrite Hn, nodes_delete_node, list_filter_filter.
      apply list_filter_iff. intros x. by apply Hout.
    + intros x Hx. apply Hout in Hx as [Hx Hne]; [|done].
      rewrite Hd by done.
      rewrite downstream_delete_node, list_filter_filter by done.
      apply list_filter_iff. intros y. by apply Hout.
Qed.

(** X16 ([schedule], lines 190-199).  The graph [schedule] returns keeps
    exactly the nodes that are a root or downstream of a root, in their
    order, and every edge between two nodes it keeps. *)
Theorem prune_unreachable_keeps_reachable (ind : list node) g :
  let keep := ind ≫= (λ i, i :: all_downstreams g i) in
  nodes (prune_unreachable ind g) = filter (λ x, x ∈ keep) (nodes g)
  ∧ ∀ x, x ∈ keep →
         downstream (prune_unreachable ind g) x
         = filter (λ y, y ∈ keep ∨ y ∉ nodes g) (downstream g x).
Proof.
  intros keep. unfold prune_unreachable. fold keep.
  destruct (prune_fold_spec keep (nodes g) g) as [Hn Hd]. split.
  - rewrite Hn. apply filter_iff_in. intros x Hx. naive_solver.
  - intros x Hx. apply Hd. by left.
Qed.

End FinalFacts.


(** ** A request without black lists runs the whole graph *)

Section Liveness.

Variable re_findall : pystr → node → option bool.
Variable services : node → option service.
Variable llm_parameters : LLMParams.
Variable T : dag.

Hypothesis T_wf : dag_wf T.
Hypothesis unary : stream_flag llm_parameters = false.

Implicit Types (g : dag) (n d c : node) (ds : list node) (st : state)
  (t : task).

Lemma downstream_of_entry g n l :
  NoDup (nodes g) → (n, l) ∈ g → downstream g n = l.
Proof.
  induction g as [|[k l'] g IH]; intros Hnd Hin; [by apply elem_of_nil in Hin|].
  unfold nodes in Hnd. rewrite fmap_cons in Hnd.
  apply NoDup_cons in Hnd as [Hk Hnd]. rewrite downstream_cons.
  apply elem_of_cons in Hin as [[= -> ->]|Hin].
  - by rewrite decide_True.
  - rewrite decide_False; [by apply IH|].
    intros ->. apply Hk. simpl. apply list_elem_of_fmap. by exists (n, l).
Qed.

Lemma predecessors_downstream g n d :
  NoDup (nodes g) → n ∈ predecessors g d → d ∈ downstream g n.
Proof.
  intros Hnd (l & Hin & Hd)%elem_of_predecessors.
  by rewrite (downstream_of_entry g n l).
Qed.

Lemma predecessors_nodes g n d : n ∈ predecessors g d → n ∈ nodes g.
Proof.
  intros (l & Hin & _)%elem_of_predecessors.
  apply list_elem_of_fmap. by exists (n, l).
Qed.

(** A scan that raises nothing dispatches every successor that is ready. *)
Lemma readiness_scan_complete ds st st' :
  readiness_scan ds st = (st', None) →
  ∀ d, d ∈ ds → all_finished st d = true → d ∈ dispatched (log st').
Proof.
  revert st. induction ds as [|d0 ds IH]; intros st Heq d Hd Hfin;
    [by apply elem_of_nil in Hd|].
  cbn [readiness_scan] in Heq.
  assert (∀ inputs, all_finished (dispatch d0 inputs st) d = all_finished st d)
    as Hsame by done.
  destruct (all_finished st d0) eqn:Hfin0.
  - destruct (process_outputs _ _) as [e|inputs] eqn:Hout; [done|].
    apply elem_of_cons in Hd as [->|Hd].
    + destruct (readiness_scan_spec ds (dispatch d0 inputs st))
        as (st2 & e & disp & Heq2 & _ & _ & Hlog & _).
      rewrite Heq in Heq2. injection Heq2 as <- <-.
      rewrite Hlog, dispatched_app. apply elem_of_app. left.
      simpl. rewrite dispatched_app. apply elem_of_app. right. simpl.
      by left.
    + eapply IH; [exact Heq|done|]. by rewrite Hsame.
  - apply elem_of_cons in Hd as [->|Hd]; [congruence|]. by eapply IH.
Qed.

Lemma seed_live (init : payload) : live T (seed T init).
Proof.
  destruct (seed_spec T init) as (Hrd & Hg & Hp & Hlog & _).
  assert (dispatched (log (seed T init)) = ind_nodes T) as Hd.
  { rewrite Hlog. simpl. apply dispatched_roots. }
  split.
  - done.
  - intros d Hin. left. unfold pnodes. rewrite Hp, <- list_fmap_compose.
    rewrite Hd in Hin. apply list_elem_of_fmap. by exists d.
  - intros r Hr. by rewrite Hd.
  - intros d p Hp' Hall. destruct (Hall p Hp') as [r Hr].
    by rewrite Hrd, lookup_empty in Hr.
  - intros n r Hr. by rewrite Hrd, lookup_empty in Hr.
  - intros t Ht. rewrite Hp in Ht.
    by apply list_elem_of_fmap in Ht as (r & -> & _).
Qed.

Lemma execute_start_unary c (l : loc) st :
  match (execute_start services llm_parameters c l st).2 with
  | Streamed _ _ => False
  | _ => True
  end.
Proof using unary.
  unfold execute_start.
  destruct (services c) as [svc|]; [|done].
  destruct (heap st !! l) as [m|]; [|done].
  rewrite unary, andb_false_r. by destruct (_ && _).
Qed.

Lemma start_tasks_unary (todo : list task) st :
  (∀ t, t ∈ pending st →
        match t with Streamed _ _ => False | _ => True end) →
  (∀ t, t ∈ todo → match t with Streamed _ _ => False | _ => True end) →
  ∀ t, t ∈ pending (start_tasks services llm_parameters todo st) →
       match t with Streamed _ _ => False | _ => True end.
Proof using unary.
  revert st. induction todo as [|t0 todo IH]; intros st Hp Htodo; [done|].
  assert (∀ st1 t1,
    pending st1 = pending st →
    match t1 with Streamed _ _ => False | _ => True end →
    ∀ t, t ∈ pending (start_tasks services llm_parameters todo
                        (set_pending (pending st1 ++ [t1]) st1)) →
         match t with Streamed _ _ => False | _ => True end) as Hstep.
  { intros st1 t1 Hp1 Ht1. apply IH.
    - intros t. simpl. rewrite Hp1.
      intros [Hin|Hin]%elem_of_app; [by apply Hp|].
      by apply list_elem_of_singleton in Hin as ->.
    - intros t Ht. apply Htodo. by right. }
  destruct t0 as [c l|c|c ds|c e]; cbn [start_tasks].
  - pose proof (execute_start_unary c l st) as Hu.
    destruct (execute_start_frame services llm_parameters c l st)
      as (st1 & t1 & Heq & _ & _ & _ & Hp1 & _).
    rewrite Heq in Hu |- *. by apply Hstep.
  - by apply Hstep.
  - exfalso. apply (Htodo (Streamed c ds)). by left.
  - by apply Hstep.
Qed.

Lemma start_all_live st :
  live T st → live T (start_all services llm_parameters st).
Proof using unary.
  intros HL. unfold start_all.
  destruct (start_tasks_frame services llm_parameters (pending st)
              (set_pending [] st)) as (Hrd & Hg & Hp & (q & Hlog & Hq)).
  simpl in Hrd, Hg, Hp, Hlog.
  assert (dispatched (log (start_tasks services llm_parameters (pending st)
                             (set_pending [] st))) = dispatched (log st))
    as Hd.
  { by rewrite Hlog, dispatched_app, (dispatched_quiet q), app_nil_r. }
  split.
  - rewrite Hg. apply HL.
  - intros d. rewrite Hd, Hrd, Hp. apply HL.
  - intros r Hr. rewrite Hd. by apply HL.
  - intros d p Hp' Hall. rewrite Hd. eapply (live_ready T st HL); [done|].
    intros q' Hq'. rewrite <- Hrd. by apply Hall.
  - intros n r. rewrite Hrd. apply HL.
  - apply start_tasks_unary; [by intros t ?%elem_of_nil|apply HL].
Qed.

(** One completion that raises nothing. *)
Lemma done_live st0 c t p' rp r n st' :
  live T st0 →
  take_task c (pending st0) = Some (t, p') →
  no_black_list rp →
  task_result t rp = Some (inr (r, n)) →
  process_done re_findall llm_parameters r n (set_pending p' st0)
    = (st', None) →
  live T st'.
Proof using T_wf.
  intros HL Htake Hrp Hres Hdone.
  destruct (take_task_spec _ _ _ _ Htake) as (Hc & Hperm & Hsub).
  assert (t ∈ pending st0) as Htin.
  { clear -Htake. revert t p' Htake.
    induction (pending st0) as [|t0 p IH]; intros t p' Heq; [done|].
    simpl in Heq. case_decide.
    - simplify_eq. by left.
    - destruct (take_task c p) as [[t1 q]|] eqn:E; simplify_eq/=.
      right. by eapply IH. }
  pose proof (live_tasks T st0 HL t Htin) as Hkind.
  assert (n = c ∧ ∃ m, r = Structured m
                       ∧ m !! py "downstream_black_list" = None)
    as (-> & m & -> & Hbl).
  { destruct t as [c0 l|c0|c0 ds|c0 e], rp as [m|b|up|]; simpl in *;
      try done.
    - injection Hres as <- <-. split; [done|]. by exists m.
    - injection Hres as <- <-. exfalso. revert Hdone.
      unfold process_done. by simpl. }
  unfold process_done in Hdone. cbn [prune_phase] in Hdone.
  rewrite Hbl in Hdone.
  set (stb := emit (ORecord c (Structured m))
                (set_result c (Structured m) (set_pending p' st0))) in *.
  destruct (readiness_scan_spec (downstream (runtime_graph stb) c) stb)
    as (st2 & e & disp & Heq2 & Hrd2 & Hg2 & Hlog2 & Hp2 & _ & _).
  pose proof (readiness_scan_complete _ _ _ Hdone) as Hcomplete.
  rewrite Hdone in Heq2. injection Heq2 as <- <-.
  assert (runtime_graph stb = T) as Hgb by apply HL.
  assert (result_dict st' = <[c := Structured m]> (result_dict st0)) as Hrd'
    by (by rewrite Hrd2).
  assert (dispatched (log st') = dispatched (log st0) ++ disp.*1) as Hd.
  { rewrite Hlog2. subst stb. simpl.
    by rewrite !dispatched_app, dispatched_dispatches, app_nil_r. }
  assert (pnodes st' = (task_node <$> p') ++ disp.*1) as Hpn.
  { unfold pnodes. rewrite Hp2, fmap_app. subst stb. simpl.
    by rewrite <- list_fmap_compose. }
  split.
  - by rewrite Hg2.
  - intros d. rewrite Hd, Hpn, Hrd'.
    intros [Hin|Hin]%elem_of_app; [|left; apply elem_of_app; by right].
    destruct (decide (d = c)) as [->|Hne].
    { right. by rewrite lookup_insert_eq. }
    rewrite lookup_insert_ne by done.
    destruct (live_done T st0 HL d Hin) as [Hpd|?]; [|by right].
    left. apply elem_of_app. left. unfold pnodes in Hpd.
    rewrite Hperm in Hpd. by apply elem_of_cons in Hpd as [?|?].
  - intros r Hr. rewrite Hd. apply elem_of_app. left. by apply HL.
  - intros d p Hp Hall.
    destruct (decide (c ∈ predecessors T d)) as [Hcd|Hcd].
    + apply Hcomplete.
      * rewrite Hgb. apply predecessors_downstream; [apply T_wf|done].
      * apply all_finished_spec. intros i Hi. rewrite Hgb in Hi.
        rewrite <- Hrd2. by apply Hall.
    + rewrite Hd. apply elem_of_app. left.
      eapply (live_ready T st0 HL); [exact Hp|].
      intros q Hq. specialize (Hall q Hq). rewrite Hrd' in Hall.
      rewrite lookup_insert_ne in Hall; [done|]. by intros <-.
  - intros x r. rewrite Hrd'.
    destruct (decide (x = c)) as [->|Hne].
    + rewrite lookup_insert_eq. intros [= <-]. by exists m.
    + rewrite lookup_insert_ne by done. apply HL.
  - intros t' Ht'. rewrite Hp2 in Ht'. subst stb. simpl in Ht'.
    apply elem_of_app in Ht' as [Hin|Hin].
    + apply (live_tasks T st0 HL).
      by eapply sublist_subseteq.
    + by apply list_elem_of_fmap in Hin as (dl & -> & _).
Qed.

Lemma run_batch_live (b : batch) st st' :
  Forall (λ cr : node * reply, no_black_list cr.2) b →
  live T st →
  run_batch re_findall llm_parameters b st = (st', None) →
  live T st'.
Proof using T_wf.
  revert st. induction b as [|[c rp] b IH]; intros st Hb HL Heq; simpl in Heq.
  { by injection Heq as <-. }
  apply Forall_cons in Hb as [Hrp Hb]. simpl in Hrp.
  destruct (take_task c (pending st)) as [[t p']|] eqn:Htake; [|done].
  destruct (task_result t rp) as [[e|[r n]]|] eqn:Hres; [done| |done].
  destruct (process_done re_findall llm_parameters r n (set_pending p' st))
    as [st1 [e|]] eqn:Hdone; [done|].
  eapply IH; [done| |exact Heq]. by eapply done_live.
Qed.

Lemma run_batch_leaves_loop (b : batch) st st' :
  run_batch re_findall llm_parameters b st ≠ (st', Some Exited).
Proof.
  revert st. induction b as [|[c rp] b IH]; intros st; simpl; [done|].
  destruct (take_task c (pending st)) as [[t p']|]; [|done].
  destruct (task_result t rp) as [[e|[r n]]|]; [done| |done].
  destruct (process_done re_findall llm_parameters r n (set_pending p' st))
    as [st1 [e|]]; [done|]. apply IH.
Qed.

Lemma event_loop_live (script : list batch) st st' :
  plain_script script →
  live T st →
  event_loop re_findall services llm_parameters script st = (st', Exited) →
  live T st' ∧ pending st' = [].
Proof using T_wf unary.
  revert st. induction script as [|b script IH]; intros st Hs HL Heq;
    simpl in Heq.
  { destruct (pending st) eqn:Hp; [|done]. by injection Heq as <-. }
  destruct (pending st) eqn:Hp.
  { by injection Heq as <-. }
  apply Forall_cons in Hs as [Hb Hs].
  destruct (run_batch re_findall llm_parameters b
              (start_all services llm_parameters st))
    as [st1 [s|]] eqn:Hrun.
  - injection Heq as <- ->. by apply run_batch_leaves_loop in Hrun.
  - eapply IH; [done| |exact Heq].
    eapply run_batch_live; [done| |exact Hrun]. by apply start_all_live.
Qed.

(** When the loop is left, every node of an acyclic template has its
    result. *)
Lemma live_all_results (rank : node → nat) st :
  topological T rank → live T st → pending st = [] →
  ∀ n, n ∈ nodes T → ∃ m, result_dict st !! n = Some (Structured m).
Proof.
  intros Htopo HL Hp.
  assert (∀ d, d ∈ dispatched (log st) → is_Some (result_dict st !! d))
    as Hdone.
  { intros d Hd. destruct (live_done T st HL d Hd) as [Hin|?]; [|done].
    unfold pnodes in Hin. rewrite Hp in Hin. by apply elem_of_nil in Hin. }
  assert (∀ k n, (rank n < k)%nat → n ∈ nodes T →
                 is_Some (result_dict st !! n)) as Hind.
  { induction k as [|k IH]; intros n Hk Hn; [lia|].
    apply Hdone.
    destruct (predecessors T n) as [|p ps] eqn:Hpre.
    - apply (live_roots T st HL). unfold ind_nodes.
      by apply list_elem_of_filter.
    - apply (live_ready T st HL n p); [rewrite Hpre; by left|].
      intros q Hq. apply IH; [|by eapply predecessors_nodes].
      specialize (Htopo q n Hq). lia. }
  intros n Hn. destruct (Hind (S (rank n)) n) as [r Hr]; [lia|done|].
  destruct (live_struct T st HL n r Hr) as [m ->]. by exists m.
Qed.

(** X25 ([ServiceOrchestrator.schedule], lines 128-204, with
    [get_all_final_outputs], lines 400-404).  A unary request on an acyclic
    graph whose replies carry no black list, once it returns, has run the
    whole graph: every node of the template has a mapping as its result, and
    the final outputs of the returned graph can be read without a
    [KeyError]. *)
Theorem schedule_runs_whole_graph (rank : node → nat) (init : payload)
    (script : list batch) st :
  topological T rank →
  plain_script script →
  schedule re_findall services llm_parameters T init script
    = (st, Returned) →
  (∀ n, n ∈ nodes T → ∃ m, result_dict st !! n = Some (Structured m))
  ∧ ∃ out, get_all_final_outputs (result_dict st) (runtime_graph st)
           = inr out.
Proof using T_wf unary.
  intros Htopo Hs Hsched. unfold schedule in Hsched.
  destruct (event_loop re_findall services llm_parameters script
              (seed T init)) as [st1 s] eqn:Hloop.
  pose proof (event_loop_status re_findall services llm_parameters script
                (seed T init)) as Hnot.
  rewrite Hloop in Hnot. simpl in Hnot.
  destruct s; try done.
  destruct (event_loop_live script _ _ Hs (seed_live init) Hloop)
    as [HL Hp].
  pose proof (live_all_results rank st1 Htopo HL Hp) as Hall.
  rewrite unary in Hsched. injection Hsched as <-. simpl.
  split; [done|].
  unfold get_all_final_outputs.
  pose proof (final_outputs_from_spec ∅
    (all_leaves (prune_unreachable (ind_nodes T) (runtime_graph st1)))
    (result_dict st1)) as Hfin.
  destruct (final_outputs_from _ _ _) as [e|out]; [|by exists out].
  destruct Hfin as (_ & leaf & Hleaf & Hnone). exfalso.
  unfold all_leaves in Hleaf. apply list_elem_of_filter in Hleaf as [_ Hin].
  unfold prune_unreachable in Hin.
  destruct (prune_fold_spec
    (ind_nodes T ≫= (λ i, i :: all_downstreams (runtime_graph st1) i))
    (nodes (runtime_graph st1)) (runtime_graph st1)) as [Hnodes _].
  rewrite Hnodes in Hin. apply list_elem_of_filter in Hin as [_ Hin].
  rewrite (live_graph T st1 HL) in Hin.
  destruct (Hall leaf Hin) as [m Hm]. congruence.
Qed.

End Liveness.

(** ** Building the orchestrator *)

Section BuilderFacts.

Import Builder.

Implicit Types (o : orchestrator) (l : list (node * service)) (n : node).

Lemma add_all_spec l o :
  registry_ok o →
  match add_all l o with
  | Some o' =>
      registry_ok o'
      ∧ nodes (graph o') = nodes (graph o) ++ l.*1
      ∧ (∀ n, n ∈ nodes (graph o) → services o' !! n = services o !! n)
      ∧ (∀ n svc, (n, svc) ∈ l → services o' !! n = Some svc)
  | None => ¬ NoDup (nodes (graph o) ++ l.*1)
  end.
Proof.
  revert o. induction l as [|[name svc] l IH]; intros o (Hnd & Hdom & Hemp).
  { simpl. rewrite app_nil_r. split_and!; try done.
    by intros ? ? ?%elem_of_nil. }
  cbn [add_all]. unfold add.
  destruct (decide (is_Some (services o !! name))) as [Hin|Hnin]; simpl.
  { rewrite NoDup_app. intros (_ & Hdisj & _).
    apply (Hdisj name); [by apply Hdom|by left]. }
  assert (name ∉ nodes (graph o)) as Hfresh by by rewrite <-Hdom.
  set (o1 := {| services := _; graph := _ |}).
  assert (graph o1 = graph o ++ [(name, [])]) as Hg1.
  { simpl. unfold add_node_if_not_exists. by rewrite decide_False. }
  assert (nodes (graph o1) = nodes (graph o) ++ [name]) as Hn1.
  { rewrite Hg1. unfold nodes. by rewrite fmap_app. }
  assert (registry_ok o1) as Hok1.
  { unfold registry_ok. rewrite Hn1, Hg1. split_and!.
    - apply NoDup_app. split_and!; [done| |apply NoDup_singleton].
      intros x Hx ->%list_elem_of_singleton. done.
    - intros n. rewrite elem_of_app, list_elem_of_singleton, <-Hdom.
      simpl. destruct (decide (n = name)) as [->|Hne].
      + rewrite lookup_insert_eq. naive_solver.
      + rewrite lookup_insert_ne by done. naive_solver.
    - apply Forall_app. split; [done|]. by repeat constructor. }
  specialize (IH o1 Hok1). rewrite Hn1, <-app_assoc in IH.
  destruct (add_all l o1) as [o'|]; [|done].
  destruct IH as (Hok' & Hn' & Hold & Hnew). split_and!; try done.
  - intros n Hn. rewrite Hold by set_solver.
    simpl. rewrite lookup_insert_ne; [done|]. by intros <-.
  - intros n s [[= -> ->]|Hin]%elem_of_cons; [|by apply Hnew].
    rewrite Hold by set_solver. simpl.
    by rewrite lookup_insert_eq.
Qed.

Lemma ind_nodes_no_edges (g : dag) :
  Forall (λ kv, kv.2 = []) g → ind_nodes g = nodes g.
Proof.
  intros Hemp. unfold ind_nodes. apply filter_all. intros a _.
  unfold predecessors. induction Hemp as [|[k s] g Hk _ IH]; [done|].
  simpl in Hk. subst s.
  rewrite (filter_cons_False (λ kv : node * list node, a ∈ kv.2));
    [done|].
  simpl. by intros ?%elem_of_nil.
Qed.

(** X17 ([add], lines 111-117).  A chain of [add] calls on a new
    orchestrator succeeds exactly when the service names are distinct (the
    first repeated name raises); it then registers every service under its
    name and makes the names the nodes of the graph, in order of
    registration and without edges, so that all of them are roots. *)
Theorem add_chain_spec l :
  match add_all l init with
  | Some o =>
      NoDup l.*1
      ∧ nodes (graph o) = l.*1 ∧ ind_nodes (graph o) = l.*1
      ∧ (∀ n svc, services o !! n = Some svc ↔ (n, svc) ∈ l)
  | None => ¬ NoDup l.*1
  end.
Proof.
  assert (registry_ok init) as Hinit.
  { split_and!; [apply NoDup_nil_2| |done].
    intros n. simpl. rewrite lookup_empty. split; [by intros [? ?]|].
    by intros ?%elem_of_nil. }
  pose proof (add_all_spec l init Hinit) as H. simpl in H.
  destruct (add_all l init) as [o|]; [|done].
  destruct H as ((Hnd & Hdom & Hemp) & Hn & _ & Hnew).
  split_and!; [by rewrite <-Hn|done|by rewrite ind_nodes_no_edges| ].
  intros n svc. split; [|apply Hnew].
  intros Hs. assert (n ∈ l.*1) as Hin.
  { rewrite <-Hn. apply Hdom. by eexists. }
  apply list_elem_of_fmap in Hin as ([n' svc'] & Heq & Hin).
  simpl in Heq. subst n'.
  rewrite (Hnew _ _ Hin) in Hs. by injection Hs as ->.
Qed.

End BuilderFacts.

(** ** The metrics object used by one thread *)

Section MetricsFacts.

Import Metrics.

Implicit Types (m : metrics) (c : call) (cs : list call).

Lemma updates_snoc cs c m :
  updates (cs ++ [c]) m
  = match updates cs m with inl e => inl e | inr m' => update c m' end.
Proof.
  revert m. induction cs as [|c' cs IH]; intros m; simpl.
  { by destruct (update c m). }
  destruct (update c' m) as [e|m']; [done|]. apply IH.
Qed.

Lemma metric_names_distinct :
  NoDup [FIRST_TOKEN_LATENCY; INTER_TOKEN_LATENCY; REQUEST_LATENCY;
         REQUEST_PENDING].
Proof. apply (bool_decide_unpack _). by vm_compute. Qed.

Lemma distinct_names :
  FIRST_TOKEN_LATENCY ≠ INTER_TOKEN_LATENCY
  ∧ FIRST_TOKEN_LATENCY ≠ REQUEST_LATENCY
  ∧ FIRST_TOKEN_LATENCY ≠ REQUEST_PENDING
  ∧ INTER_TOKEN_LATENCY ≠ REQUEST_LATENCY
  ∧ INTER_TOKEN_LATENCY ≠ REQUEST_PENDING
  ∧ REQUEST_LATENCY ≠ REQUEST_PENDING.
Proof. split_and!; by intros [=]. Qed.

Lemma reflects_step cs c m :
  reflects cs m → ∃ m', update c m = inr m' ∧ reflects (cs ++ [c]) m'.
Proof.
  destruct distinct_names as (D1 & D2 & D3 & D4 & D5 & D6).
  unfold reflects.
  rewrite !existsb_app. unfold first_token_observations,
    inter_token_observations, request_observations, pending_value.
  rewrite !omap_app, foldl_app.
  intros (Hf & Hi & Hr & Hp & Htu & Hru & Hpu & Hnd & Hreg).
  assert (∀ l : list call, existsb is_token l = false →
            omap (λ c, match c with
                       | TokenUpdate now t true => Some (now - t)%Z
                       | _ => None
                       end) l = []
            ∧ omap (λ c, match c with
                         | TokenUpdate now t false => Some (now - t)%Z
                         | _ => None
                         end) l = []) as Htnone.
  { induction l as [|[] l IH]; simpl; try done. }
  assert (∀ l : list call, existsb is_request l = false →
            omap (λ c, match c with
                       | RequestUpdate now t => Some (now - t)%Z
                       | _ => None
                       end) l = []) as Hrnone.
  { induction l as [|[] l IH]; simpl; try done. }
  assert (∀ (l : list call) v, existsb is_pending l = false →
            foldl (λ v c, match c with
                          | PendingUpdate true => v + 1
                          | PendingUpdate false => v - 1
                          | _ => v
                          end)%Z v l = v) as Hpnone.
  { induction l as [|[] l IH]; simpl; try done; auto. }
  assert (∀ (x : pystr) (l : list pystr),
            NoDup l → x ∉ l → NoDup (l ++ [x])) as Hsnoc.
  { intros x l Hl Hx. apply NoDup_app. split_and!; [done| |].
    - by intros y Hy ->%list_elem_of_singleton.
    - apply NoDup_singleton. }
  destruct c as [now t first|now t|inc]; cbn [update existsb is_token
    is_request is_pending orb omap list_omap foldl app].
  - rewrite !orb_false_r, orb_true_r.
    destruct (existsb is_token cs) eqn:Htok.
    + rewrite Htu. unfold _token_update_real.
      destruct first; [rewrite Hf|rewrite Hi]; eexists; (split; [done|]);
        simpl; rewrite ?app_nil_r; split_and!; done.
    + rewrite Htu. unfold _token_update_create. rewrite Htu.
      unfold register.
      rewrite decide_False by (rewrite Hreg; naive_solver).
      cbn [registry set_first_token_latency].
      rewrite decide_False
        by (rewrite elem_of_app, list_elem_of_singleton, Hreg; naive_solver).
      cbn [token_update set_token_update]. unfold _token_update_real.
      destruct (Htnone cs Htok) as [-> ->].
      destruct first; eexists; (split; [done|]); simpl;
        rewrite ?app_nil_r; split_and!; try done;
        try (intros name; rewrite !elem_of_app, !list_elem_of_singleton,
               Hreg; naive_solver);
        (apply Hsnoc; [apply Hsnoc; [done|]|];
         rewrite ?elem_of_app, ?list_elem_of_singleton, Hreg; naive_solver).
  - rewrite !orb_false_r, orb_true_r.
    destruct (existsb is_request cs) eqn:Hreq.
    + rewrite Hru. unfold _request_update_real. rewrite Hr.
      eexists; (split; [done|]); simpl; rewrite ?app_nil_r;
        split_and!; done.
    + rewrite Hru. unfold _request_update_create. rewrite Hru.
      unfold register.
      rewrite decide_False by (rewrite Hreg; naive_solver).
      cbn [request_update set_request_update]. unfold _request_update_real.
      rewrite (Hrnone cs Hreq).
      eexists; (split; [done|]); simpl; rewrite ?app_nil_r;
        split_and!; try done.
      * apply Hsnoc; [done|]. rewrite Hreg. naive_solver.
      * intros name; rewrite !elem_of_app, !list_elem_of_singleton, Hreg.
        naive_solver.
  - rewrite !orb_false_r, orb_true_r.
    destruct (existsb is_pending cs) eqn:Hpen.
    + rewrite Hpu. unfold _pending_update_real. rewrite Hp.
      eexists; (split; [done|]); simpl; rewrite ?app_nil_r;
        split_and!; done.
    + rewrite Hpu. unfold _pending_update_create. rewrite Hpu.
      unfold register.
      rewrite decide_False by (rewrite Hreg; naive_solver).
      cbn [pending_update set_pending_update]. unfold _pending_update_real.
      rewrite (Hpnone cs 0%Z Hpen).
      eexists; (split; [done|]); simpl; rewrite ?app_nil_r;
        split_and!; try done.
      * apply Hsnoc; [done|]. rewrite Hreg. naive_solver.
      * intros name; rewrite !elem_of_app, !list_elem_of_singleton, Hreg.
        naive_solver.
Qed.

(** X18 ([OrchestratorMetrics], lines 31-97).  Calls to the three update
    attributes of a new metrics object, made one after the other, never
    fail.  A metric is created, and its name registered, by the first call
    to its update and by nothing else, so no name is registered twice and a
    metric never updated does not exist; each histogram holds the
    observations made into it, in order, and the gauge the number of
    increments minus the number of decrements. *)
Theorem metrics_created_on_first_use cs :
  ∃ m, updates cs init = inr m ∧ reflects cs m.
Proof.
  induction cs as [|c cs IH] using rev_ind.
  { exists init. split; [done|]. unfold reflects. simpl.
    split_and!; try done; [apply NoDup_nil_2|].
    intros name. split; [by intros ?%elem_of_nil|naive_solver]. }
  destruct IH as (m & Hm & Href).
  destruct (reflects_step cs c m Href) as (m' & Hu & Href').
  exists m'. split; [|done]. by rewrite updates_snoc, Hm.
Qed.

End MetricsFacts.

(** ** The metrics object shared by threads *)

Section ThreadFacts.

Import Metrics Threads.

Implicit Types (s : system) (t : thread) (c : call) (f : family) (i j : nat).

Lemma holder_in_block s i t :
  safe s → threads s !! i = Some t → in_block t → holder s = Some t.
Proof.
  intros Hs Hi Hb. unfold holder. rewrite (safe_lock s Hs i t Hi Hb).
  simpl. done.
Qed.

Lemma not_holder s i t :
  safe s → threads s !! i = Some t → ¬ in_block t → lock s ≠ Some i.
Proof.
  intros Hs Hi Hb Hl. destruct (safe_holder s Hs i Hl) as (t' & Hi' & Hb').
  congruence.
Qed.

Lemma holder_set_thread_ne s i t :
  lock s ≠ Some i → holder (set_thread i t s) = holder s.
Proof.
  intros Hl. unfold holder. simpl. destruct (lock s) as [j|]; [|done].
  simpl. apply list_lookup_insert_ne. congruence.
Qed.

Lemma holder_set_thread_eq s i t t0 :
  lock s = Some i → threads s !! i = Some t0 →
  holder (set_thread i t s) = Some t.
Proof.
  intros Hl Hi. unfold holder. simpl. rewrite Hl. simpl.
  apply list_lookup_insert_eq. by eapply lookup_lt_Some.
Qed.

Lemma lookup_set_thread s i t j t' :
  threads (set_thread i t s) !! j = Some t' →
  (j = i ∧ t' = t) ∨ (j ≠ i ∧ threads s !! j = Some t').
Proof.
  simpl. intros [(-> & -> & _)|[? ?]]%list_lookup_insert_Some; [by left|].
  right. done.
Qed.

Lemma progress_outside s i t f :
  lock s ≠ Some i → progress f (set_thread i t s) = progress f s.
Proof.
  intros Hl. unfold progress. by rewrite holder_set_thread_ne.
Qed.

(** A thread outside the [with] block moves to another place outside it. *)
Lemma safe_move_outside s i t t' :
  safe s → threads s !! i = Some t → ¬ in_block t →
  ¬ in_block t' → ¬ crashed t' →
  (∀ c rest p, t' = Running c rest p → p = Recall ∨ p = Run →
               bound (family_of c) (shared s) = Real) →
  safe (set_thread i t' s).
Proof.
  intros Hs Hi Hout Hout' Hcrash' Hreal.
  pose proof (not_holder s i t Hs Hi Hout) as Hl.
  assert (∀ f, progress f (set_thread i t' s) = progress f s) as Hprog
    by (intros f; by apply progress_outside).
  destruct Hs as [Hlock Hholder Hmake Hafter Hhist Hcrash Hnd Hreg Hfirst
                    Hinter Hreq Hpen].
  constructor; rewrite ?Hprog; try done.
  - intros j tj [[-> ->]|[Hne Hj]]%lookup_set_thread Hb; [done|].
    by eapply Hlock.
  - intros j Hj. destruct (Hholder j Hj) as (tj & Htj & Hb).
    exists tj. split; [|done]. simpl. rewrite list_lookup_insert_ne; [done|].
    simpl in Hj. congruence.
  - intros j c rest k [[-> <-]|[Hne Hj]]%lookup_set_thread.
    + exfalso. by apply Hout'.
    + by eapply Hmake.
  - intros j c rest p [[-> <-]|[Hne Hj]]%lookup_set_thread Hp.
    + destruct Hp as [->|Hp]; [by exfalso; apply Hout'|].
      by eapply Hreal.
    + by eapply Hafter.
  - intros j tj [[-> ->]|[Hne Hj]]%lookup_set_thread; [done|].
    by eapply Hcrash.
Qed.

(** A waiting thread takes the free lock. *)
Lemma safe_enter s i c rest :
  safe s → threads s !! i = Some (Running c rest Enter) → lock s = None →
  safe (set_lock (Some i) (set_thread i (Running c rest Check) s)).
Proof.
  intros Hs Hi Hfree.
  assert (∀ f, progress f (set_lock (Some i)
                             (set_thread i (Running c rest Check) s))
               = progress f s) as Hprog.
  { intros f. unfold progress, holder. simpl. rewrite Hfree. simpl.
    rewrite list_lookup_insert_eq by by eapply lookup_lt_Some. done. }
  destruct Hs as [Hlock Hholder Hmake Hafter Hhist Hcrash Hnd Hreg Hfirst
                    Hinter Hreq Hpen].
  constructor; rewrite ?Hprog; try done.
  - intros j tj [[-> ->]|[Hne Hj]]%lookup_set_thread Hb; [done|].
    pose proof (Hlock j tj Hj Hb). congruence.
  - intros j [= <-]. exists (Running c rest Check). split; [|done]. simpl.
    apply list_lookup_insert_eq. by eapply lookup_lt_Some.
  - intros j c' rest' k [[-> [=]]|[Hne Hj]]%lookup_set_thread.
    by eapply Hmake.
  - intros j c' rest' p [[-> [= -> -> ->]]|[Hne Hj]]%lookup_set_thread Hp.
    + by destruct Hp as [?|[?|?]].
    + by eapply Hafter.
  - intros j tj [[-> ->]|[Hne Hj]]%lookup_set_thread; [by intros []|].
    by eapply Hcrash.
Qed.

(** The holder of the lock moves inside the [with] block, the metrics
    object staying as it is. *)
Lemma safe_move_inside s i t t' :
  safe s → threads s !! i = Some t → in_block t → in_block t' →
  (∀ f, progress f (set_thread i t' s) = progress f s) →
  (∀ c rest k, t' = Running c rest (Make k) →
     (k ≤ stmts (family_of c))%nat
     ∧ (bound (family_of c) (shared s) = Real ↔ k = stmts (family_of c))) →
  (∀ c rest, t' = Running c rest Release →
             bound (family_of c) (shared s) = Real) →
  safe (set_thread i t' s).
Proof.
  intros Hs Hi Hin Hin' Hprog Hmake' Hafter'.
  pose proof (safe_lock s Hs i t Hi Hin) as Hl.
  destruct Hs as [Hlock Hholder Hmake Hafter Hhist Hcrash Hnd Hreg Hfirst
                    Hinter Hreq Hpen].
  constructor; rewrite ?Hprog; try done.
  - intros j tj [[-> ->]|[Hne Hj]]%lookup_set_thread Hb; [done|].
    by eapply Hlock.
  - intros j Hj. simpl in Hj. assert (j = i) as -> by congruence.
    exists t'. split; [|done]. simpl.
    apply list_lookup_insert_eq. by eapply lookup_lt_Some.
  - intros j c rest k [[-> <-]|[Hne Hj]]%lookup_set_thread.
    + by eapply Hmake'.
    + by eapply Hmake.
  - intros j c rest p [[-> <-]|[Hne Hj]]%lookup_set_thread Hp.
    + destruct Hp as [->|[->| ->]]; [by eapply Hafter'|done..].
    + by eapply Hafter.
  - intros j tj [[-> ->]|[Hne Hj]]%lookup_set_thread.
    + intros Hc. by destruct t' as [? ? ?| |].
    + by eapply Hcrash.
Qed.

(** The holder leaves the [with] block. *)
Lemma safe_release s i c rest :
  safe s → threads s !! i = Some (Running c rest Release) →
  safe (set_lock None (set_thread i (Running c rest Recall) s)).
Proof.
  intros Hs Hi.
  pose proof (safe_lock s Hs i _ Hi I) as Hl.
  pose proof (safe_after s Hs i c rest Release Hi (or_introl eq_refl))
    as Hreal.
  assert (∀ f, progress f (set_lock None
                             (set_thread i (Running c rest Recall) s))
               = progress f s) as Hprog.
  { intros f. unfold progress, holder. simpl. rewrite Hl. simpl. rewrite Hi.
    done. }
  destruct Hs as [Hlock Hholder Hmake Hafter Hhist Hcrash Hnd Hreg Hfirst
                    Hinter Hreq Hpen].
  constructor; rewrite ?Hprog; try done.
  - intros j tj [[-> ->]|[Hne Hj]]%lookup_set_thread Hb; [done|].
    pose proof (Hlock j tj Hj Hb). congruence.
  - intros j c' rest' k [[-> [=]]|[Hne Hj]]%lookup_set_thread.
    by eapply Hmake.
  - intros j c' rest' p [[-> [= -> -> ->]]|[Hne Hj]]%lookup_set_thread Hp.
    + exact Hreal.
    + by eapply Hafter.
  - intros j tj [[-> ->]|[Hne Hj]]%lookup_set_thread; [by intros []|].
    by eapply Hcrash.
Qed.

Lemma stmts_pos f : (1 ≤ stmts f)%nat.
Proof. destruct f; simpl; lia. Qed.

(** The holder executes a creation statement that turns the metrics object
    into [m']. *)
Lemma safe_make_stmt s i c rest k m' :
  let f := family_of c in
  let P f' := if decide (f' = f) then S k else progress f' s in
  safe s → threads s !! i = Some (Running c rest (Make k)) →
  (S k ≤ stmts f)%nat →
  (∀ f', f' ≠ f → bound f' m' = bound f' (shared s)) →
  (bound f m' = Real ↔ S k = stmts f) →
  NoDup (registry m') →
  (∀ name, name ∈ registry m' ↔
      (name = FIRST_TOKEN_LATENCY ∧ (1 ≤ P Token)%nat)
      ∨ (name = INTER_TOKEN_LATENCY ∧ (3 ≤ P Token)%nat)
      ∨ (name = REQUEST_LATENCY ∧ (1 ≤ P Request)%nat)
      ∨ (name = REQUEST_PENDING ∧ (1 ≤ P Pending)%nat)) →
  first_token_latency m'
  = (if decide (2 ≤ P Token)%nat
     then Some (first_token_observations (history s)) else None) →
  inter_token_latency m'
  = (if decide (4 ≤ P Token)%nat
     then Some (inter_token_observations (history s)) else None) →
  request_latency m'
  = (if decide (2 ≤ P Request)%nat
     then Some (request_observations (history s)) else None) →
  request_pending m'
  = (if decide (2 ≤ P Pending)%nat
     then Some (pending_value (history s)) else None) →
  safe (set_shared m' (set_thread i (Running c rest (Make (S k))) s)).
Proof.
  intros f P Hs Hi Hk Hother Hbound Hnd' Hreg' Hfirst' Hinter' Hreq' Hpen'.
  pose proof (safe_lock s Hs i _ Hi I) as Hl.
  pose proof (holder_in_block s i _ Hs Hi I) as Hh.
  destruct (safe_make s Hs i c rest k Hi) as [_ Hcreate].
  assert (bound f (shared s) = Create) as Hc.
  { destruct (bound f (shared s)) eqn:E; [done|].
    apply Hcreate in E. subst f. lia. }
  set (s' := set_shared m' (set_thread i (Running c rest (Make (S k))) s)).
  assert (holder s' = Some (Running c rest (Make (S k)))) as Hh'.
  { unfold holder. simpl. rewrite Hl. simpl.
    apply list_lookup_insert_eq. by eapply lookup_lt_Some. }
  assert (∀ f', progress f' s' = P f') as Hprog.
  { intros f'. unfold P, progress. rewrite Hh'. simpl shared.
    destruct (decide (f' = f)) as [->|Hne].
    - destruct (bound f m') eqn:E.
      + simpl. by rewrite decide_True.
      + symmetry. by apply Hbound.
    - rewrite (Hother f' Hne), Hh. simpl.
      rewrite !decide_False by done. done. }
  assert (∀ f', bound f' (shared s) = Real → bound f' m' = Real) as Hmono.
  { intros f' Hr. destruct (decide (f' = f)) as [->|Hne]; [congruence|].
    by rewrite Hother. }
  destruct Hs as [Hlock Hholder Hmake Hafter Hhist Hcrash Hnd Hreg Hfirst
                    Hinter Hreq Hpen].
  constructor; rewrite ?Hprog; try done.
  - intros j tj [[-> ->]|[Hne Hj]]%lookup_set_thread Hb; [done|].
    by eapply Hlock.
  - intros j Hj. simpl in Hj. assert (j = i) as -> by congruence.
    exists (Running c rest (Make (S k))). split; [|done]. simpl.
    apply list_lookup_insert_eq. by eapply lookup_lt_Some.
  - intros j c0 rest0 k0 [[-> [= -> -> ->]]|[Hne Hj]]%lookup_set_thread.
    + split; [done|]. exact Hbound.
    + pose proof (Hlock j _ Hj I). congruence.
  - intros j c0 rest0 p [[-> [= -> -> ->]]|[Hne Hj]]%lookup_set_thread Hp.
    + by destruct Hp as [?|[?|?]].
    + apply Hmono. by eapply Hafter.
  - intros c0 Hc0. apply Hmono. by apply Hhist.
  - intros j tj [[-> ->]|[Hne Hj]]%lookup_set_thread; [by intros []|].
    by eapply Hcrash.
Qed.

End ThreadFacts.

Section ThreadSteps.

Import Metrics Threads.

Implicit Types (s : system) (t : thread) (c : call) (f : family) (i j : nat).

Lemma progress_at_make s i c rest k :
  safe s → threads s !! i = Some (Running c rest (Make k)) →
  progress (family_of c) s = k.
Proof.
  intros Hs Hi. destruct (safe_make s Hs i c rest k Hi) as [Hk Hb].
  unfold progress. rewrite (holder_in_block s i _ Hs Hi I).
  destruct (bound (family_of c) (shared s)) eqn:E.
  - simpl. by rewrite decide_True.
  - symmetry. by apply Hb.
Qed.

Lemma NoDup_snoc (x : pystr) (l : list pystr) :
  NoDup l → x ∉ l → NoDup (l ++ [x]).
Proof.
  intros Hl Hx. apply NoDup_app. split_and!; [done| |apply NoDup_singleton].
  by intros y Hy ->%list_elem_of_singleton.
Qed.

Lemma no_history (m : metrics) (h : list call) :
  (∀ c, c ∈ h → bound (family_of c) m = Real) →
  (token_update m = Create →
   first_token_observations h = [] ∧ inter_token_observations h = [])
  ∧ (request_update m = Create → request_observations h = [])
  ∧ (pending_update m = Create → pending_value h = 0%Z).
Proof.
  unfold pending_value. generalize 0%Z as v.
  induction h as [|c h IH]; intros v Hall; [done|].
  destruct (IH (match c with
                | PendingUpdate true => v + 1
                | PendingUpdate false => v - 1
                | _ => v
                end)%Z) as (IHt & IHr & IHp).
  { intros c' Hc'. apply Hall. by right. }
  pose proof (Hall c (list_elem_of_here _ _)) as Hc.
  destruct c as [now ts first|now ts|inc]; simpl in Hc |- *;
    (split_and!; [intros E|intros E|intros E]); try congruence; auto.
Qed.

Ltac make_stmt Hgen Hs Hi Hb Hnd Hreg Hpk Hfirst Hinter Hreq Hpen :=
  apply Hgen; [exact Hs|exact Hi|..]; simpl;
  [ lia
  | by intros [] ?
  | first [ by split | split; [intros E; apply Hb in E; lia|lia] ]
  | first [ exact Hnd | by apply NoDup_snoc ]
  | intros name;
    rewrite ?elem_of_app, ?list_elem_of_singleton, Hreg, Hpk;
    clear; intuition lia
  | first [ done | rewrite Hfirst, Hpk; done | congruence ]
  | first [ done | rewrite Hinter, Hpk; done | congruence ]
  | first [ done | rewrite Hreq, Hpk; done | congruence ]
  | first [ done | rewrite Hpen, Hpk; done | congruence ] ].

Lemma safe_make_step s i c rest k :
  safe s → threads s !! i = Some (Running c rest (Make k)) →
  match create_stmt (family_of c) k (shared s) with
  | None => bound (family_of c) (shared s) = Real
  | Some (inl e) => False
  | Some (inr m) =>
      safe (set_shared m (set_thread i (Running c rest (Make (S k))) s))
  end.
Proof.
  intros Hs Hi.
  destruct (safe_make s Hs i c rest k Hi) as [Hk Hb].
  pose proof (progress_at_make s i c rest k Hs Hi) as Hpk.
  pose proof (safe_make_stmt s i c rest k) as Hgen. cbv zeta in Hgen.
  pose proof (safe_nodup s Hs) as Hnd.
  pose proof (safe_registry s Hs) as Hreg.
  pose proof (safe_first s Hs) as Hfirst.
  pose proof (safe_inter s Hs) as Hinter.
  pose proof (safe_request s Hs) as Hreq.
  pose proof (safe_pending s Hs) as Hpen.
  destruct (no_history (shared s) (history s) (safe_history s Hs))
    as (Hnt & Hnr & Hnp).
  destruct distinct_names as (D1 & D2 & D3 & D4 & D5 & D6).
  set (n1 := FIRST_TOKEN_LATENCY) in *.
  set (n2 := INTER_TOKEN_LATENCY) in *.
  set (n3 := REQUEST_LATENCY) in *.
  set (n4 := REQUEST_PENDING) in *.
  assert (∀ name : pystr, name ∈ registry (shared s) →
            (name = n1 ∧ (1 ≤ progress Token s)%nat)
            ∨ (name = n2 ∧ (3 ≤ progress Token s)%nat)
            ∨ (name = n3 ∧ (1 ≤ progress Request s)%nat)
            ∨ (name = n4 ∧ (1 ≤ progress Pending s)%nat)) as Hreg1
    by (intros name; apply Hreg).
  assert (bound (family_of c) (shared s) = Create
          ∨ k = stmts (family_of c)) as Hcr.
  { destruct (bound (family_of c) (shared s)) eqn:E; [by left|].
    right. by apply Hb. }
  destruct c as [now ts first|now ts|inc]; cbn [family_of] in *.
  - destruct k as [|[|[|[|[|k]]]]]; cbn [create_stmt stmts] in *;
      fold n1 n2 n3 n4; clearbody n1 n2 n3 n4;
      [destruct Hcr as [Hcr|?]; [|lia];
       destruct (Hnt Hcr) as [Hn1 Hn2]..|apply Hb; lia].
    + unfold register.
      destruct (decide (n1 ∈ registry (shared s))) as [Hin|Hnin].
      { apply Hreg1 in Hin. rewrite Hpk in Hin.
        destruct Hin as [[_ ?]|[[? _]|[[? _]|[? _]]]]; [lia|done..]. }
      make_stmt Hgen Hs Hi Hb Hnd Hreg Hpk Hfirst Hinter Hreq Hpen.
    + make_stmt Hgen Hs Hi Hb Hnd Hreg Hpk Hfirst Hinter Hreq Hpen.
    + unfold register.
      destruct (decide (n2 ∈ registry (shared s))) as [Hin|Hnin].
      { apply Hreg1 in Hin. rewrite Hpk in Hin.
        destruct Hin as [[? _]|[[_ ?]|[[? _]|[? _]]]]; [done|lia|done..]. }
      make_stmt Hgen Hs Hi Hb Hnd Hreg Hpk Hfirst Hinter Hreq Hpen.
    + make_stmt Hgen Hs Hi Hb Hnd Hreg Hpk Hfirst Hinter Hreq Hpen.
    + make_stmt Hgen Hs Hi Hb Hnd Hreg Hpk Hfirst Hinter Hreq Hpen.
  - destruct k as [|[|[|k]]]; cbn [create_stmt stmts] in *;
      fold n1 n2 n3 n4; clearbody n1 n2 n3 n4;
      [destruct Hcr as [Hcr|?]; [|lia];
       pose proof (Hnr Hcr) as Hn1..|apply Hb; lia].
    + unfold register.
      destruct (decide (n3 ∈ registry (shared s))) as [Hin|Hnin].
      { apply Hreg1 in Hin. rewrite Hpk in Hin.
        destruct Hin as [[? _]|[[? _]|[[_ ?]|[? _]]]]; [done|done|lia|done]. }
      make_stmt Hgen Hs Hi Hb Hnd Hreg Hpk Hfirst Hinter Hreq Hpen.
    + make_stmt Hgen Hs Hi Hb Hnd Hreg Hpk Hfirst Hinter Hreq Hpen.
    + make_stmt Hgen Hs Hi Hb Hnd Hreg Hpk Hfirst Hinter Hreq Hpen.
  - destruct k as [|[|[|k]]]; cbn [create_stmt stmts] in *;
      fold n1 n2 n3 n4; clearbody n1 n2 n3 n4;
      [destruct Hcr as [Hcr|?]; [|lia];
       pose proof (Hnp Hcr) as Hn1..|apply Hb; lia].
    + unfold register.
      destruct (decide (n4 ∈ registry (shared s))) as [Hin|Hnin].
      { apply Hreg1 in Hin. rewrite Hpk in Hin.
        destruct Hin as [[? _]|[[? _]|[[? _]|[_ ?]]]]; [done|done|done|lia]. }
      make_stmt Hgen Hs Hi Hb Hnd Hreg Hpk Hfirst Hinter Hreq Hpen.
    + make_stmt Hgen Hs Hi Hb Hnd Hreg Hpk Hfirst Hinter Hreq Hpen.
    + make_stmt Hgen Hs Hi Hb Hnd Hreg Hpk Hfirst Hinter Hreq Hpen.
Qed.

Lemma progress_real f s :
  bound f (shared s) = Real → progress f s = stmts f.
Proof. unfold progress. by intros ->. Qed.

Lemma observations_snoc (h : list call) (c : call) :
  first_token_observations (h ++ [c])
  = first_token_observations h
    ++ match c with TokenUpdate now t true => [(now - t)%Z] | _ => [] end
  ∧ inter_token_observations (h ++ [c])
    = inter_token_observations h
      ++ match c with TokenUpdate now t false => [(now - t)%Z] | _ => [] end
  ∧ request_observations (h ++ [c])
    = request_observations h
      ++ match c with RequestUpdate now t => [(now - t)%Z] | _ => [] end
  ∧ pending_value (h ++ [c])
    = match c with
      | PendingUpdate true => (pending_value h + 1)%Z
      | PendingUpdate false => (pending_value h - 1)%Z
      | _ => pending_value h
      end.
Proof.
  unfold first_token_observations, inter_token_observations,
    request_observations, pending_value.
  rewrite !omap_app, foldl_app. by destruct c as [? ? []| |[]].
Qed.

(** A [_real] method runs on metrics that exist. *)
Lemma safe_run s c :
  safe s → bound (family_of c) (shared s) = Real →
  ∃ m, real c (shared s) = inr m ∧ safe (record_call c (set_shared m s)).
Proof.
  intros Hs Hreal.
  pose proof (progress_real _ s Hreal) as Hp.
  pose proof (safe_first s Hs) as Hfirst.
  pose proof (safe_inter s Hs) as Hinter.
  pose proof (safe_request s Hs) as Hreq.
  pose proof (safe_pending s Hs) as Hpen.
  assert (∀ m, (∀ f, bound f m = bound f (shared s)) →
               ∀ f, progress f (record_call c (set_shared m s))
                    = progress f s) as Hprog.
  { intros m Hm f. unfold progress. simpl. by rewrite Hm. }
  assert (∀ m, (∀ f, bound f m = bound f (shared s)) →
     registry m = registry (shared s) →
     first_token_latency m
     = (if decide (2 ≤ progress Token s)%nat
        then Some (first_token_observations (history s ++ [c])) else None) →
     inter_token_latency m
     = (if decide (4 ≤ progress Token s)%nat
        then Some (inter_token_observations (history s ++ [c])) else None) →
     request_latency m
     = (if decide (2 ≤ progress Request s)%nat
        then Some (request_observations (history s ++ [c])) else None) →
     request_pending m
     = (if decide (2 ≤ progress Pending s)%nat
        then Some (pending_value (history s ++ [c])) else None) →
     safe (record_call c (set_shared m s))) as Hgen.
  { intros m Hm Hr H1 H2 H3 H4. specialize (Hprog m Hm).
    destruct Hs as [Hlock Hholder Hmake Hafter Hhist Hcrash Hnd Hreg _ _ _ _].
    constructor; rewrite ?Hprog; simpl; rewrite ?Hm, ?Hr; try done.
    - intros j c0 rest0 k0 Hj. rewrite Hm. by eapply Hmake.
    - intros j c0 rest0 p0 Hj Hp0. rewrite Hm. by eapply Hafter.
    - intros c' [Hc'| ->%list_elem_of_singleton]%elem_of_app; rewrite Hm;
        [by apply Hhist|done]. }
  destruct (observations_snoc (history s) c) as (E1 & E2 & E3 & E4).
  rewrite E1, E2, E3, E4 in Hgen. clear E1 E2 E3 E4.
  destruct c as [now ts first|now ts|inc]; simpl in Hreal, Hp |- *.
  - unfold _token_update_real. rewrite Hp in Hfirst, Hinter.
    simpl in Hfirst, Hinter. destruct first.
    + rewrite Hfirst. eexists. split; [done|].
      apply Hgen; simpl; rewrite ?Hp, ?app_nil_r; try done; by intros [].
    + rewrite Hinter. eexists. split; [done|].
      apply Hgen; simpl; rewrite ?Hp, ?app_nil_r; try done; by intros [].
  - unfold _request_update_real. rewrite Hp in Hreq. simpl in Hreq.
    rewrite Hreq. eexists. split; [done|].
    apply Hgen; simpl; rewrite ?Hp, ?app_nil_r; try done; by intros [].
  - unfold _pending_update_real. rewrite Hp in Hpen. simpl in Hpen.
    rewrite Hpen. eexists. split; [done|].
    apply Hgen; simpl; rewrite ?Hp, ?app_nil_r; try done;
      first [by intros []|by destruct inc].
Qed.

Lemma safe_start i rest s t :
  safe s → threads s !! i = Some t → ¬ in_block t →
  safe (set_thread i (start rest) s).
Proof.
  intros Hs Hi Hout. eapply safe_move_outside; [done..| | |].
  - destruct rest; by intros [].
  - destruct rest; by intros [].
  - intros c r p. destruct rest; [done|]. intros [= <- <- <-] [?|?]; done.
Qed.

(** Every step keeps the invariant. *)
Lemma safe_step i s : safe s → safe (step i s).
Proof.
  intros Hs. unfold step.
  destruct (threads s !! i) as [[c rest p| |]|] eqn:Hi; try done.
  destruct p as [| | |k| | |].
  - (* Lookup *)
    destruct (bound (family_of c) (shared s)) eqn:Hb;
      apply (safe_move_outside s i _ _ Hs Hi); try (by intros []).
    + intros ? ? ? [= <- <- <-] [?|?]; done.
    + by intros ? ? ? [= <- <- <-] _.
  - (* Enter *)
    destruct (lock s) eqn:Hl; [done|]. by apply safe_enter.
  - (* Check *)
    pose proof (safe_lock s Hs i _ Hi I) as Hl.
    pose proof (holder_in_block s i _ Hs Hi I) as Hh.
    destruct (bound (family_of c) (shared s)) eqn:Hb;
      apply (safe_move_inside s i _ _ Hs Hi); try done.
    + intros f. unfold progress. simpl shared.
      rewrite (holder_set_thread_eq s i _ _ Hl Hi), Hh. simpl.
      by destruct (decide _).
    + intros ? ? ? [= <- <- <-]. split; [lia|]. rewrite Hb.
      pose proof (stmts_pos (family_of c)). split; [done|lia].
    + intros f. unfold progress. simpl shared.
      by rewrite (holder_set_thread_eq s i _ _ Hl Hi), Hh.
    + by intros ? ? [= <- <-].
  - (* Make *)
    pose proof (safe_lock s Hs i _ Hi I) as Hl.
    pose proof (holder_in_block s i _ Hs Hi I) as Hh.
    pose proof (safe_make_step s i c rest k Hs Hi) as Hm.
    destruct (create_stmt (family_of c) k (shared s)) as [[e|m]|];
      [done|done|].
    apply (safe_move_inside s i _ _ Hs Hi); try done.
    + intros f. unfold progress. simpl shared.
      rewrite (holder_set_thread_eq s i _ _ Hl Hi), Hh. simpl.
      destruct (decide (family_of c = f)) as [<-|Hne]; [|done].
      by rewrite Hm.
    + by intros ? ? [= <- <-].
  - (* Release *)
    by apply safe_release.
  - (* Recall *)
    pose proof (safe_after s Hs i c rest Recall Hi) as Hb.
    rewrite Hb by auto.
    apply (safe_move_outside s i _ _ Hs Hi); try (by intros []).
    intros ? ? ? [= <- <- <-] _. apply Hb; auto.
  - (* Run *)
    pose proof (safe_after s Hs i c rest Run Hi) as Hb.
    assert (safe (set_thread i (start rest) s)) as Hs1.
    { apply (safe_start i rest s _ Hs Hi). by intros []. }
    destruct (safe_run (set_thread i (start rest) s) c Hs1) as (m & Hm & Hs2).
    { apply Hb. auto. }
    simpl in Hm. rewrite Hm. done.
Qed.

Lemma safe_run_sched (sched : list nat) s : safe s → safe (run sched s).
Proof.
  unfold run. revert s. induction sched as [|i sched IH]; intros s Hs;
    [done|]. simpl. by apply IH, safe_step.
Qed.

Lemma safe_boot (work : list (list call)) : safe (boot work).
Proof.
  assert (∀ i t, threads (boot work) !! i = Some t →
                 ¬ in_block t ∧ ¬ crashed t
                 ∧ ∀ c rest p, t = Running c rest p → p = Lookup) as Hth.
  { intros i t. simpl. rewrite list_lookup_fmap.
    destruct (work !! i) as [[|c cs]|]; simpl; intros [= <-];
      split_and!; first [by intros []|by intros ? ? ? [=]]. }
  constructor; simpl; try done.
  - intros i t Hi Hb. by destruct (Hth i t Hi) as (? & _).
  - intros i c rest k Hi. by destruct (Hth i _ Hi) as (? & _).
  - intros i c rest p Hi Hp. destruct (Hth i _ Hi) as (_ & _ & Hl).
    rewrite (Hl c rest p eq_refl) in Hp. by destruct Hp as [?|[?|?]].
  - by intros c ?%elem_of_nil.
  - intros i t Hi. by destruct (Hth i t Hi) as (_ & ? & _).
  - apply NoDup_nil_2.
  - intros name. unfold progress. simpl. split; [by intros ?%elem_of_nil|].
    intros [[_ ?]|[[_ ?]|[[_ ?]|[_ ?]]]]; lia.
Qed.

End ThreadSteps.

Section ThreadResults.

Import Metrics Threads.

Implicit Types (s : system) (t : thread) (c : call) (i j : nat).

Lemma remaining_insert (l : list thread) i t t' :
  l !! i = Some t → remaining t' = remaining t →
  remaining <$> <[i := t']> l = remaining <$> l.
Proof.
  intros Hi Hr. rewrite list_fmap_insert, Hr. apply list_insert_id.
  by rewrite list_lookup_fmap, Hi.
Qed.

Lemma remaining_pop (l : list thread) i c rest p :
  l !! i = Some (Running c rest p) →
  concat (remaining <$> l)
  ≡ₚ c :: concat (remaining <$> <[i := start rest]> l).
Proof.
  revert i. induction l as [|t l IH]; intros [|i] Hi; simplify_eq/=.
  - by destruct rest.
  - rewrite (IH i Hi). by rewrite Permutation_middle.
Qed.

(** No call is lost: the calls of the threads are those that have run and
    those still to complete. *)
Lemma step_accounts i s (all : list call) :
  safe s →
  all ≡ₚ history s ++ concat (remaining <$> threads s) →
  all ≡ₚ history (step i s) ++ concat (remaining <$> threads (step i s)).
Proof.
  intros Hs Hall. unfold step.
  destruct (threads s !! i) as [[c rest p| |]|] eqn:Hi; try done.
  assert (∀ p', remaining <$> <[i := Running c rest p']> (threads s)
                = remaining <$> threads s) as Hsame
    by (intros p'; by eapply remaining_insert).
  destruct p as [| | |k| | |]; simpl.
  - by rewrite Hsame.
  - destruct (lock s); [done|]. simpl. by rewrite Hsame.
  - by rewrite Hsame.
  - pose proof (safe_make_step s i c rest k Hs Hi) as Hm.
    destruct (create_stmt (family_of c) k (shared s)) as [[e|m]|];
      [done|simpl; by rewrite Hsame..].
  - by rewrite Hsame.
  - by rewrite Hsame.
  - pose proof (safe_after s Hs i c rest Run Hi) as Hb.
    destruct (safe_run s c Hs) as (m & Hm & _); [apply Hb; auto|].
    rewrite Hm. simpl. rewrite Hall, (remaining_pop _ i c rest Run Hi).
    by rewrite <-app_assoc.
Qed.

Lemma run_accounts (sched : list nat) s (all : list call) :
  safe s →
  all ≡ₚ history s ++ concat (remaining <$> threads s) →
  all ≡ₚ history (run sched s)
         ++ concat (remaining <$> threads (run sched s)).
Proof.
  unfold run. revert s. induction sched as [|i sched IH]; intros s Hs Hall;
    [done|]. simpl. apply IH; [by apply safe_step|by apply step_accounts].
Qed.

Lemma boot_accounts (work : list (list call)) :
  concat work
  ≡ₚ history (boot work) ++ concat (remaining <$> threads (boot work)).
Proof.
  simpl. rewrite <-list_fmap_compose.
  induction work as [|[|c cs] work IH]; simpl; [done|done|].
  by rewrite <-IH.
Qed.



Lemma reached_safe (work : list (list call)) (sched : list nat) :
  let s := run sched (boot work) in
  safe s ∧ concat work ≡ₚ history s ++ concat (remaining <$> threads s).
Proof.
  split.
  - apply safe_run_sched, safe_boot.
  - apply run_accounts; [apply safe_boot|apply boot_accounts].
Qed.

(** X19 ([OrchestratorMetrics], lines 31-97).  Threads that share the
    metrics object and call its update attributes concurrently, interleaved
    in any way at the level of single statements: no call ever fails, so no
    metric name is registered twice and no update runs on a metric that does
    not exist yet; and at every moment each existing histogram holds the
    observations of the updates that have run, in the order they ran, and
    the gauge their increments minus their decrements.  No call is lost:
    the calls of the threads are those that have run and those still to
    complete. *)
Theorem metrics_threads_safe (work : list (list call)) (sched : list nat) :
  let s := run sched (boot work) in
  (∀ i e, threads s !! i ≠ Some (Crashed e))
  ∧ NoDup (registry (shared s))
  ∧ (∀ h, first_token_latency (shared s) = Some h →
          h = first_token_observations (history s))
  ∧ (∀ h, inter_token_latency (shared s) = Some h →
          h = inter_token_observations (history s))
  ∧ (∀ h, request_latency (shared s) = Some h →
          h = request_observations (history s))
  ∧ (∀ v, request_pending (shared s) = Some v →
          v = pending_value (history s))
  ∧ concat work ≡ₚ history s ++ concat (remaining <$> threads s).
Proof.
  intros s. destruct (reached_safe work sched) as [Hs Hall]. fold s in Hs, Hall.
  split_and!; [|apply (safe_nodup s Hs)|..|done].
  - intros i e Hi. by apply (safe_crash s Hs i _ Hi).
  - intros h. rewrite (safe_first s Hs). by destruct (decide _); intros [= <-].
  - intros h. rewrite (safe_inter s Hs). by destruct (decide _); intros [= <-].
  - intros h. rewrite (safe_request s Hs).
    by destruct (decide _); intros [= <-].
  - intros h. rewrite (safe_pending s Hs).
    by destruct (decide _); intros [= <-].
Qed.





Lemma step_moves j s c rest p :
  safe s → threads s !! j = Some (Running c rest p) →
  (p = Enter → lock s = None) →
  ∃ t', threads (step j s) !! j = Some t' ∧ t' ≠ Running c rest p.
Proof.
  intros Hs Hj Hfree.
  assert (∀ tj', threads (set_thread j tj' s) !! j = Some tj') as Hset.
  { intros tj'. simpl. apply list_lookup_insert_eq.
    by eapply lookup_lt_Some. }
  unfold step. rewrite Hj. destruct p as [| | |k| | |].
  - eexists. split; [apply Hset|]. by destruct (bound _ _).
  - rewrite Hfree by done. eexists. split; [apply Hset|done].
  - eexists. split; [apply Hset|]. by destruct (bound _ _).
  - pose proof (safe_make_step s j c rest k Hs Hj) as Hm.
    destruct (create_stmt _ _ _) as [[e|m]|]; [done|..];
      (eexists; split; [apply Hset|]); [|done].
    intros [=]. lia.
  - eexists. split; [apply Hset|done].
  - eexists. split; [apply Hset|]. by destruct (bound _ _).
  - pose proof (safe_after s Hs j c rest Run Hj) as Hb.
    destruct (safe_run s c Hs) as (m & Hm & _); [apply Hb; auto|].
    rewrite Hm. eexists. split; [apply Hset|]. by destruct rest.
Qed.

(** X21 ([OrchestratorMetrics], lines 31-97).  The threads that share the
    metrics object never block each other for good: as long as some thread
    has not finished its calls, some thread can take a step. *)
Theorem metrics_threads_progress (work : list (list call))
    (sched : list nat) (i : nat) (t : thread) :
  let s := run sched (boot work) in
  threads s !! i = Some t → t ≠ Finished → ∃ j, step j s ≠ s.
Proof.
  intros s Hi Hne.
  destruct (reached_safe work sched) as [Hs _]. fold s in Hs.
  assert (∀ j c rest p, threads s !! j = Some (Running c rest p) →
            (p = Enter → lock s = None) → step j s ≠ s) as Hmove.
  { intros j c rest p Hj Hfree Heq.
    destruct (step_moves j s c rest p Hs Hj Hfree) as (t' & Ht' & Hdiff).
    rewrite Heq in Ht'. congruence. }
  destruct (lock s) as [j|] eqn:Hl.
  - (* the holder of the lock moves *)
    exists j. destruct (safe_holder s Hs j Hl) as (tj & Hj & Hb).
    destruct tj as [c rest p| |]; try done.
    apply (Hmove j c rest p Hj). intros ->. done.
  - (* the lock is free: any thread with a call to make moves *)
    exists i. destruct t as [c rest p| |e]; [|done|].
    + by apply (Hmove i c rest p Hi).
    + by destruct (safe_crash s Hs i _ Hi).
Qed.

End ThreadResults.

(** ** The LlamaGuard guardrail *)

Section GuardFacts.

Import LlamaGuard.

Variable model_name : pystr.
Variable llm_engine_hf : list message → option pystr.

Lemma contains_cons (sub : pystr) (c : N) (s : pystr) :
  contains sub s = true → contains sub (c :: s) = true.
Proof. intros H. simpl. rewrite H. apply orb_true_r. Qed.

Lemma startswith_drop (p q s : pystr) :
  startswith (p ++ q) s = true → startswith q (drop (length p) s) = true.
Proof.
  revert s. induction p as [|a p IH]; intros s; [done|].
  destruct s as [|b s]; simpl; [done|].
  intros [_ H]%andb_true_iff. by apply IH.
Qed.

Lemma contains_drop (sub : pystr) (k : nat) (s : pystr) :
  contains sub (drop k s) = true → contains sub s = true.
Proof.
  revert s. induction k as [|k IH]; intros s; [by rewrite drop_0|].
  destruct s as [|c s]; [done|]. simpl drop. intros H.
  by apply contains_cons, IH.
Qed.

Lemma contains_head (sub s : pystr) :
  startswith sub s = true → contains sub s = true.
Proof. intros H. destruct s; simpl; by rewrite H. Qed.

(** A text that contains [p ++ q] contains [q]. *)
Lemma contains_suffix (p q s : pystr) :
  contains (p ++ q) s = true → contains q s = true.
Proof.
  induction s as [|c s IH]; intros H; simpl in H.
  - rewrite orb_false_r in H. apply startswith_drop in H.
    rewrite drop_nil in H. by apply contains_head.
  - apply orb_true_iff in H as [H|H].
    + apply startswith_drop in H. eapply (contains_drop q (length p) (c :: s)).
      by apply contains_head.
    + apply (contains_cons q c s). by apply IH.
Qed.




(** X23 ([check_health], lines 125-151; [invoke], line 105).  The health
    check cannot tell the verdicts apart: an engine that answers the probe
    with a verdict containing "unsafe" is reported healthy, because
    "unsafe" contains "safe". *)
Theorem check_health_accepts_unsafe (verdict : pystr) :
  llm_engine_hf [(py "user", py "The sky is blue.")] = Some verdict →
  contains (py "unsafe") verdict = true →
  check_health llm_engine_hf = true.
Proof.
  intros Hv Hu. unfold check_health. rewrite Hv.
  by apply (contains_suffix (py "un") (py "safe")).
Qed.

End GuardFacts.

Section GuardVeto.

Import LlamaGuard.

Variable re_findall : pystr → node → option bool.
Variable llm_parameters : LLMParams.
Variable model_name : pystr.
Variable llm_engine_hf : list message → option pystr.




End GuardVeto.

(** ** The properties at concrete inputs *)

Lemma process_outputs_last_writer_wins_witness :
  process_outputs [py "A"; py "B"] two_texts
  = inr {[ py "text" := VStr (py "b") ]}
  ∧ (({[ py "text" := VStr (py "b") ]} : payload) !! py "text"
     = Some (VStr (py "b"))
     ↔ last_writer two_texts [py "A"; py "B"] (py "text") (VStr (py "b"))).
Proof.
  assert (process_outputs [py "A"; py "B"] two_texts
          = inr {[ py "text" := VStr (py "b") ]}) as H
    by (vm_compute; reflexivity).
  exact (conj H (process_outputs_last_writer_wins _ _ _ (py "text")
                   (VStr (py "b")) H)).
Defined.


Lemma execute_key_error_iff_witness :
  keyed_services (py "N") = Some (keyed_service EMBEDDING)
  ∧ heap (seed single ∅) !! INITIAL = Some ∅
  ∧ NoDup (llm_dict unary_params).*1
  ∧ (let r := execute_start keyed_services unary_params (py "N") INITIAL
                (seed single ∅) in
     (r.2 = Failed (py "N") KeyError
      ↔ truthy (api_key_value (keyed_service EMBEDDING)) = true
        ∧ (∅ : payload) !! py "model" = None
        ∧ (is_llm_vlm (keyed_service EMBEDDING) = true →
           model unary_params = None))
     ∧ (r.2 = Failed (py "N") KeyError → log r.1 = log (seed single ∅))
     ∧ (r.2 ≠ Failed (py "N") KeyError →
        ∃ body, log r.1 = log (seed single ∅) ++ [OPost (py "N") body]
                ∧ heap r.1 !! INITIAL = Some body)).
Proof.
  assert (keyed_services (py "N") = Some (keyed_service EMBEDDING)) as H1
    by reflexivity.
  assert (heap (seed single ∅) !! INITIAL = Some ∅) as H2
    by (vm_compute; reflexivity).
  assert (NoDup (llm_dict unary_params).*1) as H3
    by (apply (bool_decide_unpack _); vm_compute; reflexivity).
  exact (conj H1 (conj H2 (conj H3
    (execute_key_error_iff keyed_services unary_params (py "N")
       (keyed_service EMBEDDING) INITIAL ∅ (seed single ∅) H1 H2 H3)))).
Defined.

Lemma schedule_leaves_inputs_alone_witness :
  (∀ n svc, fan_in_services n = Some svc → is_llm_vlm svc = false)
  ∧ heap (schedule mini_findall fan_in_services unary_params fan_in
            {[ py "q" := VStr (py "hi") ]} fan_in_script).1 !! INITIAL
    = Some {[ py "q" := VStr (py "hi") ]}.
Proof.
  assert (∀ n svc, fan_in_services n = Some svc → is_llm_vlm svc = false)
    as H by (intros n svc [= <-]; reflexivity).
  exact (conj H (schedule_leaves_inputs_alone mini_findall fan_in_services
                   unary_params fan_in {[ py "q" := VStr (py "hi") ]}
                   fan_in_script H)).
Defined.

Lemma generate_pass_through_witness :
  up_ok two_chunks = true
  ∧ (let r := generate echo false two_chunks in
     let sent := filter (λ c, c ≠ []) (up_chunks two_chunks) in
     yielded r.1 = EvChunk <$> sent
     ∧ posted r.1 = []
     ∧ r.2 = (if up_clean two_chunks then Finished
              else GenRaised TransportError)
     ∧ glog r.1 = token_updates true (length sent)
                  ++ (if up_clean two_chunks
                      then [ORequest; OPending false] else [])).
Proof.
  exact (conj eq_refl (generate_pass_through echo two_chunks eq_refl)).
Defined.

Lemma generate_forwards_all_text_witness :
  up_ok five_tokens = true
  ∧ (generate echo true five_tokens).2 = Finished
  ∧ (let gs := (generate echo true five_tokens).1 in
     Forall (λ p, ∃ s, p = {[ py "text" := VStr s ]}) (posted gs)
     ∧ concat (posted_text <$> posted gs) ++ buffered_chunk_str gs
       = concat (chunk_text <$> up_chunks five_tokens)
     ∧ (∀ ch, last (up_chunks five_tokens) = Some ch →
              ends_done ch = true → buffered_chunk_str gs = [])).
Proof.
  assert ((generate echo true five_tokens).2 = Finished) as H
    by (vm_compute; reflexivity).
  exact (conj eq_refl (conj H
           (generate_forwards_all_text echo five_tokens eq_refl H))).
Defined.

Lemma frame_roundtrip_newlines_witness :
  Forall piece_ok [Plain 97; Newline; Escaped; Plain 98]
  ∧ ¬ (SQUOTE ∈ [Plain 97; Newline; Escaped; Plain 98] ≫= written
       ∧ DQUOTE ∈ [Plain 97; Newline; Escaped; Plain 98] ≫= written)
  ∧ ∃ ev, frame ([Plain 97; Newline; Escaped; Plain 98] ≫= written) = Some ev
          ∧ extract_chunk_str ev
            = [Plain 97; Newline; Escaped; Plain 98] ≫= read_back
          ∧ ([Plain 97; Newline; Escaped; Plain 98] ≫= read_back
             = [Plain 97; Newline; Escaped; Plain 98] ≫= written
             ↔ Newline ∉ [Plain 97; Newline; Escaped; Plain 98]).
Proof.
  assert (Forall piece_ok [Plain 97; Newline; Escaped; Plain 98]) as H1.
  { repeat constructor; unfold BACKSLASH; lia. }
  assert (¬ (SQUOTE ∈ [Plain 97; Newline; Escaped; Plain 98] ≫= written
             ∧ DQUOTE ∈ [Plain 97; Newline; Escaped; Plain 98] ≫= written))
    as H2 by (apply (bool_decide_unpack _); vm_compute; reflexivity).
  exact (conj H1 (conj H2 (frame_roundtrip_newlines _ H1 H2))).
Defined.


Lemma metrics_threads_progress_witness :
  let s := Threads.run [] (Threads.boot two_threads) in
  Threads.threads s !! 0%nat
  = Some (Threads.Running (Metrics.PendingUpdate true) [] Threads.Lookup)
  ∧ Threads.Running (Metrics.PendingUpdate true) [] Threads.Lookup
    ≠ Threads.Finished
  ∧ ∃ j, Threads.step j s ≠ s.
Proof.
  assert (Threads.Running (Metrics.PendingUpdate true) [] Threads.Lookup
          ≠ Threads.Finished) as H by done.
  exact (conj eq_refl (conj H
           (metrics_threads_progress two_threads [] 0 _ eq_refl H))).
Defined.


Lemma check_health_accepts_unsafe_witness :
  strict_engine [(py "user", py "The sky is blue.")]
  = Some (py "unsafe" ++ [LF] ++ py "O3")
  ∧ contains (py "unsafe") (py "unsafe" ++ [LF] ++ py "O3") = true
  ∧ LlamaGuard.check_health strict_engine = true.
Proof.
  assert (contains (py "unsafe") (py "unsafe" ++ [LF] ++ py "O3") = true)
    as H by (vm_compute; reflexivity).
  exact (conj eq_refl (conj H
           (check_health_accepts_unsafe strict_engine _ eq_refl H))).
Defined.


Lemma fan_in_topological : topological fan_in fan_in_rank.
Proof.
  intros p d Hp. unfold fan_in_rank.
  apply elem_of_predecessors in Hp as (l & Hin & Hd).
  unfold fan_in in Hin.
  repeat (apply elem_of_cons in Hin as [[= -> ->]|Hin]);
    [| |by apply elem_of_nil in Hd|by apply elem_of_nil in Hin].
  - apply list_elem_of_singleton in Hd as ->. by vm_compute.
  - apply list_elem_of_singleton in Hd as ->. by vm_compute.
Qed.

Lemma schedule_runs_whole_graph_witness :
  dag_wf fan_in
  ∧ stream_flag unary_params = false
  ∧ topological fan_in fan_in_rank
  ∧ plain_script fan_in_script
  ∧ (let st := (schedule mini_findall fan_in_services unary_params fan_in ∅
                  fan_in_script).1 in
     (∀ n, n ∈ nodes fan_in →
           ∃ m, result_dict st !! n = Some (Structured m))
     ∧ ∃ out, get_all_final_outputs (result_dict st) (runtime_graph st)
              = inr out).
Proof.
  split; [exact fan_in_wf|]. split; [reflexivity|].
  split; [exact fan_in_topological|].
  assert (plain_script fan_in_script) as Hs by (repeat constructor).
  split; [exact Hs|].
  apply (schedule_runs_whole_graph mini_findall fan_in_services unary_params
           fan_in fan_in_wf eq_refl fan_in_rank ∅ fan_in_script _
           fan_in_topological Hs).
  vm_compute. reflexivity.
Defined.
